(** * A shallow embedding of the LL(1) SQL syntax analyzer

    Source: [src/sql_compiler/syntaxAnalysis.py], class [SyntaxAnalyzer].

    Modelling conventions.
    - Python [str] values are Rocq strings (UTF-8 bytes); the grammar symbols,
      the nullable marker ['ε'] and the Chinese diagnostics are kept verbatim.
    - A Python [set] of strings is a [gset string]; a [dict] keyed by strings
      is a [gmap string _].  The dict [self.grammar] is iterated with
      [.items()], so it is an association list in insertion order (its keys
      are pairwise distinct, as in any dict).
    - [d[k]] on a dict raises [KeyError] when [k] is missing; [d.get(k)]
      does not.  Exceptions are values of [exn], carried by [result].
    - [while] loops and recursive methods take a [fuel] argument; running out
      of it is the distinguished result [OutOfFuel], never a parse outcome.
    - The analyzer object [self] is a record threaded through the methods
      that assign its attributes. *)

From Stdlib Require Import Ascii String.
From stdpp Require Import gmap strings list fin_maps.

Open Scope string_scope.

Set Warnings "-register-all".

(** ** Exceptions and results *)

Inductive exn : Type :=
  | KeyError (key : string)
  | IndexError
  | SyntaxError (msg : string)
  | NotImplementedError (msg : string).

Inductive result (A : Type) : Type :=
  | Ok (a : A)
  | Raise (e : exn)
  | OutOfFuel.

Arguments Ok {A} a.
Arguments Raise {A} e.
Arguments OutOfFuel {A}.

Definition bind {A B : Type} (m : result A) (k : A -> result B) : result B :=
  match m with
  | Ok a => k a
  | Raise e => Raise e
  | OutOfFuel => OutOfFuel
  end.

Notation "'let*' p ':=' m 'in' k" := (bind m (fun p => k))
  (at level 10, p pattern, m at level 200, k at level 200).

(** [d[k]]: dictionary subscription. *)
Definition getitem {V : Type} (d : gmap string V) (k : string) : result V :=
  match d !! k with
  | Some v => Ok v
  | None => Raise (KeyError k)
  end.

(** A [for] loop whose body may raise: the accumulator is the loop state. *)
Fixpoint for_each {A S : Type} (body : S -> A -> result S) (xs : list A) (s : S)
  : result S :=
  match xs with
  | [] => Ok s
  | x :: xs' => let* s' := body s x in for_each body xs' s'
  end.

(** ** The analyzer object *)

(** A lexer token and a mapped token are both 4-tuples
    [(kind, value, line, col)]. *)
Definition token : Type := string * string * Z * Z.

Definition tok_kind (t : token) : string := t.1.1.1.
Definition tok_value (t : token) : string := t.1.1.2.

Record SyntaxAnalyzer : Type := mkAnalyzer {
  grammar : list (string * list (list string));
  terminals : gset string;
  token_to_terminal : gmap string (string -> option string);
  non_terminals : gset string;
  parsing_table : gmap string (gmap string (option (list string)));
  first_sets : gmap string (gset string);
  follow_sets : gmap string (gset string);
  _idx : nat;
  _stream : list token
}.

Definition set_first_sets (v : gmap string (gset string)) (self : SyntaxAnalyzer) :=
  mkAnalyzer (grammar self) (terminals self) (token_to_terminal self)
    (non_terminals self) (parsing_table self) v (follow_sets self)
    (_idx self) (_stream self).

Definition set_follow_sets (v : gmap string (gset string)) (self : SyntaxAnalyzer) :=
  mkAnalyzer (grammar self) (terminals self) (token_to_terminal self)
    (non_terminals self) (parsing_table self) (first_sets self) v
    (_idx self) (_stream self).

Definition set_parsing_table
    (v : gmap string (gmap string (option (list string)))) (self : SyntaxAnalyzer) :=
  mkAnalyzer (grammar self) (terminals self) (token_to_terminal self)
    (non_terminals self) v (first_sets self) (follow_sets self)
    (_idx self) (_stream self).

Definition set_idx (v : nat) (self : SyntaxAnalyzer) :=
  mkAnalyzer (grammar self) (terminals self) (token_to_terminal self)
    (non_terminals self) (parsing_table self) (first_sets self) (follow_sets self)
    v (_stream self).

Definition set_stream (v : list token) (self : SyntaxAnalyzer) :=
  mkAnalyzer (grammar self) (terminals self) (token_to_terminal self)
    (non_terminals self) (parsing_table self) (first_sets self) (follow_sets self)
    (_idx self) v.

(** The nullable marker stored in FIRST sets. *)
Definition eps : string := "ε".

(** ** FIRST sets *)

(** [self.first_sets[nt].update(s)] / [.add(x)]: in-place growth of the set
    stored under [nt]. *)
Definition first_update (nt : string) (s : gset string) (self : SyntaxAnalyzer)
  : result SyntaxAnalyzer :=
  let* old := getitem (first_sets self) nt in
  Ok (set_first_sets (<[nt := old ∪ s]> (first_sets self)) self).

(** The [for i, symbol in enumerate(production)] loop of
    [_add_first_of_production]; [i] is the index of the head of [syms] and
    [len] is [len(production)]. *)
Fixpoint add_first_loop (nt : string) (len i : nat) (syms : list string)
    (self : SyntaxAnalyzer) : result SyntaxAnalyzer :=
  match syms with
  | [] => Ok self
  | symbol :: rest =>
      if decide (symbol ∈ terminals self) then
        first_update nt {[symbol]} self
      else if decide (symbol ∈ non_terminals self) then
        let* fs := getitem (first_sets self) symbol in
        let first_of_symbol := fs ∖ {[eps]} in
        let* self1 := first_update nt first_of_symbol self in
        let* fs' := getitem (first_sets self1) symbol in
        if decide (eps ∉ fs') then Ok self1
        else
          let* self2 := (if decide (i = len - 1) then first_update nt {[eps]} self1
                    else Ok self1) in
          add_first_loop nt len (S i) rest self2
      else add_first_loop nt len (S i) rest self
  end.

Definition _add_first_of_production (nt : string) (production : list string)
    (self : SyntaxAnalyzer) : result SyntaxAnalyzer :=
  match production with
  | [] => first_update nt {[eps]} self
  | _ => add_first_loop nt (length production) 0 production self
  end.

(** One sweep of the [while changed] body of [_compute_first_sets]; the
    boolean is the flag [changed]. *)
Definition first_sweep_production (nt : string) (st : SyntaxAnalyzer * bool)
    (production : list string) : result (SyntaxAnalyzer * bool) :=
  let* old := getitem (first_sets st.1) nt in
  let old_size := size old in
  let* self' := _add_first_of_production nt production st.1 in
  let* new := getitem (first_sets self') nt in
  Ok (self', if decide (old_size < size new) then true else st.2).

Definition first_sweep (self : SyntaxAnalyzer) : result (SyntaxAnalyzer * bool) :=
  for_each (fun st (item : string * list (list string)) =>
              for_each (first_sweep_production item.1) item.2 st)
           (grammar self) (self, false).

Fixpoint first_while (fuel : nat) (self : SyntaxAnalyzer) : result SyntaxAnalyzer :=
  match fuel with
  | 0 => OutOfFuel
  | S fuel' =>
      let* (self', changed) := first_sweep self in
      if changed then first_while fuel' self' else Ok self'
  end.

Definition _compute_first_sets (fuel : nat) (self : SyntaxAnalyzer)
  : result SyntaxAnalyzer :=
  first_while fuel
    (set_first_sets (gset_to_gmap (∅ : gset string) (non_terminals self)) self).

(** ** FIRST of a symbol sequence *)

Fixpoint first_of_sequence_loop (self : SyntaxAnalyzer) (len i : nat)
    (syms : list string) (first_set : gset string) : result (gset string) :=
  match syms with
  | [] => Ok first_set
  | symbol :: rest =>
      if decide (symbol ∈ terminals self) then Ok (first_set ∪ {[symbol]})
      else if decide (symbol ∈ non_terminals self) then
        let* fs := getitem (first_sets self) symbol in
        let first_set1 := first_set ∪ (fs ∖ {[eps]}) in
        if decide (eps ∉ fs) then Ok first_set1
        else
          first_of_sequence_loop self len (S i) rest
            (if decide (i = len - 1) then first_set1 ∪ {[eps]} else first_set1)
      else first_of_sequence_loop self len (S i) rest first_set
  end.

Definition _first_of_sequence (self : SyntaxAnalyzer) (sequence : list string)
  : result (gset string) :=
  match sequence with
  | [] => Ok {[eps]}
  | _ => first_of_sequence_loop self (length sequence) 0 sequence ∅
  end.

(** ** FOLLOW sets *)

Definition follow_update (nt : string) (s : gset string) (self : SyntaxAnalyzer)
  : result SyntaxAnalyzer :=
  let* old := getitem (follow_sets self) nt in
  Ok (set_follow_sets (<[nt := old ∪ s]> (follow_sets self)) self).

(** The loop of [_add_follow_of_production]; [syms] is [production[i:]], so
    its tail is [remaining = production[i+1:]]. *)
Fixpoint add_follow_loop (nt : string) (syms : list string)
    (st : SyntaxAnalyzer * bool) : result (SyntaxAnalyzer * bool) :=
  match syms with
  | [] => Ok st
  | symbol :: remaining =>
      if decide (symbol ∈ non_terminals st.1) then
        let* before := getitem (follow_sets st.1) symbol in
        let* self1 :=
          match remaining with
          | [] =>
              let* fnt := getitem (follow_sets st.1) nt in
              follow_update symbol fnt st.1
          | _ =>
              let* first_of_remaining := _first_of_sequence st.1 remaining in
              if decide (eps ∈ first_of_remaining) then
                let* fnt := getitem (follow_sets st.1) nt in
                let* self0 := follow_update symbol fnt st.1 in
                follow_update symbol (first_of_remaining ∖ {[eps]}) self0
              else follow_update symbol first_of_remaining st.1
          end in
        let* after := getitem (follow_sets self1) symbol in
        add_follow_loop nt remaining
          (self1, if decide (before ≠ after) then true else st.2)
      else add_follow_loop nt remaining st
  end.

(** Returns the mutated analyzer and the method's return value
    [any_changed]. *)
Definition _add_follow_of_production (nt : string) (production : list string)
    (self : SyntaxAnalyzer) : result (SyntaxAnalyzer * bool) :=
  add_follow_loop nt production (self, false).

Definition follow_sweep (self : SyntaxAnalyzer) : result (SyntaxAnalyzer * bool) :=
  for_each (fun st (item : string * list (list string)) =>
              for_each (fun st' production =>
                          let* (self', ch) := _add_follow_of_production item.1 production st'.1 in
                          Ok (self', if ch then true else st'.2))
                       item.2 st)
           (grammar self) (self, false).

Fixpoint follow_while (fuel : nat) (self : SyntaxAnalyzer) : result SyntaxAnalyzer :=
  match fuel with
  | 0 => OutOfFuel
  | S fuel' =>
      let* (self', changed) := follow_sweep self in
      if changed then follow_while fuel' self' else Ok self'
  end.

Definition _compute_follow_sets (fuel : nat) (self : SyntaxAnalyzer)
  : result SyntaxAnalyzer :=
  let self0 :=
    set_follow_sets (gset_to_gmap (∅ : gset string) (non_terminals self)) self in
  let* self1 := follow_update "Prog" {["$"]} self0 in
  follow_while fuel self1.

(** ** The prediction table *)

(** The line printed when a cell is assigned while it already holds a
    production. *)
Definition conflict_warning (nt terminal : string) : string :=
  "警告：分析表冲突 " ++ nt ++ "[" ++ terminal ++ "]".

(** The first nested loop of [_build_parsing_table]: every row of every
    non-terminal is reset to [None] under every terminal. *)
Definition init_table (self : SyntaxAnalyzer) : SyntaxAnalyzer :=
  set_parsing_table
    (gset_to_gmap (gset_to_gmap (None : option (list string)) (terminals self))
                  (non_terminals self)
       ∪ parsing_table self)
    self.

(** One guarded store,
    [if self.parsing_table[nt][terminal] is not None: print(...)]
    followed by [self.parsing_table[nt][terminal] = production].
    The state pairs the analyzer with the lines printed so far. *)
Definition assign_cell (nt : string) (production : list string)
    (st : SyntaxAnalyzer * list string) (terminal : string)
  : result (SyntaxAnalyzer * list string) :=
  let* row := getitem (parsing_table st.1) nt in
  let* cell := getitem row terminal in
  let printed :=
    match cell with
    | Some _ => (st.2 ++ [conflict_warning nt terminal])%list
    | None => st.2
    end in
  Ok (set_parsing_table
        (<[nt := <[terminal := Some production]> row]> (parsing_table st.1)) st.1,
      printed).

(** The body of [for production in productions] in the filling loop. *)
Definition fill_production (nt : string) (st : SyntaxAnalyzer * list string)
    (production : list string) : result (SyntaxAnalyzer * list string) :=
  let* first_of_production := _first_of_sequence st.1 production in
  let* st1 := for_each (assign_cell nt production)
                (elements (first_of_production ∖ {[eps]})) st in
  if decide (eps ∈ first_of_production) then
    let* follow_nt := getitem (follow_sets st1.1) nt in
    for_each (assign_cell nt []) (elements follow_nt) st1
  else Ok st1.

(** Returns the analyzer with its table filled and the warnings printed. *)
Definition _build_parsing_table (self : SyntaxAnalyzer)
  : result (SyntaxAnalyzer * list string) :=
  for_each (fun st (item : string * list (list string)) =>
              for_each (fill_production item.1) item.2 st)
           (grammar self) (init_table self, []).

(** ** Construction of the analyzer *)

Definition sql_grammar : list (string * list (list string)) :=
  [ ("Prog", [["Query"; ";"]]);
    ("Query", [["SELECT"; "SelList"; "FROM"; "Tbl"; "WhereOpt"];
               ["INSERT"; "INTO"; "Tbl"; "VALUES"; "("; "ValList"; ")"];
               ["UPDATE"; "Tbl"; "SET"; "SetList"];
               ["DELETE"; "FROM"; "Tbl"]]);
    ("SelList", [["*"]; ["ID"; "SelListRest"]]);
    ("SelListRest", [[]; [","; "ID"; "SelListRest"]]);
    ("Tbl", [["ID"]]);
    ("WhereOpt", [[]; ["WHERE"; "Cond"]]);
    ("Cond", [["Expr"; "RelOp"; "Expr"; "CondTail"]]);
    ("CondTail", [[]; ["AND"; "Cond"]; ["OR"; "Cond"]]);
    ("Expr", [["ID"]; ["NUM"]; ["STRING"]]);
    ("RelOp", [["="]; ["<>"]; ["<"]; [">"]; ["<="]; [">="]; ["!="]]);
    ("ValList", [["Val"; "ValListRest"]]);
    ("ValListRest", [[]; [","; "Val"; "ValListRest"]]);
    ("Val", [["ID"]; ["NUM"]; ["STRING"]]);
    ("SetList", [["ID"; "="; "Val"; "SetListRest"]]);
    ("SetListRest", [[]; [","; "ID"; "="; "Val"; "SetListRest"]]) ].

Definition sql_terminal_list : list string :=
  [ "SELECT"; "FROM"; "WHERE"; "INSERT"; "INTO"; "VALUES"; "UPDATE"; "SET";
    "DELETE"; "AND"; "OR";
    "ID"; "NUM"; "STRING"; "*"; ","; ";"; "("; ")"; "EOF";
    "="; "<>"; "<"; ">"; "<="; ">="; "!=" ].

Definition sql_terminals : gset string := list_to_set sql_terminal_list.

(** [str.upper()] on ASCII text: the letters a-z are mapped to A-Z and every
    other byte is kept.  (Python also upper-cases non-ASCII letters; token
    text outside ASCII is beyond this model of [upper].) *)
Definition upper_ascii (c : ascii) : ascii :=
  let n := nat_of_ascii c in
  if (97 <=? n)%nat && (n <=? 122)%nat then ascii_of_nat (n - 32) else c.

Fixpoint upper (s : string) : string :=
  match s with
  | EmptyString => EmptyString
  | String c s' => String (upper_ascii c) (upper s')
  end.

Definition sql_token_to_terminal : gmap string (string -> option string) :=
  list_to_map
    [ ("KEYWORD", fun value => Some (upper value));
      ("ID", fun _ => Some "ID");
      ("NUM", fun _ => Some "NUM");
      ("STRING", fun _ => Some "STRING");
      ("RANGE", fun value => Some value);
      ("OP", fun value => Some value);
      ("COMMENT", fun _ => None);
      ("EOF", fun _ => Some "EOF") ].

(** The attributes assigned by [__init__] before the three computations run.
    [_idx] and [_stream] do not exist yet in Python; they are created by
    [build_ast_from_tokens] before any read, so their initial value here is
    never observed. *)
Definition new_analyzer (g : list (string * list (list string)))
    (ts : gset string) (ttt : gmap string (string -> option string))
  : SyntaxAnalyzer :=
  mkAnalyzer g ts ttt (list_to_set g.*1) ∅ ∅ ∅ 0 [].

(** The three calls that end [__init__]. *)
Definition initialise (fuel : nat) (self : SyntaxAnalyzer)
  : result (SyntaxAnalyzer * list string) :=
  let* self1 := _compute_first_sets fuel self in
  let* self2 := _compute_follow_sets fuel self1 in
  _build_parsing_table self2.

Definition __init__ (fuel : nat) : result (SyntaxAnalyzer * list string) :=
  initialise fuel (new_analyzer sql_grammar sql_terminals sql_token_to_terminal).

(** ** The predictive parsing engine ([analyze_tokens], with [debug=False]) *)

(** One row [[step, stack_str, input_str, expression]] of the trace.
    [stack_str = str(stack)] and [input_str = str([(t[0], t[1]) ...])] are
    renderings of a list; each is represented by the list it renders, so
    the literal ["[]"] of [_create_error_output] is the empty list. *)
Record TraceRecord : Type := mkRecord {
  tr_step : nat;
  tr_stack : list string;
  tr_input : list (string * string);
  tr_expression : string
}.

(** The local variables of the [while stack:] loop.  The top of the stack is
    the last element of the list ([stack[-1]], [append], [pop]). *)
Record engine_state : Type := mkEngine {
  stack : list string;
  input_tokens : list token;
  step : nat;
  output : list TraceRecord
}.

(** How one iteration of the loop body ends. *)
Inductive outcome : Type :=
  | Next (st : engine_state)
      (** reaches the final [output.append] and loops *)
  | Break (st : engine_state)
      (** the accept branch *)
  | Return (st : engine_state) (ret : list TraceRecord)
      (** [return self._create_error_output(expression)] *)
  | Throw (e : exn).

Definition _create_error_output (error_msg : string) : list TraceRecord :=
  [mkRecord 1 [] [] error_msg].

Definition eof_token : token := ("EOF", "$", 0%Z, 0%Z).

(** [' '.join(production)] *)
Definition join_space (production : list string) : string :=
  String.concat " " production.

(** [input_tokens[0] if input_tokens else ('EOF', '$', 0, 0)] *)
Definition current_token (st : engine_state) : token :=
  match input_tokens st with t :: _ => t | [] => eof_token end.

Definition current_type (st : engine_state) : string :=
  tok_kind (current_token st).

(** [str([(t[0], t[1]) for t in input_tokens[:3]])] *)
Definition input_str (st : engine_state) : list (string * string) :=
  (fun t : token => (tok_kind t, tok_value t)) <$> take 3 (input_tokens st).

(** The state after [output.append([step, stack_str, input_str, expression])],
    with the stack and input left as [stk] and [inp]; the snapshots
    [stack_str] and [input_str] are taken before the iteration mutates
    anything. *)
Definition emit (st : engine_state) (stk : list string) (inp : list token)
    (expression : string) : engine_state :=
  mkEngine stk inp (S (step st))
    (output st ++ [mkRecord (S (step st)) (stack st) (input_str st) expression])%list.

Definition engine_iteration (self : SyntaxAnalyzer) (st : engine_state) : outcome :=
  match last (stack st) with
  | None => Throw IndexError
  | Some top =>
      let current_type := current_type st in
      let emit := emit st in
      if decide (top = "$" ∧ current_type = "EOF") then
        Break (emit (stack st) (input_tokens st) "接受")
      else if decide (top ∈ terminals self) then
        if decide (top = current_type) then
          match input_tokens st with
          | [] => Throw IndexError
          | _ :: rest =>
              Next (emit (removelast (stack st)) rest ("匹配 " ++ current_type))
          end
        else
          let expression := "错误：期望 " ++ top ++ "，得到 " ++ current_type in
          Return (emit (stack st) (input_tokens st) expression)
                 (_create_error_output expression)
      else if decide (top ∈ non_terminals self) then
        match parsing_table self !! top with
        | None => Throw (KeyError top)
        | Some row =>
            match row !! current_type with
            | Some (Some production) =>
                match production with
                | _ :: _ =>
                    Next (emit (removelast (stack st) ++ rev production)%list
                               (input_tokens st)
                               ("用 " ++ top ++ " -> " ++ join_space production))
                | [] =>
                    Next (emit (removelast (stack st)) (input_tokens st)
                               ("用 " ++ top ++ " -> ε"))
                end
            | _ =>
                let expression :=
                  "错误：" ++ top ++ " 在 " ++ current_type ++ " 处无产生式" in
                Return (emit (stack st) (input_tokens st) expression)
                       (_create_error_output expression)
            end
        end
      else
        let expression := "错误：未知符号 " ++ top in
        Return (emit (stack st) (input_tokens st) expression)
               (_create_error_output expression)
  end.

(** How the loop is left: its guard found the stack empty, the accept branch
    broke out of it, or an error branch returned from the method. *)
Inductive loop_exit : Type :=
  | Exhausted (st : engine_state)
  | Accepted (st : engine_state)
  | Returned (st : engine_state) (ret : list TraceRecord).

Fixpoint engine_loop (fuel : nat) (self : SyntaxAnalyzer) (st : engine_state)
  : result loop_exit :=
  match fuel with
  | 0 => OutOfFuel
  | S fuel' =>
      match stack st with
      | [] => Ok (Exhausted st)
      | _ :: _ =>
          match engine_iteration self st with
          | Next st' => engine_loop fuel' self st'
          | Break st' => Ok (Accepted st')
          | Return st' ret => Ok (Returned st' ret)
          | Throw e => Raise e
          end
      end
  end.

(** The conversion loop at the head of [analyze_tokens]. *)
Definition convert_token (self : SyntaxAnalyzer) (t : token) : option token :=
  let '(token_type, token_value, line, col) := t in
  match token_to_terminal self !! token_type with
  | Some f =>
      match f token_value with
      | Some terminal => Some (terminal, token_value, line, col)
      | None => None
      end
  | None => None
  end.

Definition converted_tokens (self : SyntaxAnalyzer) (tokens : list token)
  : list token :=
  (omap (convert_token self) tokens ++ [eof_token])%list.

Definition engine_start (self : SyntaxAnalyzer) (tokens : list token)
  : engine_state :=
  mkEngine ["$"; "Prog"] (converted_tokens self tokens) 0 [].

(** What the method returns once the loop is left. *)
Definition returned_value (ex : loop_exit) : list TraceRecord :=
  match ex with
  | Exhausted st => output st
  | Accepted st => output st
  | Returned _ ret => ret
  end.

(** [analyze_tokens] as a method: the analyzer after the call and the value
    returned.  The body reads [self] and assigns none of its attributes. *)
Definition analyze_tokens (fuel : nat) (tokens : list token)
    (self : SyntaxAnalyzer) : SyntaxAnalyzer * result (list TraceRecord) :=
  match tokens with
  | [] => (self, Ok (_create_error_output "输入为空"))
  | _ :: _ =>
      (self,
       let* ex := engine_loop fuel self (engine_start self tokens) in
       Ok (returned_value ex))
  end.

(** ** The syntax-tree builder ([build_ast_from_tokens], recursive descent) *)

Module AST.

(** The node classes nested in [SyntaxAnalyzer]; [where] of [Select] is
    [None] when the statement has no WHERE clause. *)
Inductive ASTNode : Type :=
  | Program (query : ASTNode)
  | Select (columns table : ASTNode) (where_ : option ASTNode)
  | Columns (all : bool) (names : list string)
  | Table (name : string)
  | Identifier (name : string)
  | Number (value : string)
  | String (value : string)
  | BinaryOp (left : ASTNode) (op : string) (right : ASTNode).

End AST.

Abbreviation ASTNode := AST.ASTNode.

(** A method that may assign attributes of [self] and may raise: the
    analyzer after the call (kept when an exception escapes) and the
    result. *)
Definition parser (A : Type) : Type := SyntaxAnalyzer -> SyntaxAnalyzer * result A.

Definition pret {A : Type} (a : A) : parser A := fun self => (self, Ok a).

Definition praise {A : Type} (e : exn) : parser A := fun self => (self, Raise e).

Definition pout {A : Type} : parser A := fun self => (self, OutOfFuel).

Definition pbind {A B : Type} (m : parser A) (k : A -> parser B) : parser B :=
  fun self =>
    match m self with
    | (self', Ok a) => k a self'
    | (self', Raise e) => (self', Raise e)
    | (self', OutOfFuel) => (self', OutOfFuel)
    end.

Notation "'let!' p ':=' m 'in' k" := (pbind m (fun p => k))
  (at level 10, p pattern, m at level 200, k at level 200).

Definition _map_tokens (self : SyntaxAnalyzer) (tokens : list token) : list token :=
  let mapped :=
    foldl (fun (mapped : list token) (t : token) =>
             let '(ttype, tval, ln, col) := t in
             let fn := token_to_terminal self !! ttype in
             let term := match fn with Some f => f tval | None => None end in
             match term with
             | None => mapped
             | Some term' => (mapped ++ [(term', tval, ln, col)])%list
             end) [] tokens in
  (mapped ++ [eof_token])%list.

(** [self._stream[self._idx]] *)
Definition _current : parser token :=
  fun self =>
    match _stream self !! _idx self with
    | Some tok => (self, Ok tok)
    | None => (self, Raise IndexError)
    end.

(** [self._idx += 1] *)
Definition advance : parser unit :=
  fun self => (set_idx (_idx self + 1) self, Ok tt).

Definition _accept (term : string) : parser (option token) :=
  let! tok := _current in
  if decide (tok_kind tok = term) then
    let! _ := advance in pret (Some tok)
  else pret None.

Definition _expect (term : string) : parser token :=
  let! tok := _current in
  if decide (tok_kind tok ≠ term) then
    praise (SyntaxError ("期望 " ++ term ++ "，得到 " ++ tok_kind tok))
  else
    let! _ := advance in pret tok.

Fixpoint _parse_SelListRest (fuel : nat) : parser (list string) :=
  match fuel with
  | 0 => pout
  | S fuel' =>
      let! comma := _accept "," in
      match comma with
      | Some _ =>
          let! id_tok := _expect "ID" in
          let! more := _parse_SelListRest fuel' in
          pret (tok_value id_tok :: more)
      | None => pret []
      end
  end.

Definition _parse_SelList (fuel : nat) : parser ASTNode :=
  let! star := _accept "*" in
  match star with
  | Some _ => pret (AST.Columns true [])
  | None =>
      let! id_tok := _expect "ID" in
      let! more := _parse_SelListRest fuel in
      pret (AST.Columns false (tok_value id_tok :: more))
  end.

Definition _parse_Tbl : parser ASTNode :=
  let! id_tok := _expect "ID" in
  pret (AST.Table (tok_value id_tok)).

Definition _parse_Expr : parser ASTNode :=
  let! tok := _current in
  if decide (tok_kind tok = "ID") then
    let! _ := advance in pret (AST.Identifier (tok_value tok))
  else if decide (tok_kind tok = "NUM") then
    let! _ := advance in pret (AST.Number (tok_value tok))
  else if decide (tok_kind tok = "STRING") then
    let! _ := advance in pret (AST.String (tok_value tok))
  else praise (SyntaxError ("Expr 起始符错误：" ++ tok_kind tok)).

Definition rel_ops : list string := ["="; "<>"; "<"; ">"; "<="; ">="; "!="].

(** The [for op in [...]] loop of [_parse_RelOp]. *)
Fixpoint parse_RelOp_loop (ops : list string) : parser string :=
  match ops with
  | [] =>
      let! tok := _current in
      praise (SyntaxError ("关系运算符错误：" ++ tok_kind tok))
  | op :: ops' =>
      let! hit := _accept op in
      match hit with
      | Some _ => pret op
      | None => parse_RelOp_loop ops'
      end
  end.

Definition _parse_RelOp : parser string := parse_RelOp_loop rel_ops.

(** [_parse_CondTail], given the method it calls back ([_parse_Cond]). *)
Definition parse_CondTail_with (parse_Cond : parser ASTNode)
  : parser (option (string * ASTNode)) :=
  let! a := _accept "AND" in
  match a with
  | Some _ => let! rhs := parse_Cond in pret (Some ("AND", rhs))
  | None =>
      let! o := _accept "OR" in
      match o with
      | Some _ => let! rhs := parse_Cond in pret (Some ("OR", rhs))
      | None => pret None
      end
  end.

Fixpoint _parse_Cond (fuel : nat) : parser ASTNode :=
  match fuel with
  | 0 => pout
  | S fuel' =>
      let! left_ := _parse_Expr in
      let! op := _parse_RelOp in
      let! right_ := _parse_Expr in
      let node := AST.BinaryOp left_ op right_ in
      let! tail := parse_CondTail_with (_parse_Cond fuel') in
      match tail with
      | Some (op2, rhs) => pret (AST.BinaryOp node op2 rhs)
      | None => pret node
      end
  end.

Definition _parse_CondTail (fuel : nat) : parser (option (string * ASTNode)) :=
  parse_CondTail_with (_parse_Cond fuel).

Definition _parse_WhereOpt (fuel : nat) : parser (option ASTNode) :=
  let! w := _accept "WHERE" in
  match w with
  | Some _ => let! c := _parse_Cond fuel in pret (Some c)
  | None => pret None
  end.

Definition _parse_Query (fuel : nat) : parser ASTNode :=
  let! sel := _accept "SELECT" in
  match sel with
  | Some _ =>
      let! cols := _parse_SelList fuel in
      let! _ := _expect "FROM" in
      let! tbl := _parse_Tbl in
      let! where_ := _parse_WhereOpt fuel in
      pret (AST.Select cols tbl where_)
  | None => praise (NotImplementedError "当前 AST 构建仅实现 SELECT 语句")
  end.

Definition _parse_Prog (fuel : nat) : parser ASTNode :=
  let! q := _parse_Query fuel in
  let! _ := _expect ";" in
  pret (AST.Program q).

(** The recursive methods are given the length of the mapped stream as
    their depth budget; each recursive call is preceded by the consumption
    of a token, so the budget is never used up ([build_ast_fuel_adequate]).
    CPython's own recursion limit is not modelled. *)
Definition build_ast_from_tokens (tokens : list token) : parser ASTNode :=
  fun self =>
    let stream := _map_tokens self tokens in
    let self1 := set_stream stream (set_idx 0 self) in
    (let! prog := _parse_Prog (length stream) in
     let! _ := _expect "EOF" in
     pret prog) self1.

(** ** The lexer ([tokenize], from [lexicalAnalysis.py])

    The tokenizer is a collaborator of the analyzer; it is modelled to
    tie the token lists used below to the SQL texts they come from.  The
    module-level variables [prog], [pos], [line], [col] become a cursor
    that holds the unread suffix [prog[pos:]]; [text + '\0'] is the
    initial buffer.  The character tests [isalpha], [isdigit], [isalnum]
    are those of ASCII; text outside ASCII is beyond this model. *)

Module Lexer.

Definition sql_keywords : list string :=
  [ "SELECT"; "FROM"; "WHERE"; "INSERT"; "INTO"; "VALUES"; "UPDATE"; "SET";
    "DELETE"; "CREATE"; "TABLE"; "DROP"; "ALTER"; "ADD"; "AND"; "OR"; "NOT";
    "NULL"; "AS"; "JOIN"; "ON"; "ORDER"; "BY"; "GROUP"; "HAVING"; "DISTINCT";
    "LIMIT";
    "INT"; "INTEGER"; "SMALLINT"; "BIGINT"; "TINYINT"; "FLOAT"; "REAL";
    "DOUBLE"; "DECIMAL"; "NUMERIC"; "CHAR"; "VARCHAR"; "TEXT"; "DATE"; "TIME";
    "TIMESTAMP"; "BOOLEAN"; "BLOB" ].

Definition NUL : ascii := ascii_of_nat 0.
Definition LF : ascii := ascii_of_nat 10.
Definition TAB : ascii := ascii_of_nat 9.
Definition CR : ascii := ascii_of_nat 13.

Definition in_range (lo hi : nat) (c : ascii) : bool :=
  (lo <=? nat_of_ascii c)%nat && (nat_of_ascii c <=? hi)%nat.

Definition isdigit (c : ascii) : bool := in_range 48 57 c.
Definition isalpha (c : ascii) : bool := in_range 65 90 c || in_range 97 122 c.
Definition isalnum (c : ascii) : bool := isalpha c || isdigit c.

Definition is_char (a b : ascii) : bool := Ascii.eqb a b.

(** [line] and [col] after [next_char] has returned each character of
    [consumed] in turn. *)
Definition advance_pos (consumed : list ascii) (pos : Z * Z) : Z * Z :=
  foldl (fun (p : Z * Z) (ch : ascii) =>
           if is_char ch LF then (p.1 + 1, 0)%Z else (p.1, p.2 + 1)%Z)
        pos consumed.

(** The blank-skipping loop at the head of [scanner], together with the
    newline case, which consumes the newline and calls [scanner] again:
    blanks and newlines are skipped until something else is met. *)
Fixpoint skip_space (rest : list ascii) : list ascii * list ascii :=
  match rest with
  | ch :: rest' =>
      if is_char ch " " || is_char ch TAB || is_char ch CR || is_char ch LF
      then let '(skipped, rem) := skip_space rest' in (ch :: skipped, rem)
      else ([], rest)
  | [] => ([], [])
  end.

(** [while p(peek_char()): s += next_char()] *)
Fixpoint take_while (p : ascii -> bool) (rest : list ascii)
  : list ascii * list ascii :=
  match rest with
  | ch :: rest' =>
      if p ch then let '(taken, rem) := take_while p rest' in (ch :: taken, rem)
      else ([], rest)
  | [] => ([], [])
  end.

(** The loop of a block comment, after the opening [/*]: the text added to
    the comment, the characters consumed and what is left.  A NUL is
    consumed but not added. *)
Fixpoint block_comment_loop (rest : list ascii)
  : list ascii * list ascii * list ascii :=
  match rest with
  | [] => ([], [], [])
  | ch :: rest' =>
      if is_char ch NUL then ([], [ch], rest')
      else
        let continue :=
          let '(text, consumed, rem) := block_comment_loop rest' in
          (ch :: text, ch :: consumed, rem) in
        if is_char ch "*" then
          match rest' with
          | ch2 :: rest'' =>
              if is_char ch2 "/" then ([ch; ch2], [ch; ch2], rest'') else continue
          | [] => continue
          end
        else continue
  end.

(** The loop of a string literal, after the opening quote. *)
Fixpoint string_loop (rest : list ascii) : list ascii * list ascii * list ascii :=
  match rest with
  | [] => ([], [], [])
  | ch :: rest' =>
      if is_char ch NUL then ([], [ch], rest')
      else if is_char ch "'" then
        match rest' with
        | ch2 :: rest'' =>
            if is_char ch2 "'" then
              let '(text, consumed, rem) := string_loop rest'' in
              (ch :: ch2 :: text, ch :: ch2 :: consumed, rem)
            else ([ch], [ch], rest')
        | [] => ([ch], [ch], rest')
        end
      else
        let '(text, consumed, rem) := string_loop rest' in
        (ch :: text, ch :: consumed, rem)
  end.

Definition two_char_ops : list string := ["<>"; "<="; ">="; "!="; "=="].
Definition single_ops : list ascii :=
  list_ascii_of_string "+-*/%<>!=.,;()".
Definition range_chars : list ascii := list_ascii_of_string ",;()".

Definition str (chars : list ascii) : string := string_of_list_ascii chars.

(** The unread buffer and the position of its first character. *)
Record cursor : Type := mkCursor {
  prog : list ascii;
  line : Z;
  col : Z
}.

Definition consume (consumed rem : list ascii) (cur : cursor) : cursor :=
  let p := advance_pos consumed (line cur, col cur) in mkCursor rem p.1 p.2.

(** One call of [scanner]: the token found ([None] for EOF) and the cursor
    after it. *)
Definition scanner (cur0 : cursor) : option token * cursor :=
  let '(skipped, rest0) := skip_space (prog cur0) in
  let cur := consume skipped rest0 cur0 in
  let tok (ty : string) (value consumed rem : list ascii) :=
    (Some (ty, str value, line cur, col cur), consume consumed rem cur) in
  match rest0 with
  | [] => (None, cur)
  | c :: rest1 =>
      if is_char c NUL then (None, cur)
      else if is_char c "/" && (match rest1 with c2 :: _ => is_char c2 "*" | [] => false end)
      then
        let '(text, consumed, rem) := block_comment_loop (tl rest1) in
        tok "COMMENT" (c :: "*"%char :: text) (c :: "*"%char :: consumed) rem
      else if is_char c "-" && (match rest1 with c2 :: _ => is_char c2 "-" | [] => false end)
      then
        let '(text, rem) :=
          take_while (fun ch => negb (is_char ch NUL || is_char ch LF)) (tl rest1) in
        tok "COMMENT" (c :: "-"%char :: text) (c :: "-"%char :: text) rem
      else if isalpha c || is_char c "_" then
        let '(ident, rem) := take_while (fun ch => isalnum ch || is_char ch "_") rest0 in
        tok (if decide (upper (str ident) ∈ sql_keywords) then "KEYWORD" else "ID")
            ident ident rem
      else if isdigit c then
        let '(digits, rem) := take_while isdigit rest0 in
        match rem with
        | dot :: frac0 :: _ =>
            if is_char dot "." && isdigit frac0 then
              let '(frac, rem') := take_while isdigit (tl rem) in
              tok "NUM" (digits ++ dot :: frac)%list (digits ++ dot :: frac)%list rem'
            else tok "NUM" digits digits rem
        | _ => tok "NUM" digits digits rem
        end
      else if is_char c "'" then
        let '(text, consumed, rem) := string_loop rest1 in
        tok "STRING" (c :: text) (c :: consumed) rem
      else
        let nxt := match rest1 with c2 :: _ => c2 | [] => NUL end in
        if decide (str [c; nxt] ∈ two_char_ops) then
          tok "OP" [c; nxt] [c; nxt] (tl rest1)
        else if decide (c ∈ single_ops) then
          tok (if decide (c ∈ range_chars) then "RANGE" else "OP") [c] [c] rest1
        else tok "UNKNOWN" [c] [c] rest1
  end.

(** The loop of [tokenize]; every call of [scanner] that yields a token
    consumes at least one character, which bounds the number of calls. *)
Fixpoint tokenize_loop (fuel : nat) (cur : cursor) (tokens : list token)
  : result (list token) :=
  match fuel with
  | 0 => OutOfFuel
  | S fuel' =>
      match scanner cur with
      | (None, _) => Ok tokens
      | (Some t, cur') => tokenize_loop fuel' cur' (tokens ++ [t])
      end
  end.

Definition tokenize (text : string) : result (list token) :=
  let buffer := (list_ascii_of_string text ++ [NUL])%list in
  tokenize_loop (S (length buffer)) (mkCursor buffer 1 0) [].

End Lexer.


Definition build_ast (sql_text : string) : parser ASTNode :=
  fun self =>
    match Lexer.tokenize sql_text with
    | Ok tokens => build_ast_from_tokens tokens self
    | Raise e => (self, Raise e)
    | OutOfFuel => (self, OutOfFuel)
    end.

(** The analyzer object that [SyntaxAnalyzer()] returns: three sweeps of
    each fixpoint loop are enough for the SQL grammar ([init_sql_analyzer]
    shows that the construction succeeds and that more fuel changes
    nothing). *)
Definition sql_analyzer : SyntaxAnalyzer :=
  match __init__ 3 with
  | Ok (self, _) => self
  | _ => new_analyzer sql_grammar sql_terminals sql_token_to_terminal
  end.

(** ** Ghost view of table construction: the sequence of cell stores *)

(** A store [(nt, terminal, production)] performed by the filling loop. *)
Definition cell_write : Type := string * string * list string.

Definition write_cell (w : cell_write) : string * string := w.1.

(** The stores performed for one production, in program order: first the
    loop over [FIRST(production) - {ε}], then, if the production is
    nullable, the loop over [FOLLOW(nt)]. *)
Definition production_writes (self : SyntaxAnalyzer) (nt : string)
    (production : list string) : result (list cell_write) :=
  let* first_of_production := _first_of_sequence self production in
  let firsts :=
    (fun terminal => (nt, terminal, production))
      <$> elements (first_of_production ∖ {[eps]}) in
  if decide (eps ∈ first_of_production) then
    let* follow_nt := getitem (follow_sets self) nt in
    Ok (firsts ++ ((fun terminal => (nt, terminal, [])) <$> elements follow_nt))%list
  else Ok firsts.

Definition table_writes (self : SyntaxAnalyzer) : result (list cell_write) :=
  for_each (fun acc (item : string * list (list string)) =>
              for_each (fun acc' production =>
                          let* ws := production_writes self item.1 production in
                          Ok (acc' ++ ws)%list)
                       item.2 acc)
           (grammar self) [].

(** [self.parsing_table[nt].get(terminal)] with a missing row read as
    missing: [None] is "no such key", [Some None] a cell holding [None]. *)
Definition lookup_cell (self : SyntaxAnalyzer) (nt terminal : string)
  : option (option (list string)) :=
  parsing_table self !! nt ≫= (fun row => row !! terminal).

(** The productions stored into cell [(nt, terminal)], oldest first. *)
Definition writes_to (ws : list cell_write) (nt terminal : string)
  : list (list string) :=
  omap (fun w : cell_write =>
          if decide (write_cell w = (nt, terminal)) then Some w.2 else None) ws.

Definition first_write (ws : list cell_write) (nt terminal : string) :=
  head (writes_to ws nt terminal).

Definition last_write (ws : list cell_write) (nt terminal : string) :=
  last (writes_to ws nt terminal).

(** The warnings printed along a sequence of stores that starts from a table
    whose occupied cells are [seen]. *)
Fixpoint conflicts (seen : gset (string * string)) (ws : list cell_write)
  : list string :=
  match ws with
  | [] => []
  | w :: ws' =>
      (if decide (write_cell w ∈ seen)
       then [conflict_warning (write_cell w).1 (write_cell w).2] else [])
      ++ conflicts ({[write_cell w]} ∪ seen) ws'
  end%list.

(** Replaying a sequence of stores with the guarded store of the source. *)
Definition apply_writes (ws : list cell_write) (st : SyntaxAnalyzer * list string)
  : result (SyntaxAnalyzer * list string) :=
  for_each (fun st' (w : cell_write) => assign_cell w.1.1 w.2 st' w.1.2) ws st.

(** The analyzers [s] and [s'] agree on everything table construction
    reads. *)
Definition same_sets (s s' : SyntaxAnalyzer) : Prop :=
  grammar s = grammar s' /\ terminals s = terminals s' /\
  non_terminals s = non_terminals s' /\
  first_sets s = first_sets s' /\ follow_sets s = follow_sets s'.

(** The policy "the earliest store to a cell survives", for the cells that
    are stored into more than once. *)
Definition earliest_wins (self : SyntaxAnalyzer) : Prop :=
  forall self' printed ws nt t p,
    _build_parsing_table self = Ok (self', printed) ->
    table_writes self = Ok ws ->
    1 < length (writes_to ws nt t) ->
    first_write ws nt t = Some p ->
    lookup_cell self' nt t = Some (Some p).

(** A grammar that is not LL(1): both alternatives of [Prog] start with
    [a].  [conflict_analyzer] is the analyzer in the state in which
    [__init__] would call [_build_parsing_table] for it. *)
Definition conflict_grammar : list (string * list (list string)) :=
  [ ("Prog", [["a"]; ["a"; "b"]]) ].

Definition conflict_analyzer : SyntaxAnalyzer :=
  let self0 := new_analyzer conflict_grammar {["a"; "b"]} sql_token_to_terminal in
  match (let* self1 := _compute_first_sets 3 self0 in
         _compute_follow_sets 3 self1) with
  | Ok self2 => self2
  | _ => self0
  end.

Definition conflict_built : SyntaxAnalyzer * list string :=
  match _build_parsing_table conflict_analyzer with
  | Ok r => r
  | _ => (conflict_analyzer, [])
  end.

(** ** Vocabulary of the engine claims *)

(** A diagnostic of one of the three error branches. *)
Definition is_error_message (expression : string) : Prop :=
  exists rest, expression = "错误：" ++ rest.

(** "On a failing run the caller receives the run's trace, whose last record
    is the error record at the step where the error occurred." *)
Definition returns_trace_on_failure (fuel : nat) (tokens : list token)
    (self : SyntaxAnalyzer) : Prop :=
  forall st ret,
    engine_loop fuel self (engine_start self tokens) = Ok (Returned st ret) ->
    (analyze_tokens fuel tokens self).2 = Ok (output st) /\
    exists r, last (output st) = Some r /\ tr_step r = step st /\
              is_error_message (tr_expression r).

(** "On accept the engine pops the marker, records the accept action and
    stops." *)
Definition accept_pops (self : SyntaxAnalyzer) (st : engine_state) : Prop :=
  last (stack st) = Some "$" -> current_type st = "EOF" ->
  exists st',
    engine_iteration self st = Break st' /\
    stack st' = removelast (stack st) /\
    output st' =
      (output st ++ [mkRecord (S (step st)) (stack st) (input_str st) "接受"])%list.

(** The lexer's tokens for ["SELECT FROM t;"]. *)
Definition tokens_select_from_t : list token :=
  [ ("KEYWORD", "SELECT", 1, 0); ("KEYWORD", "FROM", 1, 7);
    ("ID", "t", 1, 12); ("RANGE", ";", 1, 13) ]%Z.

(** The local state of the engine when it gives up on ["SELECT FROM t;"]:
    four iterations were run and the fourth found no table entry. *)
Definition select_from_t_failure : engine_state :=
  mkEngine
    ["$"; ";"; "WhereOpt"; "Tbl"; "FROM"; "SelList"]
    [ ("FROM", "FROM", 1, 7); ("ID", "t", 1, 12); (";", ";", 1, 13);
      ("EOF", "$", 0, 0) ]%Z
    4
    [ mkRecord 1 ["$"; "Prog"]
        [("SELECT", "SELECT"); ("FROM", "FROM"); ("ID", "t")]
        "用 Prog -> Query ;";
      mkRecord 2 ["$"; ";"; "Query"]
        [("SELECT", "SELECT"); ("FROM", "FROM"); ("ID", "t")]
        "用 Query -> SELECT SelList FROM Tbl WhereOpt";
      mkRecord 3 ["$"; ";"; "WhereOpt"; "Tbl"; "FROM"; "SelList"; "SELECT"]
        [("SELECT", "SELECT"); ("FROM", "FROM"); ("ID", "t")]
        "匹配 SELECT";
      mkRecord 4 ["$"; ";"; "WhereOpt"; "Tbl"; "FROM"; "SelList"]
        [("FROM", "FROM"); ("ID", "t"); (";", ";")]
        "错误：SelList 在 FROM 处无产生式" ].

(** Engine states used as concrete instances. *)
Definition st_expand_demo : engine_state :=
  mkEngine ["$"; ";"; "Query"]
    [ ("DELETE", "DELETE", 1, 0); ("FROM", "FROM", 1, 7); ("ID", "t", 1, 12);
      (";", ";", 1, 13); ("EOF", "$", 0, 0) ]%Z 1
    [ mkRecord 1 ["$"; "Prog"]
        [("DELETE", "DELETE"); ("FROM", "FROM"); ("ID", "t")]
        "用 Prog -> Query ;" ].

Definition st_accept_demo : engine_state := mkEngine ["$"] [eof_token] 4 [].

(** ** Vocabulary of the frame claim *)

(** The shared state built by [__init__]: everything but the cursor
    attributes of the tree builder. *)
Definition core (self : SyntaxAnalyzer) :=
  (grammar self, terminals self, token_to_terminal self, non_terminals self,
   first_sets self, follow_sets self, parsing_table self).

Definition preserves_core {A : Type} (m : parser A) : Prop :=
  forall self, core (m self).1 = core self.

(** ** Vocabulary of the token-dropping claim *)

(** A token that the syntax phase ignores: a comment, or a token whose
    lexical type has no entry in [token_to_terminal] (such as UNKNOWN). *)
Definition is_dropped (self : SyntaxAnalyzer) (t : token) : Prop :=
  tok_kind t = "COMMENT" \/ token_to_terminal self !! tok_kind t = None.

#[global] Instance is_dropped_dec self t : Decision (is_dropped self t).
Proof. unfold is_dropped. apply _. Defined.

(** The token list with the ignored tokens removed. *)
Definition strip (self : SyntaxAnalyzer) (tokens : list token) : list token :=
  filter (fun t => ~ is_dropped self t) tokens.

(** "Both parsers give, on every token list, the outcome they give on the
    stripped list." *)
Definition dropping_is_transparent (self : SyntaxAnalyzer) : Prop :=
  forall fuel tokens,
    analyze_tokens fuel tokens self = analyze_tokens fuel (strip self tokens) self /\
    build_ast_from_tokens tokens self = build_ast_from_tokens (strip self tokens) self.

(** The lexer's tokens for a text that is one comment, ["-- note"]. *)
Definition tokens_only_comment : list token := [ ("COMMENT", "-- note", 1, 0) ]%Z.

(** ** Vocabulary of the WHERE-clause claim *)

Definition is_expr_token (t : token) : Prop := tok_kind t ∈ ["ID"; "NUM"; "STRING"].
Definition is_relop_token (t : token) : Prop := tok_kind t ∈ rel_ops.
Definition is_combinator_token (t : token) : Prop := tok_kind t ∈ ["AND"; "OR"].

(** The leaf built for an operand token. *)
Definition expr_node (t : token) : ASTNode :=
  if decide (tok_kind t = "ID") then AST.Identifier (tok_value t)
  else if decide (tok_kind t = "NUM") then AST.Number (tok_value t)
  else AST.String (tok_value t).

(** One comparison [Expr RelOp Expr] of the mapped stream. *)
Record comparison : Type := mkComparison {
  cmp_left : token;
  cmp_op : token;
  cmp_right : token
}.

Definition comparison_ok (c : comparison) : Prop :=
  is_expr_token (cmp_left c) /\ is_relop_token (cmp_op c) /\
  is_expr_token (cmp_right c).

Definition comparison_tokens (c : comparison) : list token :=
  [cmp_left c; cmp_op c; cmp_right c].

Definition comparison_node (c : comparison) : ASTNode :=
  AST.BinaryOp (expr_node (cmp_left c)) (tok_kind (cmp_op c)) (expr_node (cmp_right c)).

(** The continuation of a chained condition: each link is a combinator token
    (AND / OR) followed by a comparison. *)
Definition link_ok (l : token * comparison) : Prop :=
  is_combinator_token l.1 /\ comparison_ok l.2.

Fixpoint chain_tokens (links : list (token * comparison)) : list token :=
  match links with
  | [] => []
  | (k, c) :: links' => k :: comparison_tokens c ++ chain_tokens links'
  end%list.

(** The right-leaning tree of the spec: the first comparison is the left
    operand of the first combinator, whose right operand is the tree of
    everything that follows. *)
Fixpoint right_leaning (c : comparison) (links : list (token * comparison))
  : ASTNode :=
  match links with
  | [] => comparison_node c
  | (k, c') :: links' =>
      AST.BinaryOp (comparison_node c) (tok_kind k) (right_leaning c' links')
  end.

(** The lexer's tokens for
    ["SELECT a, b FROM t WHERE a = 1 AND b <> 2;"]. *)
Definition tokens_select_where : list token :=
  [ ("KEYWORD", "SELECT", 1, 0); ("ID", "a", 1, 7); ("RANGE", ",", 1, 8);
    ("ID", "b", 1, 10); ("KEYWORD", "FROM", 1, 12); ("ID", "t", 1, 17);
    ("KEYWORD", "WHERE", 1, 19); ("ID", "a", 1, 25); ("OP", "=", 1, 27);
    ("NUM", "1", 1, 29); ("KEYWORD", "AND", 1, 31); ("ID", "b", 1, 35);
    ("OP", "<>", 1, 37); ("NUM", "2", 1, 40); ("RANGE", ";", 1, 41) ]%Z.

(** What the builder's cursor still has to read: the stream from [_idx] on. *)
Definition pending (self : SyntaxAnalyzer) : list token :=
  drop (_idx self) (_stream self).

(** The builder's state when it enters [_parse_Cond] on the example above:
    the cursor stands just after WHERE. *)
Definition where_demo_state : SyntaxAnalyzer :=
  set_idx 7 (set_stream (_map_tokens sql_analyzer tokens_select_where) sql_analyzer).

Definition where_demo_first : comparison :=
  mkComparison ("ID", "a", 1, 25)%Z ("=", "=", 1, 27)%Z ("NUM", "1", 1, 29)%Z.

Definition where_demo_links : list (token * comparison) :=
  [ (("AND", "AND", 1, 31)%Z,
     mkComparison ("ID", "b", 1, 35)%Z ("<>", "<>", 1, 37)%Z ("NUM", "2", 1, 40)%Z) ].

(** ** Vocabulary of the unsupported-statement claim *)

(** The terminals of the mapped stream of a token list (without the EOF
    that both parsers append). *)
Definition terminal_word (self : SyntaxAnalyzer) (tokens : list token)
  : list string :=
  tok_kind <$> omap (convert_token self) tokens.

(** The terminals a value ([Val]) can be. *)
Definition val_kinds : list string := ["ID"; "NUM"; "STRING"].

(** The sentences of the three statement forms that the grammar has besides
    SELECT, each closed by [;]:
    [INSERT INTO ID VALUES ( Val {, Val} ) ;],
    [UPDATE ID SET ID = Val {, ID = Val} ;] and [DELETE FROM ID ;]. *)
Definition insert_word (w : list string) : Prop :=
  exists v vs, v ∈ val_kinds /\ Forall (fun v' => v' ∈ val_kinds) vs /\
    w = (["INSERT"; "INTO"; "ID"; "VALUES"; "("; v]
           ++ flat_map (fun v' => [","; v']) vs ++ [")"; ";"])%list.

Definition update_word (w : list string) : Prop :=
  exists v vs, v ∈ val_kinds /\ Forall (fun v' => v' ∈ val_kinds) vs /\
    w = (["UPDATE"; "ID"; "SET"; "ID"; "="; v]
           ++ flat_map (fun v' => [","; "ID"; "="; v']) vs ++ [";"])%list.

Definition delete_word (w : list string) : Prop :=
  w = ["DELETE"; "FROM"; "ID"; ";"].

Definition ends_in_accept (trace : list TraceRecord) : Prop :=
  exists r, last trace = Some r /\ tr_expression r = "接受".

(** The engine, given enough fuel, returns a trace that ends in accept. *)
Definition engine_recognizes (self : SyntaxAnalyzer) (tokens : list token) : Prop :=
  exists fuel trace,
    ends_in_accept trace /\
    forall k, (analyze_tokens (fuel + k) tokens self).2 = Ok trace.

(** What [_parse_Query] raises for anything but SELECT. *)
Definition unsupported_statement : exn :=
  NotImplementedError "当前 AST 构建仅实现 SELECT 语句".

(** "The engine recognizes the statement and the tree builder answers with
    the unsupported-statement error." *)
Definition recognized_but_unsupported (self : SyntaxAnalyzer)
    (tokens : list token) : Prop :=
  engine_recognizes self tokens /\
  (build_ast_from_tokens tokens self).2 = Raise unsupported_statement.

(** The lexer's tokens for ["CREATE TABLE t (id INT);"] and for
    ["DELETE FROM t;"]. *)
Definition tokens_create_table : list token :=
  [ ("KEYWORD", "CREATE", 1, 0); ("KEYWORD", "TABLE", 1, 7); ("ID", "t", 1, 13);
    ("RANGE", "(", 1, 15); ("ID", "id", 1, 16); ("KEYWORD", "INT", 1, 19);
    ("RANGE", ")", 1, 22); ("RANGE", ";", 1, 23) ]%Z.

Definition tokens_delete_from_t : list token :=
  [ ("KEYWORD", "DELETE", 1, 0); ("KEYWORD", "FROM", 1, 7); ("ID", "t", 1, 12);
    ("RANGE", ";", 1, 13) ]%Z.

(** The engine started on stack [stk] (top first) and input [inp] reaches the
    accept branch, whatever the step counter and the trace so far. *)
Definition run_accepts (self : SyntaxAnalyzer) (st : engine_state) : Prop :=
  exists fuel st', forall k, engine_loop (fuel + k) self st = Ok (Accepted st').

Definition accepts_from (self : SyntaxAnalyzer) (stk : list string)
    (inp : list token) : Prop :=
  forall stp out, run_accepts self (mkEngine (rev stk) inp stp out).

(** The same for every input whose terminals are [ks]. *)
Definition accepts_word (self : SyntaxAnalyzer) (stk : list string)
    (ks : list string) : Prop :=
  forall inp, tok_kind <$> inp = ks -> accepts_from self stk inp.

(** ** Vocabulary of the builder's depth budget *)

(** Tokens left to read. *)
Definition remaining (self : SyntaxAnalyzer) : nat :=
  length (_stream self) - _idx self.


(** ** Vocabulary of engine termination *)

(** The analyzer in the state in which [__init__] calls
    [_build_parsing_table]: FIRST and FOLLOW computed, table still empty. *)
Definition sql_before_table : SyntaxAnalyzer :=
  let self0 := new_analyzer sql_grammar sql_terminals sql_token_to_terminal in
  match (let* self1 := _compute_first_sets 3 self0 in
         _compute_follow_sets 3 self1) with
  | Ok self2 => self2
  | _ => self0
  end.

(** The prediction table of the SQL grammar, as the list of its stores. *)
Definition sql_entries : list cell_write :=
  [ ("Prog", "SELECT", ["Query"; ";"]);
    ("Prog", "UPDATE", ["Query"; ";"]);
    ("Prog", "INSERT", ["Query"; ";"]);
    ("Prog", "DELETE", ["Query"; ";"]);
    ("Query", "SELECT", ["SELECT"; "SelList"; "FROM"; "Tbl"; "WhereOpt"]);
    ("Query", "INSERT", ["INSERT"; "INTO"; "Tbl"; "VALUES"; "("; "ValList"; ")"]);
    ("Query", "UPDATE", ["UPDATE"; "Tbl"; "SET"; "SetList"]);
    ("Query", "DELETE", ["DELETE"; "FROM"; "Tbl"]);
    ("SelList", "*", ["*"]);
    ("SelList", "ID", ["ID"; "SelListRest"]);
    ("SelListRest", "FROM", []);
    ("SelListRest", ",", [","; "ID"; "SelListRest"]);
    ("Tbl", "ID", ["ID"]);
    ("WhereOpt", ";", []);
    ("WhereOpt", "WHERE", ["WHERE"; "Cond"]);
    ("Cond", "STRING", ["Expr"; "RelOp"; "Expr"; "CondTail"]);
    ("Cond", "ID", ["Expr"; "RelOp"; "Expr"; "CondTail"]);
    ("Cond", "NUM", ["Expr"; "RelOp"; "Expr"; "CondTail"]);
    ("CondTail", ";", []);
    ("CondTail", "AND", ["AND"; "Cond"]);
    ("CondTail", "OR", ["OR"; "Cond"]);
    ("Expr", "ID", ["ID"]);
    ("Expr", "NUM", ["NUM"]);
    ("Expr", "STRING", ["STRING"]);
    ("RelOp", "=", ["="]);
    ("RelOp", "<>", ["<>"]);
    ("RelOp", "<", ["<"]);
    ("RelOp", ">", [">"]);
    ("RelOp", "<=", ["<="]);
    ("RelOp", ">=", [">="]);
    ("RelOp", "!=", ["!="]);
    ("ValList", "STRING", ["Val"; "ValListRest"]);
    ("ValList", "ID", ["Val"; "ValListRest"]);
    ("ValList", "NUM", ["Val"; "ValListRest"]);
    ("ValListRest", ")", []);
    ("ValListRest", ",", [","; "Val"; "ValListRest"]);
    ("Val", "ID", ["ID"]);
    ("Val", "NUM", ["NUM"]);
    ("Val", "STRING", ["STRING"]);
    ("SetList", "ID", ["ID"; "="; "Val"; "SetListRest"]);
    ("SetListRest", ";", []);
    ("SetListRest", ",", [","; "ID"; "="; "Val"; "SetListRest"]) ].

(** A rank that every expansion lowers unless the chosen production starts
    with the current terminal. *)
Definition rank (symbol : string) : nat :=
  if decide (symbol ∈ ["Cond"; "ValList"]) then 2
  else if decide (symbol ∈ ["Prog"; "SelListRest"; "WhereOpt"; "CondTail";
                            "ValListRest"; "SetListRest"]) then 1
  else 0.

Definition stack_rank (stk : list string) : nat := sum_list_with rank stk.

(** An entry [(nt, a, p)] is fit for termination: [p] has no ['EOF'], and
    either [p] starts with the terminal [a] or expanding [nt] to [p] lowers
    the rank. *)
Definition entry_fit (w : cell_write) : bool :=
  forallb (fun s => negb (String.eqb s "EOF")) w.2 &&
  ((match w.2 with
    | h :: _ => String.eqb h w.1.2 && bool_decide (h ∈ sql_terminal_list)
    | [] => false
    end)
   || (stack_rank w.2 <? rank w.1.1)%nat).

(** 0 when the next iteration is a match, 1 otherwise. *)
Definition match_pending (self : SyntaxAnalyzer) (st : engine_state) : nat :=
  match last (stack st) with
  | Some top =>
      if decide (top = current_type st /\ top ∈ terminals self) then 0 else 1
  | None => 1
  end.

Definition input_measure (self : SyntaxAnalyzer) (st : engine_state) : nat :=
  2 * length (input_tokens st) + match_pending self st.

(** The loop, started in [st], is left normally once it has enough fuel. *)
Definition terminates (self : SyntaxAnalyzer) (st : engine_state) : Prop :=
  exists fuel ex, forall k, engine_loop (fuel + k) self st = Ok ex.

(** ** Vocabulary of the further properties *)

(** The trace returned for ["DELETE FROM t;"]. *)
Definition delete_from_t_trace : list TraceRecord :=
  Eval vm_compute in
    match (analyze_tokens 20 tokens_delete_from_t sql_analyzer).2 with
    | Ok trace => trace
    | _ => []
    end.

(** The two rules by which the filling loop of [_build_parsing_table]
    stores [p] into cell [(nt, t)]: for a production of [nt], under every
    member of its FIRST other than ['ε'] the production itself, and, when
    ['ε'] is in its FIRST, under every member of FOLLOW(nt) the empty
    list. *)
Definition fill_rule (self : SyntaxAnalyzer) (nt t : string) (p : list string)
  : Prop :=
  exists productions production first,
    (nt, productions) ∈ grammar self /\ production ∈ productions /\
    _first_of_sequence self production = Ok first /\
    ((p = production /\ t ∈ first /\ t <> eps) \/
     (p = [] /\ eps ∈ first /\
      exists follow, follow_sets self !! nt = Some follow /\ t ∈ follow)).

(** Every key of the dict [m] is in [keys] and every set it stores is
    within [bound]. *)
Definition sets_within (m : gmap string (gset string)) (keys bound : gset string)
  : Prop :=
  forall k s, m !! k = Some s -> k ∈ keys /\ s ⊆ bound.

(** The analyzer [self] has the terminals [T], the non-terminals [N] and
    FIRST sets made of terminals and ['ε']. *)
Definition first_ok (T N : gset string) (self : SyntaxAnalyzer) : Prop :=
  terminals self = T /\ non_terminals self = N /\
  sets_within (first_sets self) N (T ∪ {[eps]}).

(** The same with FOLLOW sets made of terminals and ['$']. *)
Definition follow_ok (T N : gset string) (self : SyntaxAnalyzer) : Prop :=
  first_ok T N self /\ sets_within (follow_sets self) N (T ∪ {["$"]}).

(** The analyzer after the FIRST computation of [__init__]. *)
Definition sql_after_first : SyntaxAnalyzer :=
  let self0 := new_analyzer sql_grammar sql_terminals sql_token_to_terminal in
  match _compute_first_sets 3 self0 with
  | Ok self1 => self1
  | _ => self0
  end.

(** The analyzer after [self.first_sets[nt].update(X)] / [self.follow_sets[nt].update(X)]. *)
Definition grow_first (nt : string) (X : gset string) (self : SyntaxAnalyzer)
  : SyntaxAnalyzer :=
  set_first_sets
    (<[nt := default ∅ (first_sets self !! nt) ∪ X]> (first_sets self)) self.

Definition grow_follow (nt : string) (X : gset string) (self : SyntaxAnalyzer)
  : SyntaxAnalyzer :=
  set_follow_sets
    (<[nt := default ∅ (follow_sets self !! nt) ∪ X]> (follow_sets self)) self.

(** ** Vocabulary of the lexer properties *)

(** The characters that [scanner] skips between tokens. *)
Definition is_blank (c : ascii) : Prop :=
  c ∈ [" "%char; Lexer.TAB; Lexer.CR; Lexer.LF].

(** The token types that [scanner] assigns. *)
Definition lexer_kinds : list string :=
  ["COMMENT"; "KEYWORD"; "ID"; "NUM"; "STRING"; "OP"; "RANGE"; "UNKNOWN"].

(** [placed pos chars tokens]: the characters [chars], read from position
    [pos = (line, col)], are the texts of [tokens] in order, separated by
    blanks only, and every token carries the position of its first
    character. *)
Inductive placed : Z * Z -> list ascii -> list token -> Prop :=
  | placed_nil pos blanks :
      Forall is_blank blanks -> placed pos blanks []
  | placed_cons pos blanks value rest ty tokens :
      Forall is_blank blanks -> value <> [] ->
      placed (Lexer.advance_pos (blanks ++ value) pos) rest tokens ->
      placed pos (blanks ++ value ++ rest)
        ((ty, Lexer.str value,
          (Lexer.advance_pos blanks pos).1, (Lexer.advance_pos blanks pos).2)
           :: tokens).

(** The text has no NUL character and is made of ASCII characters, the
    range on which the character tests of the model are those of Python. *)
Definition plain_text (text : string) : Prop :=
  Forall (fun c => 0 < nat_of_ascii c < 128) (list_ascii_of_string text).

(** A word: it starts with a letter or an underscore and goes on with
    letters, digits and underscores. *)
Definition is_word (w : string) : Prop :=
  match list_ascii_of_string w with
  | c :: _ => Lexer.isalpha c || Lexer.is_char c "_" = true
  | [] => False
  end /\
  Forall (fun c => Lexer.isalnum c || Lexer.is_char c "_" = true)
         (list_ascii_of_string w).

(** What a loop of [scanner] that may stop at a NUL has read: the text it
    kept and, when it stopped at a NUL, that NUL. *)
Definition read_as (text consumed : list ascii) : Prop :=
  (Lexer.NUL ∉ text) /\
  (consumed = text \/ consumed = (text ++ [Lexer.NUL])%list).

(** ** Vocabulary of the builder's exceptions *)





(** ** Vocabulary of SELECT statements *)

(** The select list: [*], or an identifier followed by any number of
    pairs "comma, identifier". *)
Inductive select_list : Type :=
  | AllColumns (star : token)
  | NamedColumns (first : token) (more : list (token * token)).

(** WHERE, a comparison and any number of links "AND/OR comparison". *)
Record where_clause : Type := mkWhere {
  wh_where : token;
  wh_first : comparison;
  wh_links : list (token * comparison)
}.

Record select_statement : Type := mkSelect {
  sel_select : token;
  sel_list : select_list;
  sel_from : token;
  sel_table : token;
  sel_where : option where_clause;
  sel_semicolon : token
}.

Definition select_list_tokens (l : select_list) : list token :=
  match l with
  | AllColumns star => [star]
  | NamedColumns first more =>
      first :: flat_map (fun p : token * token => [p.1; p.2]) more
  end.

Definition where_tokens (w : option where_clause) : list token :=
  match w with
  | None => []
  | Some w => wh_where w :: comparison_tokens (wh_first w) ++ chain_tokens (wh_links w)
  end%list.

(** The mapped tokens of the statement, in order. *)
Definition select_tokens (s : select_statement) : list token :=
  (sel_select s :: select_list_tokens (sel_list s)
     ++ sel_from s :: sel_table s :: where_tokens (sel_where s)
     ++ [sel_semicolon s])%list.

Definition select_list_ok (l : select_list) : Prop :=
  match l with
  | AllColumns star => tok_kind star = "*"
  | NamedColumns first more =>
      tok_kind first = "ID" /\
      Forall (fun p : token * token => tok_kind p.1 = "," /\ tok_kind p.2 = "ID") more
  end.

Definition where_ok (w : option where_clause) : Prop :=
  match w with
  | None => True
  | Some w =>
      tok_kind (wh_where w) = "WHERE" /\ comparison_ok (wh_first w) /\
      Forall link_ok (wh_links w)
  end.

(** Every token of the statement has the terminal that its place asks
    for. *)
Definition select_ok (s : select_statement) : Prop :=
  tok_kind (sel_select s) = "SELECT" /\ select_list_ok (sel_list s) /\
  tok_kind (sel_from s) = "FROM" /\ tok_kind (sel_table s) = "ID" /\
  where_ok (sel_where s) /\ tok_kind (sel_semicolon s) = ";".

Definition columns_node (l : select_list) : ASTNode :=
  match l with
  | AllColumns _ => AST.Columns true []
  | NamedColumns first more =>
      AST.Columns false
        (tok_value first :: ((fun p : token * token => tok_value p.2) <$> more))
  end.

Definition where_node (w : option where_clause) : option ASTNode :=
  (fun w => right_leaning (wh_first w) (wh_links w)) <$> w.

(** The tree of the statement: the column names in the order written, the
    table name, and the right-leaning tree of the condition. *)
Definition select_tree (s : select_statement) : ASTNode :=
  AST.Program
    (AST.Select (columns_node (sel_list s)) (AST.Table (tok_value (sel_table s)))
       (where_node (sel_where s))).

(** The statement of ["SELECT a, b FROM t WHERE a = 1 AND b <> 2;"], as
    mapped tokens. *)
Definition select_where_statement : select_statement :=
  mkSelect ("SELECT", "SELECT", 1, 0)%Z
    (NamedColumns ("ID", "a", 1, 7)%Z [((",", ",", 1, 8)%Z, ("ID", "b", 1, 10)%Z)])
    ("FROM", "FROM", 1, 12)%Z ("ID", "t", 1, 17)%Z
    (Some (mkWhere ("WHERE", "WHERE", 1, 19)%Z where_demo_first where_demo_links))
    (";", ";", 1, 41)%Z.

(** ** The language of the grammar *)

(** [derives self symbols w]: the sequence of grammar symbols derives the
    terminal word [w], each non-terminal through one of its productions in
    [self.grammar]. *)
Inductive derives (self : SyntaxAnalyzer) : list string -> list string -> Prop :=
  | derives_nil : derives self [] []
  | derives_terminal a symbols w :
      a ∈ terminals self -> derives self symbols w ->
      derives self (a :: symbols) (a :: w)
  | derives_production nt productions production symbols w1 w2 :
      (nt, productions) ∈ grammar self -> production ∈ productions ->
      derives self production w1 -> derives self symbols w2 ->
      derives self (nt :: symbols) (w1 ++ w2).

(** Every production in the table is a production of its non-terminal and
    does not contain the bottom marker ['$']. *)
Definition table_in_grammar (self : SyntaxAnalyzer) : Prop :=
  forall nt t p,
    lookup_cell self nt t = Some (Some p) ->
    (exists productions, (nt, productions) ∈ grammar self /\ p ∈ productions) /\
    "$" ∉ p.

(** The same test on one store of the filling loop, for the SQL grammar. *)
Definition entry_in_grammar (w : cell_write) : bool :=
  existsb (fun item : string * list (list string) =>
             String.eqb item.1 w.1.1 && bool_decide (w.2 ∈ item.2)) sql_grammar
  && bool_decide ("$" ∉ w.2).

(** The test that a store of the filling loop is in the finished table. *)
Definition entry_in_table (self : SyntaxAnalyzer) (w : cell_write) : bool :=
  bool_decide (lookup_cell self w.1.1 w.1.2 = Some (Some w.2)).

(** ** The helper script [src/syntaxAnalysis.py]: [quads] and
    [split_statements]

    A token is there a dict with the keys ['type'], ['value'], ['line'] and
    ['column']; its values are strings and integers. *)

Module Helper.

Inductive pyval : Type :=
  | PStr (s : string)
  | PInt (z : Z).

#[global] Instance pyval_eq_dec : EqDecision pyval.
Proof. solve_decision. Defined.

Abbreviation dict_token := (gmap string pyval).

(** [{'type': t[0], 'value': t[1], 'line': t[2], 'column': t[3]}] *)
Definition as_dict (t : token) : dict_token :=
  let '(ty, value, line, column) := t in
  <["column" := PInt column]>
    (<["line" := PInt line]> (<["value" := PStr value]> (<["type" := PStr ty]> ∅))).


(** The first loop of [split_statements]: a tuple becomes a dict, a dict is
    kept as it is. *)
Definition unify (t : token + dict_token) : dict_token :=
  match t with
  | inl tuple => as_dict tuple
  | inr d => d
  end.

(** [tok['type'] == 'RANGE' and tok['value'] == ';'] *)
Definition closes_statement (tok : dict_token) : result bool :=
  let* ty := getitem tok "type" in
  if decide (ty = PStr "RANGE") then
    let* value := getitem tok "value" in
    Ok (bool_decide (value = PStr ";"))
  else Ok false.

(** The body of the second loop; the state is [(stmts, cur)]. *)
Definition split_step (st : list (list dict_token) * list dict_token)
    (tok : dict_token) : result (list (list dict_token) * list dict_token) :=
  let cur := (st.2 ++ [tok])%list in
  let* closing := closes_statement tok in
  if closing then Ok ((st.1 ++ [cur])%list, []) else Ok (st.1, cur).

Definition split_statements (tokens : list (token + dict_token))
  : result (list (list dict_token)) :=
  let unified := unify <$> tokens in
  let* (stmts, cur) := for_each split_step unified ([], []) in
  match cur with
  | [] => Ok stmts
  | _ :: _ => Ok (stmts ++ [cur])%list
  end.

(** The token is the semicolon that ends a statement. *)
Definition is_semicolon (tok : dict_token) : Prop :=
  tok !! "type" = Some (PStr "RANGE") /\ tok !! "value" = Some (PStr ";").

(** A statement of the result: tokens without a semicolon, then one last
    token. *)
Definition one_statement (s : list dict_token) (closed : bool) : Prop :=
  exists body last_,
    s = (body ++ [last_])%list /\ Forall (fun tok => ~ is_semicolon tok) body /\
    (if closed then is_semicolon last_ else ~ is_semicolon last_).

End Helper.

(** ** Vocabulary of the trace properties *)

(** [s] without its prefix [p], when it starts with [p]. *)
Fixpoint strip_prefix (p s : string) : option string :=
  match p with
  | EmptyString => Some s
  | String c p' =>
      match s with
      | String c' s' => if Ascii.eqb c c' then strip_prefix p' s' else None
      | EmptyString => None
      end
  end.

(** The terminal of a match record ["匹配 X"]. *)
Definition matched_terminal (r : TraceRecord) : option string :=
  strip_prefix "匹配 " (tr_expression r).

(** The terminals matched along a trace, in order. *)
Definition matched (trace : list TraceRecord) : list string :=
  omap matched_terminal trace.

(** ** Vocabulary of the lexer's classification *)

(** The texts an [OP] token can have. *)
Definition op_texts : list string :=
  (Lexer.two_char_ops ++ ["+"; "-"; "*"; "/"; "%"; "<"; ">"; "!"; "="; "."])%list.

(** The texts a [RANGE] token can have. *)
Definition range_texts : list string := [","; ";"; "("; ")"].

(** What the type of a token says about its text. *)
Definition classified (t : token) : Prop :=
  (tok_kind t = "KEYWORD" -> upper (tok_value t) ∈ Lexer.sql_keywords) /\
  (tok_kind t = "ID" -> upper (tok_value t) ∉ Lexer.sql_keywords) /\
  (tok_kind t = "RANGE" -> tok_value t ∈ range_texts) /\
  (tok_kind t = "OP" -> tok_value t ∈ op_texts).

(** ** Vocabulary of the two entry points that take SQL text *)



(** * Theorems *)

(** ** Fuel *)

Lemma first_while_more fuel k self r :
  first_while fuel self = Ok r -> first_while (fuel + k) self = Ok r.
Proof.
  revert self. induction fuel as [|fuel IH]; intros self; simpl; [discriminate|].
  destruct (first_sweep self) as [[self' changed]| |]; simpl; try discriminate.
  destruct changed; auto.
Qed.

Lemma follow_while_more fuel k self r :
  follow_while fuel self = Ok r -> follow_while (fuel + k) self = Ok r.
Proof.
  revert self. induction fuel as [|fuel IH]; intros self; simpl; [discriminate|].
  destruct (follow_sweep self) as [[self' changed]| |]; simpl; try discriminate.
  destruct changed; auto.
Qed.

Lemma bind_Ok {A B} (m : result A) (k : A -> result B) b :
  bind m k = Ok b <-> exists a, m = Ok a /\ k a = Ok b.
Proof.
  destruct m; simpl; split; try (intros [? [? ?]]); try discriminate; eauto.
  congruence.
Qed.

Lemma initialise_more fuel k self r :
  initialise fuel self = Ok r -> initialise (fuel + k) self = Ok r.
Proof.
  unfold initialise, _compute_first_sets, _compute_follow_sets.
  intros H. apply bind_Ok in H as (s1 & H1 & H).
  apply bind_Ok in H as (s2 & H2 & H).
  apply bind_Ok in H2 as (s0 & H0 & H2).
  rewrite (first_while_more _ k _ _ H1). simpl.
  rewrite H0. simpl. rewrite (follow_while_more _ k _ _ H2). simpl. exact H.
Qed.

Lemma init_printed_nothing : (let* r := __init__ 3 in Ok r.2) = Ok [].
Proof. vm_compute. reflexivity. Qed.

Lemma init_sql_analyzer k : __init__ (3 + k) = Ok (sql_analyzer, []).
Proof.
  apply initialise_more. fold (__init__ 3).
  pose proof init_printed_nothing as H. unfold sql_analyzer.
  destruct (__init__ 3) as [[self printed]| |]; simpl in H; try discriminate.
  congruence.
Qed.

(** ** The lexer *)

Section LexerFacts.

Import Lexer.






Lemma consume_prog consumed rem cur : prog (consume consumed rem cur) = rem.
Proof. reflexivity. Qed.




Lemma tokenize_select_where :
  tokenize "SELECT a, b FROM t WHERE a = 1 AND b <> 2;" = Ok tokens_select_where.
Proof. vm_compute. reflexivity. Qed.

Lemma tokenize_select_from_t : tokenize "SELECT FROM t;" = Ok tokens_select_from_t.
Proof. vm_compute. reflexivity. Qed.

Lemma tokenize_only_comment : tokenize "-- note" = Ok tokens_only_comment.
Proof. vm_compute. reflexivity. Qed.

Lemma tokenize_create_table :
  tokenize "CREATE TABLE t (id INT);" = Ok tokens_create_table.
Proof. vm_compute. reflexivity. Qed.

Lemma tokenize_delete_from_t : tokenize "DELETE FROM t;" = Ok tokens_delete_from_t.
Proof. vm_compute. reflexivity. Qed.

End LexerFacts.

(** ** Table construction as a replay of its stores *)

Lemma for_each_app {A S} (body : S -> A -> result S) xs ys s :
  for_each body (xs ++ ys) s = (let* s' := for_each body xs s in for_each body ys s').
Proof.
  revert s. induction xs as [|x xs IH]; intros s; simpl; [reflexivity|].
  destruct (body s x); simpl; auto.
Qed.

Lemma for_each_fmap {A B S} (f : A -> B) (body : S -> B -> result S) xs s :
  for_each body (f <$> xs) s = for_each (fun s' x => body s' (f x)) xs s.
Proof.
  revert s. induction xs as [|x xs IH]; intros s; simpl; [reflexivity|].
  destruct (body s (f x)); simpl; auto.
Qed.

Lemma same_sets_refl s : same_sets s s.
Proof. repeat split. Qed.

Lemma same_sets_trans s1 s2 s3 : same_sets s1 s2 -> same_sets s2 s3 -> same_sets s1 s3.
Proof. unfold same_sets. intuition congruence. Qed.

Lemma same_sets_sym s1 s2 : same_sets s1 s2 -> same_sets s2 s1.
Proof. unfold same_sets. intuition congruence. Qed.

Lemma first_of_sequence_loop_same s s' len i syms acc :
  same_sets s s' ->
  first_of_sequence_loop s len i syms acc = first_of_sequence_loop s' len i syms acc.
Proof.
  intros (_ & Ht & Hn & Hf & _). revert i acc.
  induction syms as [|x syms IH]; intros i acc; simpl; [reflexivity|].
  rewrite Ht, Hn, Hf.
  destruct (decide (x ∈ terminals s')); auto.
  destruct (decide (x ∈ non_terminals s')); auto.
  destruct (getitem (first_sets s') x) as [fs| |]; simpl; auto.
  destruct (decide (eps ∉ fs)); auto.
Qed.

Lemma first_of_sequence_same s s' sequence :
  same_sets s s' -> _first_of_sequence s sequence = _first_of_sequence s' sequence.
Proof.
  intros H. destruct sequence as [|x l]; [reflexivity|].
  apply (first_of_sequence_loop_same s s' (length (x :: l)) 0 (x :: l) ∅ H).
Qed.

Lemma production_writes_same s s' nt production :
  same_sets s s' -> production_writes s nt production = production_writes s' nt production.
Proof.
  intros H. unfold production_writes.
  rewrite (first_of_sequence_same s s' _ H).
  destruct H as (_ & _ & _ & _ & ->). reflexivity.
Qed.

Lemma assign_cell_same nt production st terminal st' :
  assign_cell nt production st terminal = Ok st' -> same_sets st.1 st'.1.
Proof.
  unfold assign_cell. intros H.
  apply bind_Ok in H as (row & _ & H). apply bind_Ok in H as (cell & _ & H).
  injection H as <-. repeat split.
Qed.

Lemma apply_writes_same ws st st' :
  apply_writes ws st = Ok st' -> same_sets st.1 st'.1.
Proof.
  revert st. induction ws as [|w ws IH]; intros st; unfold apply_writes; simpl.
  - intros [= <-]. apply same_sets_refl.
  - intros H. apply bind_Ok in H as (st1 & H1 & H).
    eapply same_sets_trans; [eapply assign_cell_same; eauto|]. apply IH, H.
Qed.

Lemma apply_writes_app ws1 ws2 st :
  apply_writes (ws1 ++ ws2) st = (let* st1 := apply_writes ws1 st in apply_writes ws2 st1).
Proof. apply for_each_app. Qed.

Lemma fill_production_writes nt st production st' :
  fill_production nt st production = Ok st' ->
  exists ws, production_writes st.1 nt production = Ok ws /\ apply_writes ws st = Ok st'.
Proof.
  unfold fill_production, production_writes. intros H.
  apply bind_Ok in H as (fop & -> & H). simpl.
  apply bind_Ok in H as (st1 & H1 & H).
  assert (Hw1 : apply_writes ((λ terminal, (nt, terminal, production)) <$>
                 elements (fop ∖ {[eps]})) st = Ok st1).
  { unfold apply_writes. rewrite for_each_fmap. exact H1. }
  case_decide.
  - apply bind_Ok in H as (fnt & Hf & H).
    pose proof (apply_writes_same _ _ _ Hw1) as (_ & _ & _ & _ & Hfo).
    rewrite Hfo, Hf. simpl. eexists; split; [reflexivity|].
    rewrite apply_writes_app, Hw1. simpl.
    unfold apply_writes. rewrite for_each_fmap. exact H.
  - injection H as <-. eexists; split; [reflexivity|]. exact Hw1.
Qed.

Lemma fill_productions_writes self nt productions st st' acc :
  same_sets self st.1 ->
  for_each (fill_production nt) productions st = Ok st' ->
  exists ws,
    for_each (fun acc' production =>
                let* ws := production_writes self nt production in
                Ok (acc' ++ ws)%list) productions acc = Ok (acc ++ ws)%list /\
    apply_writes ws st = Ok st'.
Proof.
  revert st acc. induction productions as [|p ps IH]; intros st acc Hs; simpl.
  - intros [= <-]. exists []. rewrite app_nil_r. auto.
  - intros H. apply bind_Ok in H as (st1 & H1 & H).
    apply fill_production_writes in H1 as (ws1 & Hp & Ha).
    rewrite (production_writes_same self st.1 _ _ Hs), Hp. simpl.
    assert (Hs1 : same_sets self st1.1).
    { eapply same_sets_trans; [exact Hs|]. eapply apply_writes_same; eauto. }
    destruct (IH st1 (acc ++ ws1)%list Hs1 H) as (ws & Hws & Haw).
    exists (ws1 ++ ws)%list. rewrite app_assoc. split; [exact Hws|].
    rewrite apply_writes_app, Ha. exact Haw.
Qed.

Lemma fill_grammar_writes self (items : list (string * list (list string))) st st' acc :
  same_sets self st.1 ->
  for_each (fun st0 (item : string * list (list string)) =>
              for_each (fill_production item.1) item.2 st0) items st = Ok st' ->
  exists ws,
    for_each (fun acc0 (item : string * list (list string)) =>
                for_each (fun acc' production =>
                            let* ws := production_writes self item.1 production in
                            Ok (acc' ++ ws)%list) item.2 acc0) items acc
      = Ok (acc ++ ws)%list /\
    apply_writes ws st = Ok st'.
Proof.
  revert st acc. induction items as [|[nt ps] items IH]; intros st acc Hs; simpl.
  - intros [= <-]. exists []. rewrite app_nil_r. auto.
  - intros H. apply bind_Ok in H as (st1 & H1 & H).
    destruct (fill_productions_writes self nt ps st st1 acc Hs H1) as (ws1 & Hw1 & Ha1).
    rewrite Hw1. simpl.
    assert (Hs1 : same_sets self st1.1).
    { eapply same_sets_trans; [exact Hs|]. eapply apply_writes_same; eauto. }
    destruct (IH st1 (acc ++ ws1)%list Hs1 H) as (ws & Hws & Haw).
    exists (ws1 ++ ws)%list. rewrite app_assoc. split; [exact Hws|].
    rewrite apply_writes_app, Ha1. exact Haw.
Qed.

Lemma build_is_apply_writes self st' :
  _build_parsing_table self = Ok st' ->
  exists ws, table_writes self = Ok ws /\ apply_writes ws (init_table self, []) = Ok st'.
Proof.
  unfold _build_parsing_table, table_writes. intros H.
  destruct (fill_grammar_writes self (grammar self) (init_table self, []) st' [])
    as (ws & Hw & Ha); [repeat split | exact H |].
  exists ws. split; [exact Hw | exact Ha].
Qed.

Lemma getitem_Ok {V} (d : gmap string V) k v : getitem d k = Ok v <-> d !! k = Some v.
Proof. unfold getitem. destruct (d !! k); split; congruence. Qed.

Lemma assign_cell_lookup nt production st terminal st' :
  assign_cell nt production st terminal = Ok st' ->
  forall nt' t',
    lookup_cell st'.1 nt' t' =
    if decide ((nt, terminal) = (nt', t')) then Some (Some production)
    else lookup_cell st.1 nt' t'.
Proof.
  unfold assign_cell. intros H nt' t'.
  apply bind_Ok in H as (row & Hrow & H). apply bind_Ok in H as (cell & Hcell & H).
  apply getitem_Ok in Hrow, Hcell. injection H as <-. unfold lookup_cell. simpl.
  destruct (decide (nt = nt')) as [<-|Hne].
  - rewrite lookup_insert_eq, Hrow. simpl.
    destruct (decide (terminal = t')) as [<-|Hne'].
    + rewrite lookup_insert_eq. rewrite decide_True; auto.
    + rewrite lookup_insert_ne by auto. rewrite decide_False; [auto|congruence].
  - rewrite lookup_insert_ne by auto. rewrite decide_False; [auto|congruence].
Qed.

Lemma assign_cell_printed nt production st terminal st' :
  assign_cell nt production st terminal = Ok st' ->
  (exists p, lookup_cell st.1 nt terminal = Some (Some p) /\
             st'.2 = (st.2 ++ [conflict_warning nt terminal])%list) \/
  (lookup_cell st.1 nt terminal = Some None /\ st'.2 = st.2).
Proof.
  unfold assign_cell. intros H.
  apply bind_Ok in H as (row & Hrow & H). apply bind_Ok in H as (cell & Hcell & H).
  apply getitem_Ok in Hrow, Hcell. injection H as <-. unfold lookup_cell.
  rewrite Hrow. simpl. rewrite Hcell. destruct cell; [left|right]; eauto.
Qed.

Lemma writes_to_cons w ws nt t :
  writes_to (w :: ws) nt t =
  if decide (write_cell w = (nt, t)) then w.2 :: writes_to ws nt t
  else writes_to ws nt t.
Proof. unfold writes_to. simpl. destruct (decide _); reflexivity. Qed.

Lemma last_write_cons w ws nt t :
  last_write (w :: ws) nt t =
  match last_write ws nt t with
  | Some p => Some p
  | None => if decide (write_cell w = (nt, t)) then Some w.2 else None
  end.
Proof.
  unfold last_write. rewrite writes_to_cons.
  destruct (decide (write_cell w = (nt, t))).
  - apply last_cons.
  - destruct (last (writes_to ws nt t)); reflexivity.
Qed.

Lemma apply_writes_spec ws st st' seen :
  apply_writes ws st = Ok st' ->
  (forall c, c ∈ seen <-> exists p, lookup_cell st.1 c.1 c.2 = Some (Some p)) ->
  (forall nt t,
     lookup_cell st'.1 nt t =
     match last_write ws nt t with
     | Some p => Some (Some p)
     | None => lookup_cell st.1 nt t
     end) /\
  st'.2 = (st.2 ++ conflicts seen ws)%list.
Proof.
  revert st seen. induction ws as [|[[wn wt] wp] ws IH]; intros st seen H Hseen.
  - injection H as <-. simpl. rewrite app_nil_r. auto.
  - unfold apply_writes in H. simpl in H. apply bind_Ok in H as (st1 & H1 & H).
    pose proof (assign_cell_lookup _ _ _ _ _ H1) as Hl.
    assert (Hseen1 : forall c, c ∈ {[(wn, wt)]} ∪ seen <->
                       exists p, lookup_cell st1.1 c.1 c.2 = Some (Some p)).
    { intros [nt t]. rewrite Hl. simpl. rewrite elem_of_union, elem_of_singleton, Hseen.
      simpl. destruct (decide ((wn, wt) = (nt, t))) as [E|E]; split; eauto.
      intros [E'|?]; [congruence|auto]. }
    destruct (IH st1 _ H Hseen1) as [IHl IHp]. split.
    + intros nt t. rewrite IHl, last_write_cons.
      destruct (last_write ws nt t); [reflexivity|]. rewrite Hl.
      unfold write_cell. simpl. destruct (decide _); reflexivity.
    + rewrite IHp. simpl. rewrite app_assoc. f_equal.
      unfold write_cell. simpl.
      destruct (assign_cell_printed _ _ _ _ _ H1) as [(p & Hp & ->)|[Hn ->]].
      * rewrite decide_True; [reflexivity|]. apply Hseen. eauto.
      * rewrite decide_False; [rewrite app_nil_r; reflexivity|].
        intros Hin. apply Hseen in Hin as [p Hp]. simpl in Hp. congruence.
Qed.

Lemma init_table_empty self nt t :
  parsing_table self = ∅ ->
  lookup_cell (init_table self) nt t =
  if decide (nt ∈ non_terminals self) then
    if decide (t ∈ terminals self) then Some None else None
  else None.
Proof.
  intros He. unfold lookup_cell, init_table. simpl. rewrite He, (right_id_L ∅ (∪)).
  rewrite lookup_gset_to_gmap. destruct (decide (nt ∈ non_terminals self)).
  - rewrite option_guard_True by done. simpl. rewrite lookup_gset_to_gmap.
    destruct (decide (t ∈ terminals self));
      [rewrite option_guard_True by done | rewrite option_guard_False by done]; done.
  - rewrite option_guard_False by done. done.
Qed.

Lemma build_table_replay self self' printed :
  parsing_table self = ∅ ->
  _build_parsing_table self = Ok (self', printed) ->
  exists ws,
    table_writes self = Ok ws /\
    (forall nt t p, last_write ws nt t = Some p ->
                    lookup_cell self' nt t = Some (Some p)) /\
    (forall nt t, writes_to ws nt t = [] ->
                  lookup_cell self' nt t = lookup_cell (init_table self) nt t) /\
    printed = conflicts ∅ ws.
Proof.
  intros He Hb. apply build_is_apply_writes in Hb as (ws & Hw & Ha).
  exists ws. split; [exact Hw|].
  destruct (apply_writes_spec ws _ _ ∅ Ha) as [Hl Hp].
  { intros [nt t]. simpl. rewrite init_table_empty by exact He.
    split; [set_solver|]. intros [p Hp]. repeat case_decide; discriminate. }
  simpl in *. repeat split.
  - intros nt t p Hlast. rewrite Hl, Hlast. reflexivity.
  - intros nt t Hnone. rewrite Hl. unfold last_write. rewrite Hnone. reflexivity.
  - exact Hp.
Qed.

(** C1 (as the code has it): when [_build_parsing_table] runs from the empty
    table of [__init__], every cell that was stored into holds, in the
    final table, the production of the LATEST store to it; a store into a
    cell that already holds a production prints one conflict warning and
    then replaces the entry.  The printed warnings are exactly those of the
    stores that hit an occupied cell, in program order. *)
Theorem build_table_latest_wins self self' printed :
  parsing_table self = ∅ ->
  _build_parsing_table self = Ok (self', printed) ->
  exists ws,
    table_writes self = Ok ws /\
    (forall nt t p, last_write ws nt t = Some p ->
                    lookup_cell self' nt t = Some (Some p)) /\
    (forall nt t, writes_to ws nt t = [] ->
                  lookup_cell self' nt t = lookup_cell (init_table self) nt t) /\
    printed = conflicts ∅ ws.
Proof. apply build_table_replay. Qed.

Lemma conflict_analyzer_table : parsing_table conflict_analyzer = ∅.
Proof. vm_compute. reflexivity. Qed.

Lemma conflict_analyzer_built :
  _build_parsing_table conflict_analyzer = Ok (conflict_built.1, conflict_built.2).
Proof.
  unfold conflict_built.
  destruct (_build_parsing_table conflict_analyzer) as [[s' pr]| |] eqn:E;
    [reflexivity | vm_compute in E; discriminate | vm_compute in E; discriminate].
Qed.

Lemma conflict_analyzer_writes :
  table_writes conflict_analyzer
  = Ok [("Prog", "a", ["a"]); ("Prog", "a", ["a"; "b"])].
Proof. vm_compute. reflexivity. Qed.

Lemma conflict_built_cell :
  lookup_cell conflict_built.1 "Prog" "a" = Some (Some ["a"; "b"]).
Proof. vm_compute. reflexivity. Qed.

Lemma conflict_built_printed :
  conflict_built.2 = ["警告：分析表冲突 Prog[a]"].
Proof. vm_compute. reflexivity. Qed.

Lemma build_table_latest_wins_witness :
  parsing_table conflict_analyzer = ∅ /\
  _build_parsing_table conflict_analyzer = Ok (conflict_built.1, conflict_built.2) /\
  exists ws,
    table_writes conflict_analyzer = Ok ws /\
    (forall nt t p, last_write ws nt t = Some p ->
                    lookup_cell conflict_built.1 nt t = Some (Some p)) /\
    (forall nt t, writes_to ws nt t = [] ->
                  lookup_cell conflict_built.1 nt t
                  = lookup_cell (init_table conflict_analyzer) nt t) /\
    conflict_built.2 = conflicts ∅ ws.
Proof.
  split; [exact conflict_analyzer_table|].
  split; [exact conflict_analyzer_built|].
  apply (build_table_latest_wins conflict_analyzer conflict_built.1 conflict_built.2).
  - exact conflict_analyzer_table.
  - exact conflict_analyzer_built.
Defined.

(** C1 (as stated) fails: for the grammar [Prog -> a | a b] the cell
    [(Prog, a)] is stored into twice, first with [a] and then with [a b];
    the final table keeps [a b], the later one. *)
Lemma earliest_wins_fails : ~ earliest_wins conflict_analyzer.
Proof.
  intros H.
  assert (Hcell : lookup_cell conflict_built.1 "Prog" "a" = Some (Some ["a"])).
  { apply (H conflict_built.1 conflict_built.2 _ "Prog" "a" ["a"]
             conflict_analyzer_built conflict_analyzer_writes).
    - vm_compute. lia.
    - reflexivity. }
  rewrite conflict_built_cell in Hcell. discriminate.
Qed.

(** ** The SQL grammar: FIRST, FOLLOW and the table *)

Lemma table_writes_same s s' : same_sets s s' -> table_writes s = table_writes s'.
Proof.
  intros H. unfold table_writes. destruct H as (Hg & H').
  assert (Hs : same_sets s s') by (split; assumption). rewrite Hg. clear Hg.
  generalize (@nil cell_write). induction (grammar s') as [|[nt ps] items IH];
    intros acc; simpl; [reflexivity|].
  assert (Hin : forall acc0,
            for_each (fun acc' production =>
                        let* ws := production_writes s nt production in
                        Ok (acc' ++ ws)%list) ps acc0
            = for_each (fun acc' production =>
                          let* ws := production_writes s' nt production in
                          Ok (acc' ++ ws)%list) ps acc0).
  { induction ps as [|p ps IHp]; intros acc0; simpl; [reflexivity|].
    rewrite (production_writes_same s s' nt p Hs).
    destruct (production_writes s' nt p); simpl; auto. }
  rewrite Hin. destruct (for_each _ ps acc); simpl; auto.
Qed.


Lemma sql_writes_distinct :
  (let* ws := table_writes sql_analyzer in
   Ok (bool_decide (NoDup (write_cell <$> ws)))) = Ok true.
Proof. vm_compute. reflexivity. Qed.

Lemma conflicts_NoDup seen ws :
  NoDup (write_cell <$> ws) ->
  (forall c, c ∈ seen -> c ∉ write_cell <$> ws) ->
  conflicts seen ws = [].
Proof.
  revert seen. induction ws as [|w ws IH]; intros seen H Hs; [reflexivity|].
  simpl. rewrite fmap_cons in H. apply NoDup_cons in H as [Hw Hnd].
  rewrite decide_False.
  - simpl. apply IH; [exact Hnd|]. intros c Hc.
    apply elem_of_union in Hc as [Hc|Hc].
    + apply elem_of_singleton in Hc. subst. exact Hw.
    + specialize (Hs c Hc). rewrite fmap_cons in Hs.
      intros Hin. apply Hs. apply elem_of_cons. auto.
  - intros Hin. apply (Hs _ Hin). rewrite fmap_cons. apply elem_of_cons. auto.
Qed.

Lemma distinct_writes_no_conflict (r : result (list cell_write)) :
  (let* ws := r in Ok (bool_decide (NoDup (write_cell <$> ws)))) = Ok true ->
  exists ws, r = Ok ws /\ NoDup (write_cell <$> ws) /\ conflicts ∅ ws = [].
Proof.
  destruct r as [ws| |]; simpl; try discriminate.
  intros [= H]. apply bool_decide_eq_true in H.
  exists ws. split; [reflexivity|]. split; [exact H|].
  apply conflicts_NoDup; [exact H|]. intros c Hc. apply not_elem_of_empty in Hc. destruct Hc.
Qed.

(** C6: constructing the analyzer for the SQL grammar succeeds (three sweeps
    of each fixpoint loop are enough, more change nothing) and prints no
    conflict warning; the stores performed by the filling loop go to
    pairwise distinct cells, so no cell is assigned twice. *)
Theorem sql_table_has_no_conflict k :
  __init__ (3 + k) = Ok (sql_analyzer, []) /\
  exists ws, table_writes sql_analyzer = Ok ws /\ NoDup (write_cell <$> ws) /\
             conflicts ∅ ws = [].
Proof.
  split; [apply init_sql_analyzer|].
  apply distinct_writes_no_conflict. exact sql_writes_distinct.
Qed.

Lemma sql_first_Expr :
  first_sets sql_analyzer !! "Expr" = Some {[ "ID"; "NUM"; "STRING" ]}.
Proof. vm_compute. reflexivity. Qed.

Lemma sql_follow_Prog :
  (match follow_sets sql_analyzer !! "Prog" with Some f => bool_decide ("$" ∈ f) | None => false end) = true.
Proof. vm_compute. reflexivity. Qed.

(** C7: for the SQL grammar the fixpoint computations terminate, FIRST(Expr)
    is exactly {ID, NUM, STRING} and FOLLOW(Prog) contains the end marker
    ['$']. *)
Theorem sql_first_Expr_follow_Prog k :
  __init__ (3 + k) = Ok (sql_analyzer, []) /\
  first_sets sql_analyzer !! "Expr" = Some {[ "ID"; "NUM"; "STRING" ]} /\
  exists follow_Prog,
    follow_sets sql_analyzer !! "Prog" = Some follow_Prog /\ "$" ∈ follow_Prog.
Proof.
  split; [apply init_sql_analyzer|]. split; [exact sql_first_Expr|].
  pose proof sql_follow_Prog as H. revert H.
  generalize (follow_sets sql_analyzer !! "Prog"). intros [f|] H; [|discriminate].
  exists f. split; [reflexivity|]. apply bool_decide_eq_true in H. exact H.
Qed.

(** ** The engine, step by step *)

Lemma lookup_cell_Some self nt t c :
  lookup_cell self nt t = Some c <->
  exists row, parsing_table self !! nt = Some row /\ row !! t = Some c.
Proof.
  unfold lookup_cell. destruct (parsing_table self !! nt) as [row|]; simpl.
  - split; [eauto|]. intros (row' & [= <-] & H). exact H.
  - split; [discriminate|]. intros (row' & H & _). discriminate.
Qed.

(** The expansion branch of the loop body. *)
Lemma engine_iteration_expand self st top production :
  last (stack st) = Some top ->
  ~ (top = "$" /\ current_type st = "EOF") ->
  top ∉ terminals self ->
  top ∈ non_terminals self ->
  lookup_cell self top (current_type st) = Some (Some production) ->
  engine_iteration self st =
  Next (emit st (removelast (stack st) ++ rev production) (input_tokens st)
          (match production with
           | [] => "用 " ++ top ++ " -> ε"
           | _ => "用 " ++ top ++ " -> " ++ join_space production
           end)).
Proof.
  intros Hlast Hacc Hterm Hnt Hcell.
  apply lookup_cell_Some in Hcell as (row & Hrow & Hc).
  unfold engine_iteration. rewrite Hlast.
  rewrite decide_False by exact Hacc.
  rewrite decide_False by exact Hterm.
  rewrite decide_True by exact Hnt.
  rewrite Hrow, Hc. destruct production; [|reflexivity].
  simpl. rewrite app_nil_r. reflexivity.
Qed.

Lemma engine_iteration_match self st top tok rest :
  last (stack st) = Some top ->
  input_tokens st = tok :: rest ->
  tok_kind tok = top ->
  top ∈ terminals self ->
  ~ (top = "$" /\ top = "EOF") ->
  engine_iteration self st =
  Next (emit st (removelast (stack st)) rest ("匹配 " ++ top)).
Proof.
  intros Hlast Hin Hk Hterm Hacc.
  unfold engine_iteration, current_type, current_token. rewrite Hlast, Hin, Hk.
  rewrite decide_False by exact Hacc.
  rewrite decide_True by exact Hterm.
  rewrite decide_True by reflexivity. reflexivity.
Qed.

Lemma engine_iteration_accept self st :
  last (stack st) = Some "$" -> current_type st = "EOF" ->
  engine_iteration self st = Break (emit st (stack st) (input_tokens st) "接受").
Proof.
  intros Hlast Hcur. unfold engine_iteration. rewrite Hlast, Hcur.
  rewrite decide_True by (split; reflexivity). reflexivity.
Qed.

Lemma sql_non_terminals : non_terminals sql_analyzer = list_to_set (sql_grammar.*1).
Proof. reflexivity. Qed.

Lemma sql_terminals_eq : terminals sql_analyzer = sql_terminals.
Proof. reflexivity. Qed.

Lemma sql_non_terminal_cases top :
  top ∈ non_terminals sql_analyzer -> top ∈ sql_grammar.*1.
Proof. rewrite sql_non_terminals. apply elem_of_list_to_set. Qed.

Lemma sql_non_terminal_not_terminal top :
  top ∈ non_terminals sql_analyzer -> (top ∉ terminals sql_analyzer) ∧ top ≠ "$".
Proof.
  intros H. apply sql_non_terminal_cases in H. rewrite sql_terminals_eq.
  simpl in H.
  repeat (apply elem_of_cons in H as [-> | H]);
    try (split; [apply (bool_decide_unpack _); vm_compute; exact I | discriminate]).
  inversion H.
Qed.

(** C4: at every engine step of the SQL analyzer whose stack top is a
    non-terminal with a table entry for the current terminal, the iteration
    goes on with the non-terminal popped and the symbols of the chosen
    production pushed in reverse order, so that a non-empty production leaves
    its leftmost symbol on top and an empty one pushes nothing; the input is
    not advanced. *)
Theorem sql_expand_step st top production :
  last (stack st) = Some top ->
  top ∈ non_terminals sql_analyzer ->
  lookup_cell sql_analyzer top (current_type st) = Some (Some production) ->
  exists st',
    engine_iteration sql_analyzer st = Next st' /\
    stack st' = (removelast (stack st) ++ rev production)%list /\
    (production = [] -> stack st' = removelast (stack st)) /\
    (forall x xs, production = x :: xs -> last (stack st') = Some x) /\
    input_tokens st' = input_tokens st.
Proof.
  intros Hlast Hnt Hcell.
  destruct (sql_non_terminal_not_terminal top Hnt) as [Hterm Hne].
  eexists. split.
  - apply engine_iteration_expand; eauto. intros [? _]. contradiction.
  - simpl. repeat split.
    + intros ->. simpl. apply app_nil_r.
    + intros x xs ->. simpl. rewrite app_assoc. apply last_snoc.
Qed.


Lemma sql_expand_step_witness :
  last (stack st_expand_demo) = Some "Query" /\
  "Query" ∈ non_terminals sql_analyzer /\
  lookup_cell sql_analyzer "Query" (current_type st_expand_demo)
    = Some (Some ["DELETE"; "FROM"; "Tbl"]) /\
  exists st',
    engine_iteration sql_analyzer st_expand_demo = Next st' /\
    stack st' = (removelast (stack st_expand_demo) ++ rev ["DELETE"; "FROM"; "Tbl"])%list /\
    (["DELETE"; "FROM"; "Tbl"] = [] -> stack st' = removelast (stack st_expand_demo)) /\
    (forall x xs, ["DELETE"; "FROM"; "Tbl"] = x :: xs -> last (stack st') = Some x) /\
    input_tokens st' = input_tokens st_expand_demo.
Proof.
  assert (H1 : last (stack st_expand_demo) = Some "Query") by reflexivity.
  assert (H2 : "Query" ∈ non_terminals sql_analyzer)
    by (apply (bool_decide_unpack _); vm_compute; exact I).
  assert (H3 : lookup_cell sql_analyzer "Query" (current_type st_expand_demo)
               = Some (Some ["DELETE"; "FROM"; "Tbl"])) by (vm_compute; reflexivity).
  split; [exact H1|]. split; [exact H2|]. split; [exact H3|].
  exact (sql_expand_step st_expand_demo "Query" ["DELETE"; "FROM"; "Tbl"] H1 H2 H3).
Defined.

(** C5 (as the code has it): when the stack top is ['$'] and the current
    terminal is ['EOF'], the iteration appends the accept record and breaks
    out of the loop, so the method returns the trace ending in that record;
    the stack is left as it is, the marker is NOT popped. *)
Theorem accept_step self st fuel :
  last (stack st) = Some "$" -> current_type st = "EOF" ->
  let st' := emit st (stack st) (input_tokens st) "接受" in
  engine_iteration self st = Break st' /\
  engine_loop (S fuel) self st = Ok (Accepted st') /\
  stack st' = stack st /\
  returned_value (Accepted st') =
    (output st ++ [mkRecord (S (step st)) (stack st) (input_str st) "接受"])%list.
Proof.
  intros Hlast Hcur st'. pose proof (engine_iteration_accept self st Hlast Hcur) as H.
  split; [exact H|]. split; [|split; reflexivity].
  simpl. destruct (stack st) as [|x l] eqn:E; [discriminate|]. rewrite H. reflexivity.
Qed.


Lemma accept_step_witness :
  last (stack st_accept_demo) = Some "$" /\ current_type st_accept_demo = "EOF" /\
  let st' := emit st_accept_demo (stack st_accept_demo) (input_tokens st_accept_demo) "接受" in
  engine_iteration sql_analyzer st_accept_demo = Break st' /\
  engine_loop 1 sql_analyzer st_accept_demo = Ok (Accepted st') /\
  stack st' = stack st_accept_demo /\
  returned_value (Accepted st') =
    (output st_accept_demo
       ++ [mkRecord (S (step st_accept_demo)) (stack st_accept_demo) (input_str st_accept_demo) "接受"])%list.
Proof.
  split; [reflexivity|]. split; [reflexivity|].
  apply (accept_step sql_analyzer st_accept_demo 0); reflexivity.
Defined.

(** C5 (as stated) fails: on stack [['$']] with input [EOF] the engine
    accepts with the stack still [['$']]. *)
Lemma accept_does_not_pop : ~ accept_pops sql_analyzer st_accept_demo.
Proof.
  intros H. destruct H as (st' & Hit & Hstack & _); [reflexivity | reflexivity |].
  rewrite (engine_iteration_accept sql_analyzer st_accept_demo) in Hit by reflexivity.
  injection Hit as <-. discriminate Hstack.
Qed.

(** Every way out of the loop body appends exactly one record, numbered
    with the incremented step counter. *)
Lemma engine_iteration_next self st st' :
  engine_iteration self st = Next st' ->
  step st' = S (step st) /\
  exists r, output st' = (output st ++ [r])%list /\ tr_step r = S (step st).
Proof.
  unfold engine_iteration. intros H.
  repeat match type of H with
         | match ?x with _ => _ end = _ => destruct x; try discriminate
         | (let _ := _ in _) = _ => simpl in H
         end;
    injection H as <-; (split; [reflexivity|]); eexists; (split; [reflexivity|]); reflexivity.
Qed.

Lemma engine_iteration_return self st st' ret :
  engine_iteration self st = Return st' ret ->
  step st' = S (step st) /\
  exists r, output st' = (output st ++ [r])%list /\ tr_step r = S (step st) /\
            is_error_message (tr_expression r) /\
            ret = [mkRecord 1 [] [] (tr_expression r)].
Proof.
  unfold engine_iteration. intros H.
  repeat match type of H with
         | match ?x with _ => _ end = _ => destruct x; try discriminate
         | (let _ := _ in _) = _ => simpl in H
         end;
    injection H as <- <-; (split; [reflexivity|]); eexists; (split; [reflexivity|]);
    (split; [reflexivity|]); (split; [|reflexivity]); eexists; reflexivity.
Qed.

Lemma engine_loop_returned fuel self st st' ret :
  engine_loop fuel self st = Ok (Returned st' ret) ->
  length (output st) = step st ->
  exists r, last (output st') = Some r /\ tr_step r = step st' /\
            length (output st') = step st' /\
            is_error_message (tr_expression r) /\
            ret = [mkRecord 1 [] [] (tr_expression r)].
Proof.
  revert st. induction fuel as [|fuel IH]; intros st H Hlen; [discriminate|].
  simpl in H. destruct (stack st) as [|x l] eqn:E; [discriminate|].
  destruct (engine_iteration self st) as [st1|st1|st1 ret1|e] eqn:Hit; try discriminate.
  - apply engine_iteration_next in Hit as (Hs & r & Ho & Hr).
    apply (IH st1 H). rewrite Ho, length_app, Hs, Hlen. simpl. lia.
  - injection H as <- <-.
    apply engine_iteration_return in Hit as (Hs & r & Ho & Hr & He & Hret).
    exists r. rewrite Ho, last_snoc, length_app, Hs, Hlen. simpl.
    repeat split; auto. lia.
Qed.

(** C2 (as the code has it): when the engine fails on a non-empty token
    list, the caller receives exactly one record, [[1, "[]", "[]", msg]]:
    its message is the diagnostic of the error record that the engine
    appended last to its own trace, at the step where the error occurred,
    but its step field is the constant 1 and the trace itself is dropped. *)
Theorem failure_returns_single_record fuel tokens self st ret :
  tokens <> [] ->
  engine_loop fuel self (engine_start self tokens) = Ok (Returned st ret) ->
  exists r,
    (analyze_tokens fuel tokens self).2 = Ok [mkRecord 1 [] [] (tr_expression r)] /\
    is_error_message (tr_expression r) /\
    last (output st) = Some r /\
    tr_step r = step st /\
    length (output st) = step st.
Proof.
  intros Hne H.
  destruct (engine_loop_returned _ _ _ _ _ H) as (r & Hl & Hs & Hlen & He & ->);
    [reflexivity|].
  exists r. repeat split; auto.
  destruct tokens; [contradiction|]. simpl. rewrite H. reflexivity.
Qed.

Lemma select_from_t_fails :
  engine_loop 10 sql_analyzer (engine_start sql_analyzer tokens_select_from_t)
  = Ok (Returned select_from_t_failure
          [mkRecord 1 [] [] "错误：SelList 在 FROM 处无产生式"]).
Proof. vm_compute. reflexivity. Qed.

Lemma failure_returns_single_record_witness :
  tokens_select_from_t <> [] /\
  engine_loop 10 sql_analyzer (engine_start sql_analyzer tokens_select_from_t)
  = Ok (Returned select_from_t_failure
          [mkRecord 1 [] [] "错误：SelList 在 FROM 处无产生式"]) /\
  exists r,
    (analyze_tokens 10 tokens_select_from_t sql_analyzer).2
      = Ok [mkRecord 1 [] [] (tr_expression r)] /\
    is_error_message (tr_expression r) /\
    last (output select_from_t_failure) = Some r /\
    tr_step r = step select_from_t_failure /\
    length (output select_from_t_failure) = step select_from_t_failure.
Proof.
  split; [discriminate|]. split; [exact select_from_t_fails|].
  apply (failure_returns_single_record 10 tokens_select_from_t sql_analyzer
           select_from_t_failure
           [mkRecord 1 [] [] "错误：SelList 在 FROM 处无产生式"]);
    [discriminate | exact select_from_t_fails].
Defined.

(** C2 (as stated) fails: on ["SELECT FROM t;"] the error occurs at step 4
    of a four-record trace, and the caller gets one record numbered 1. *)
Lemma trace_not_returned_on_failure :
  ~ returns_trace_on_failure 10 tokens_select_from_t sql_analyzer.
Proof.
  intros H. destruct (H _ _ select_from_t_fails) as [Hret _].
  vm_compute in Hret. discriminate Hret.
Qed.

(** ** Frame: what parsing leaves untouched *)

Lemma preserves_pret {A} (a : A) : preserves_core (pret a).
Proof. intros self. reflexivity. Qed.

Lemma preserves_praise {A} e : preserves_core (@praise A e).
Proof. intros self. reflexivity. Qed.

Lemma preserves_pout {A} : preserves_core (@pout A).
Proof. intros self. reflexivity. Qed.

Lemma preserves_pbind {A B} (m : parser A) (k : A -> parser B) :
  preserves_core m -> (forall a, preserves_core (k a)) -> preserves_core (pbind m k).
Proof.
  intros Hm Hk self. unfold pbind. specialize (Hm self).
  destruct (m self) as [self' [a|e|]]; simpl in *; [|exact Hm|exact Hm].
  rewrite (Hk a self'). exact Hm.
Qed.

Lemma preserves_current : preserves_core _current.
Proof. intros self. unfold _current. destruct (_ !! _); reflexivity. Qed.

Lemma preserves_advance : preserves_core advance.
Proof. intros self. reflexivity. Qed.

Create HintDb frame.
#[local] Hint Resolve preserves_pret preserves_praise preserves_pout
  preserves_current preserves_advance : frame.

Ltac frame_step :=
  first [ apply preserves_pbind; [|intros ?]
        | match goal with
          | |- preserves_core (match ?x with _ => _ end) => destruct x
          | |- preserves_core (if ?x then _ else _) => destruct x
          end
        | solve [auto with frame] ].

Lemma preserves_accept term : preserves_core (_accept term).
Proof. unfold _accept. repeat frame_step. Qed.

Lemma preserves_expect term : preserves_core (_expect term).
Proof. unfold _expect. repeat frame_step. Qed.

#[local] Hint Resolve preserves_accept preserves_expect : frame.

Lemma preserves_parse_SelListRest fuel : preserves_core (_parse_SelListRest fuel).
Proof. induction fuel as [|fuel IH]; simpl; repeat frame_step. Qed.

Lemma preserves_parse_Expr : preserves_core _parse_Expr.
Proof. unfold _parse_Expr. repeat frame_step. Qed.

Lemma preserves_parse_RelOp : preserves_core _parse_RelOp.
Proof.
  unfold _parse_RelOp. induction rel_ops as [|op ops IH]; simpl; repeat frame_step.
Qed.

#[local] Hint Resolve preserves_parse_SelListRest preserves_parse_Expr
  preserves_parse_RelOp : frame.

Lemma preserves_parse_Cond fuel : preserves_core (_parse_Cond fuel).
Proof.
  induction fuel as [|fuel IH]; simpl; repeat frame_step.
Qed.

#[local] Hint Resolve preserves_parse_Cond : frame.

Lemma preserves_parse_Prog fuel : preserves_core (_parse_Prog fuel).
Proof.
  unfold _parse_Prog, _parse_Query, _parse_WhereOpt, _parse_Tbl, _parse_SelList.
  repeat frame_step.
Qed.

Lemma build_ast_preserves_core tokens : preserves_core (build_ast_from_tokens tokens).
Proof.
  intros self. unfold build_ast_from_tokens.
  match goal with |- core (?m ?s).1 = _ =>
    assert (H : preserves_core m) end.
  { pose proof preserves_parse_Prog. repeat frame_step. }
  rewrite H. reflexivity.
Qed.

(** C3: a run of the trace engine returns the analyzer object as it was, and
    a tree build, whether it returns a tree or raises, changes at most the
    cursor attributes [_idx] and [_stream]: grammar, terminals, token
    mapping, non-terminals, FIRST sets, FOLLOW sets and prediction table are
    those of the analyzer before the call. *)
Theorem parsing_leaves_core_unchanged fuel tokens self :
  (analyze_tokens fuel tokens self).1 = self /\
  core (build_ast_from_tokens tokens self).1 = core self.
Proof.
  split; [destruct tokens; reflexivity | apply build_ast_preserves_core].
Qed.

(** ** Dropped tokens *)

Lemma map_tokens_fold self tokens acc :
  foldl (fun (mapped : list token) (t : token) =>
           let '(ttype, tval, ln, col) := t in
           let fn := token_to_terminal self !! ttype in
           let term := match fn with Some f => f tval | None => None end in
           match term with
           | None => mapped
           | Some term' => (mapped ++ [(term', tval, ln, col)])%list
           end) acc tokens
  = (acc ++ omap (convert_token self) tokens)%list.
Proof.
  revert acc. induction tokens as [|[[[ttype tval] ln] col] tokens IH]; intros acc.
  - simpl. rewrite app_nil_r. reflexivity.
  - simpl. rewrite IH. destruct (token_to_terminal self !! ttype) as [f|]; [|reflexivity].
    destruct (f tval); [|reflexivity]. rewrite <- app_assoc. reflexivity.
Qed.

(** Both parsers start from the same mapped stream. *)
Lemma map_tokens_converted self tokens :
  _map_tokens self tokens = converted_tokens self tokens.
Proof. unfold _map_tokens, converted_tokens. rewrite map_tokens_fold. reflexivity. Qed.

Lemma sql_token_to_terminal_eq : token_to_terminal sql_analyzer = sql_token_to_terminal.
Proof. reflexivity. Qed.

Lemma sql_convert_None t :
  convert_token sql_analyzer t = None <-> is_dropped sql_analyzer t.
Proof.
  destruct t as [[[ttype tval] ln] col]. unfold is_dropped, convert_token, tok_kind. simpl.
  rewrite sql_token_to_terminal_eq. unfold sql_token_to_terminal.
  rewrite !list_to_map_cons, list_to_map_nil.
  destruct (decide (ttype = "COMMENT")) as [->|Hc].
  - split; [auto|]. intros _. reflexivity.
  - repeat (rewrite lookup_insert; case_decide;
            [subst; simpl; split; [done | intros [?|?]; done] | ]).
    rewrite lookup_empty. split; auto.
Qed.

Lemma omap_strip self tokens :
  (forall t, convert_token self t = None <-> is_dropped self t) ->
  omap (convert_token self) (strip self tokens) = omap (convert_token self) tokens.
Proof.
  intros Hd. unfold strip. induction tokens as [|t tokens IH]; [reflexivity|].
  rewrite filter_cons. destruct (decide (~ is_dropped self t)) as [Hk|Hk].
  - simpl. destruct (convert_token self t); [f_equal|]; exact IH.
  - apply dec_stable in Hk. apply Hd in Hk. simpl in *. rewrite Hk. exact IH.
Qed.

Lemma strip_nil_omap self tokens :
  (forall t, convert_token self t = None <-> is_dropped self t) ->
  strip self tokens = [] <-> omap (convert_token self) tokens = [].
Proof.
  intros Hd. unfold strip. induction tokens as [|t tokens IH]; [tauto|].
  rewrite filter_cons. simpl. destruct (decide (~ is_dropped self t)) as [Hk|Hk].
  - destruct (convert_token self t) eqn:E; [split; discriminate|].
    apply Hd in E. contradiction.
  - apply dec_stable in Hk. apply Hd in Hk. rewrite Hk. exact IH.
Qed.

(** C10 (as the code has it): for the SQL analyzer, a token is dropped
    exactly when it is a comment or its lexical type has no entry in the
    token mapping; both parsers work on the same mapped stream, which is the
    mapped stream of the stripped token list.  The tree builder therefore
    gives on every token list the outcome it gives on the stripped list.
    The trace engine does too, except when the list is non-empty and
    nothing survives: then it runs on the bare end-of-input marker instead
    of taking the "empty input" exit that the stripped (empty) list takes. *)
Theorem dropped_tokens_are_invisible fuel tokens :
  _map_tokens sql_analyzer tokens
    = (omap (convert_token sql_analyzer) (strip sql_analyzer tokens) ++ [eof_token])%list /\
  converted_tokens sql_analyzer tokens = _map_tokens sql_analyzer tokens /\
  build_ast_from_tokens tokens sql_analyzer
    = build_ast_from_tokens (strip sql_analyzer tokens) sql_analyzer /\
  analyze_tokens fuel tokens sql_analyzer
    = if decide (tokens <> [] /\ strip sql_analyzer tokens = [])
      then (sql_analyzer,
            let* ex := engine_loop fuel sql_analyzer
                         (mkEngine ["$"; "Prog"] [eof_token] 0 []) in
            Ok (returned_value ex))
      else analyze_tokens fuel (strip sql_analyzer tokens) sql_analyzer.
Proof.
  pose proof sql_convert_None as Hd.
  pose proof (omap_strip sql_analyzer tokens Hd) as Ho.
  pose proof (strip_nil_omap sql_analyzer tokens Hd) as Hn.
  assert (Hm : _map_tokens sql_analyzer (strip sql_analyzer tokens)
               = _map_tokens sql_analyzer tokens).
  { rewrite !map_tokens_converted. unfold converted_tokens. rewrite Ho. reflexivity. }
  split; [rewrite map_tokens_converted; unfold converted_tokens; rewrite Ho; reflexivity|].
  split; [symmetry; apply map_tokens_converted|].
  split.
  - unfold build_ast_from_tokens. rewrite Hm. reflexivity.
  - generalize dependent (strip sql_analyzer tokens). intros stripped Ho Hn Hm.
    destruct (decide (tokens <> [] /\ stripped = [])) as [[Hne He]|Hno].
    + destruct tokens as [|t tokens]; [contradiction|].
      unfold analyze_tokens, engine_start, converted_tokens.
      apply Hn in He. rewrite He. reflexivity.
    + destruct tokens as [|t tokens].
      * simpl in Ho. destruct stripped; [reflexivity|].
        exfalso. assert (E : t :: stripped = []) by (apply Hn; reflexivity). discriminate.
      * destruct stripped as [|t' stripped]; [exfalso; apply Hno; split; [discriminate|reflexivity]|].
        unfold analyze_tokens, engine_start, converted_tokens. rewrite Ho. reflexivity.
Qed.

(** C10 (as stated) fails: a token list holding one comment makes the
    engine report "Prog 在 EOF 处无产生式", the stripped (empty) list makes it
    report "输入为空". *)
Lemma only_comment_differs : ~ dropping_is_transparent sql_analyzer.
Proof.
  intros H. destruct (H 1 tokens_only_comment) as [Ha _].
  apply (f_equal snd) in Ha. vm_compute in Ha. discriminate Ha.
Qed.

(** ** The tree builder on WHERE conditions *)

Lemma pending_set_idx self n :
  pending (set_idx (_idx self + n) self) = drop n (pending self).
Proof. unfold pending. simpl. rewrite drop_drop. reflexivity. Qed.

Lemma set_idx_set_idx a b self : set_idx a (set_idx b self) = set_idx a self.
Proof. reflexivity. Qed.

Lemma current_pending self t ts :
  pending self = t :: ts -> _current self = (self, Ok t).
Proof.
  unfold pending, _current. intros H.
  assert (E : _stream self !! _idx self = Some t).
  { rewrite <- (Nat.add_0_r (_idx self)), <- lookup_drop, H. reflexivity. }
  rewrite E. reflexivity.
Qed.

Lemma accept_hit self t ts term :
  pending self = t :: ts -> tok_kind t = term ->
  _accept term self = (set_idx (_idx self + 1) self, Ok (Some t)).
Proof.
  intros H Hk. unfold _accept, pbind. rewrite (current_pending _ _ _ H).
  rewrite decide_True by exact Hk. reflexivity.
Qed.

Lemma accept_miss self t ts term :
  pending self = t :: ts -> tok_kind t <> term ->
  _accept term self = (self, Ok None).
Proof.
  intros H Hk. unfold _accept, pbind. rewrite (current_pending _ _ _ H).
  rewrite decide_False by exact Hk. reflexivity.
Qed.

Lemma expect_hit self t ts term :
  pending self = t :: ts -> tok_kind t = term ->
  _expect term self = (set_idx (_idx self + 1) self, Ok t).
Proof.
  intros H Hk. unfold _expect, pbind. rewrite (current_pending _ _ _ H).
  rewrite decide_False by (intros Hn; apply Hn, Hk). reflexivity.
Qed.

Lemma parse_Expr_hit self t ts :
  pending self = t :: ts -> is_expr_token t ->
  _parse_Expr self = (set_idx (_idx self + 1) self, Ok (expr_node t)).
Proof.
  intros H Hk. unfold _parse_Expr, pbind, expr_node. rewrite (current_pending _ _ _ H).
  unfold is_expr_token in Hk.
  repeat (apply elem_of_cons in Hk as [Hk|Hk]; [rewrite Hk; reflexivity|]).
  inversion Hk.
Qed.

Lemma parse_RelOp_loop_hit self t ts ops :
  pending self = t :: ts -> tok_kind t ∈ ops ->
  parse_RelOp_loop ops self = (set_idx (_idx self + 1) self, Ok (tok_kind t)).
Proof.
  intros H. induction ops as [|op ops IH]; intros Hin; [inversion Hin|].
  simpl. unfold pbind. destruct (decide (tok_kind t = op)) as [E|E].
  - rewrite (accept_hit _ _ _ _ H E). rewrite E. reflexivity.
  - rewrite (accept_miss _ _ _ _ H E). apply IH.
    apply elem_of_cons in Hin as [?|?]; [contradiction|assumption].
Qed.

Lemma parse_RelOp_hit self t ts :
  pending self = t :: ts -> is_relop_token t ->
  _parse_RelOp self = (set_idx (_idx self + 1) self, Ok (tok_kind t)).
Proof. apply parse_RelOp_loop_hit. Qed.

(** One comparison is read as a [BinaryOp] leaf, whatever follows. *)
Lemma parse_comparison {B} (k : ASTNode -> parser B) self c ts :
  pending self = (comparison_tokens c ++ ts)%list -> comparison_ok c ->
  (let! left_ := _parse_Expr in
   let! op := _parse_RelOp in
   let! right_ := _parse_Expr in
   k (AST.BinaryOp left_ op right_)) self
  = k (comparison_node c) (set_idx (_idx self + 3) self).
Proof.
  intros H (Hl & Ho & Hr). destruct c as [l o r]. simpl in *.
  unfold pbind at 1. rewrite (parse_Expr_hit self l _ H Hl).
  set (s1 := set_idx (_idx self + 1) self).
  assert (H1 : pending s1 = o :: r :: ts).
  { unfold s1. rewrite pending_set_idx. rewrite H. reflexivity. }
  unfold pbind at 1. rewrite (parse_RelOp_hit s1 o _ H1 Ho).
  set (s2 := set_idx (_idx s1 + 1) s1).
  assert (H2 : pending s2 = r :: ts).
  { unfold s2. rewrite pending_set_idx. rewrite H1. reflexivity. }
  unfold pbind. rewrite (parse_Expr_hit s2 r _ H2 Hr).
  unfold comparison_node, s2, s1. simpl. f_equal.
  unfold set_idx. simpl. f_equal. lia.
Qed.

Lemma set_idx_eq a b self : a = b -> set_idx a self = set_idx b self.
Proof. intros ->. reflexivity. Qed.

(** [_parse_Cond] on a chain of comparisons joined by AND / OR. *)
Lemma parse_Cond_chain fuel self c links tail :
  comparison_ok c -> Forall link_ok links ->
  (exists t ts, tail = t :: ts /\ ~ is_combinator_token t) ->
  pending self = (comparison_tokens c ++ chain_tokens links ++ tail)%list ->
  length links < fuel ->
  _parse_Cond fuel self
  = (set_idx (_idx self + 3 + 4 * length links) self, Ok (right_leaning c links)).
Proof.
  intros Hc Hlinks (t & ts & -> & Ht).
  revert self c links Hc Hlinks. induction fuel as [|fuel IH];
    intros self c links Hc Hlinks Hp Hfuel; [lia|].
  pose (k := fun node : ASTNode =>
              let! tail := parse_CondTail_with (_parse_Cond fuel) in
              match tail with
              | Some (op2, rhs) => pret (AST.BinaryOp node op2 rhs)
              | None => pret node
              end).
  change (_parse_Cond (S fuel) self)
    with ((let! left_ := _parse_Expr in
           let! op := _parse_RelOp in
           let! right_ := _parse_Expr in
           k (AST.BinaryOp left_ op right_)) self).
  rewrite (parse_comparison k self c _ Hp Hc). unfold k. clear k.
  set (s3 := set_idx (_idx self + 3) self).
  assert (H3 : pending s3 = (chain_tokens links ++ t :: ts)%list).
  { unfold s3. rewrite pending_set_idx, Hp. reflexivity. }
  unfold parse_CondTail_with.
  destruct links as [|[k c'] links'].
  - simpl in H3. unfold pbind.
    rewrite (accept_miss s3 t ts "AND" H3)
      by (intros E; apply Ht; unfold is_combinator_token; rewrite E; set_solver).
    rewrite (accept_miss s3 t ts "OR" H3)
      by (intros E; apply Ht; unfold is_combinator_token; rewrite E; set_solver).
    unfold pret, s3, set_idx. simpl. f_equal. f_equal. lia.
  - apply Forall_cons in Hlinks as [[Hk Hc'] Hlinks']. simpl in Hk, Hc'.
    cbn [chain_tokens] in H3. simpl in H3. cbn [length] in Hfuel.
    set (s4 := set_idx (_idx s3 + 1) s3).
    assert (H4 : pending s4
                 = (comparison_tokens c' ++ chain_tokens links' ++ t :: ts)%list).
    { unfold s4. rewrite pending_set_idx, H3. reflexivity. }
    assert (Hrec : _parse_Cond fuel s4
                   = (set_idx (_idx s4 + 3 + 4 * length links') s4,
                      Ok (right_leaning c' links')))
      by (apply IH; [assumption|assumption|exact H4|lia]).
    unfold is_combinator_token in Hk.
    apply elem_of_cons in Hk as [Hk|Hk]; [|apply elem_of_cons in Hk as [Hk|Hk]; [|inversion Hk]].
    + unfold pbind. rewrite (accept_hit s3 k _ "AND" H3 Hk).
      fold s4. rewrite Hrec. unfold pret. cbn [right_leaning length]. rewrite Hk.
      f_equal. unfold s4, s3, set_idx. simpl. f_equal. lia.
    + unfold pbind.
      rewrite (accept_miss s3 k _ "AND" H3) by (rewrite Hk; discriminate).
      rewrite (accept_hit s3 k _ "OR" H3 Hk).
      fold s4. rewrite Hrec. unfold pret. cbn [right_leaning length]. rewrite Hk.
      f_equal. unfold s4, s3, set_idx. simpl. f_equal. lia.
Qed.

Lemma select_where_tree :
  (build_ast_from_tokens tokens_select_where sql_analyzer).2
  = Ok (AST.Program
          (AST.Select (AST.Columns false ["a"; "b"]) (AST.Table "t")
             (Some (AST.BinaryOp
                      (AST.BinaryOp (AST.Identifier "a") "=" (AST.Number "1"))
                      "AND"
                      (AST.BinaryOp (AST.Identifier "b") "<>" (AST.Number "2")))))).
Proof. vm_compute. reflexivity. Qed.

(** C8: on a WHERE condition made of a comparison followed by any number of
    links "AND/OR comparison", and followed by a token that is neither AND
    nor OR, [_parse_Cond] consumes exactly the chain and returns the
    right-leaning tree: the first comparison's [BinaryOp] is wrapped as
    [BinaryOp(previousNode, combinator, recursivelyParsedCondition)], the
    right operand being the tree of the rest of the chain.  In particular
    the text ["SELECT a, b FROM t WHERE a = 1 AND b <> 2;"] builds
    [Program(Select(Columns(False, [a, b]), Table(t), BinaryOp(BinaryOp(a = 1),
    AND, BinaryOp(b <> 2))))]. *)
Theorem where_chain_is_right_leaning :
  (forall fuel self c links t ts,
     comparison_ok c -> Forall link_ok links -> ~ is_combinator_token t ->
     pending self = (comparison_tokens c ++ chain_tokens links ++ t :: ts)%list ->
     length links < fuel ->
     _parse_Cond fuel self
     = (set_idx (_idx self + 3 + 4 * length links) self, Ok (right_leaning c links))) /\
  (build_ast "SELECT a, b FROM t WHERE a = 1 AND b <> 2;" sql_analyzer).2
  = Ok (AST.Program
          (AST.Select (AST.Columns false ["a"; "b"]) (AST.Table "t")
             (Some (AST.BinaryOp
                      (AST.BinaryOp (AST.Identifier "a") "=" (AST.Number "1"))
                      "AND"
                      (AST.BinaryOp (AST.Identifier "b") "<>" (AST.Number "2")))))).
Proof.
  split; [|unfold build_ast; rewrite tokenize_select_where; exact select_where_tree].
  intros fuel self c links t ts Hc Hl Ht Hp Hf.
  apply (parse_Cond_chain fuel self c links (t :: ts)); eauto.
Qed.

Lemma where_demo_pending :
  pending where_demo_state
  = (comparison_tokens where_demo_first ++ chain_tokens where_demo_links
       ++ (";", ";", 1, 41)%Z :: [eof_token])%list.
Proof. vm_compute. reflexivity. Qed.

Lemma where_demo_first_ok : comparison_ok where_demo_first.
Proof. repeat split; apply (bool_decide_unpack _); vm_compute; exact I. Qed.

Lemma where_demo_links_ok : Forall link_ok where_demo_links.
Proof. repeat constructor; apply (bool_decide_unpack _); vm_compute; exact I. Qed.

Lemma where_demo_tail_ok : ~ is_combinator_token (";", ";", 1, 41)%Z.
Proof. apply (bool_decide_unpack _). vm_compute. exact I. Qed.

Lemma where_chain_is_right_leaning_witness :
  comparison_ok where_demo_first /\ Forall link_ok where_demo_links /\
  ~ is_combinator_token (";", ";", 1, 41)%Z /\
  pending where_demo_state
  = (comparison_tokens where_demo_first ++ chain_tokens where_demo_links
       ++ (";", ";", 1, 41)%Z :: [eof_token])%list /\
  length where_demo_links < 2 /\
  _parse_Cond 2 where_demo_state
  = (set_idx (_idx where_demo_state + 3 + 4 * length where_demo_links) where_demo_state,
     Ok (right_leaning where_demo_first where_demo_links)).
Proof.
  split; [exact where_demo_first_ok|]. split; [exact where_demo_links_ok|].
  split; [exact where_demo_tail_ok|]. split; [exact where_demo_pending|].
  split; [simpl; lia|].
  apply (proj1 where_chain_is_right_leaning 2 where_demo_state where_demo_first
           where_demo_links (";", ";", 1, 41)%Z [eof_token]).
  - exact where_demo_first_ok.
  - exact where_demo_links_ok.
  - exact where_demo_tail_ok.
  - exact where_demo_pending.
  - simpl; lia.
Defined.

(** ** Statements other than SELECT *)

Lemma engine_loop_accepted fuel self st st' :
  engine_loop fuel self st = Ok (Accepted st') ->
  ends_in_accept (output st').
Proof.
  revert st. induction fuel as [|fuel IH]; intros st H; [discriminate|].
  simpl in H. destruct (stack st) as [|x l] eqn:E; [discriminate|].
  destruct (engine_iteration self st) as [st1|st1|st1 ret1|e] eqn:Hit; try discriminate.
  - apply (IH st1 H).
  - injection H as <-. unfold engine_iteration in Hit.
    repeat match type of Hit with
           | match ?x with _ => _ end = _ => destruct x; try discriminate
           | (let _ := _ in _) = _ => simpl in Hit
           end.
    injection Hit as <-. eexists. simpl. rewrite last_snoc. split; reflexivity.
Qed.

Lemma run_accepts_next self st st1 :
  stack st <> [] -> engine_iteration self st = Next st1 ->
  run_accepts self st1 -> run_accepts self st.
Proof.
  intros Hne Hit (fuel & st' & H). exists (S fuel), st'. intros k.
  simpl. destruct (stack st); [contradiction|]. rewrite Hit. apply H.
Qed.

Lemma rev_top_ne (x : string) stk : rev (x :: stk) <> [].
Proof. simpl. intros H. apply app_eq_nil in H as [_ H]. discriminate. Qed.

Lemma sql_terminal_elem a : a ∈ sql_terminal_list -> a ∈ terminals sql_analyzer.
Proof. rewrite sql_terminals_eq. unfold sql_terminals. apply elem_of_list_to_set. Qed.

Lemma sql_non_terminal_elem X : X ∈ sql_grammar.*1 -> X ∈ non_terminals sql_analyzer.
Proof. rewrite sql_non_terminals. apply elem_of_list_to_set. Qed.

Lemma accepts_match a stk t rest :
  tok_kind t = a -> a ∈ sql_terminal_list ->
  accepts_from sql_analyzer stk rest -> accepts_from sql_analyzer (a :: stk) (t :: rest).
Proof.
  intros Hk Ha Hacc stp out.
  eapply run_accepts_next; [apply rev_top_ne| |].
  - apply (engine_iteration_match sql_analyzer _ a t rest).
    + simpl. apply last_snoc.
    + reflexivity.
    + exact Hk.
    + apply sql_terminal_elem, Ha.
    + intros [E1 E2]. rewrite E1 in E2. discriminate.
  - unfold emit. simpl. rewrite removelast_last. apply Hacc.
Qed.

Lemma accepts_expand X stk t rest p :
  X ∈ sql_grammar.*1 ->
  lookup_cell sql_analyzer X (tok_kind t) = Some (Some p) ->
  accepts_from sql_analyzer (p ++ stk)%list (t :: rest) ->
  accepts_from sql_analyzer (X :: stk) (t :: rest).
Proof.
  intros HX Hcell Hacc stp out.
  apply sql_non_terminal_elem in HX.
  destruct (sql_non_terminal_not_terminal X HX) as [Hterm Hne].
  eapply run_accepts_next; [apply rev_top_ne| |].
  - apply (engine_iteration_expand sql_analyzer _ X p).
    + simpl. apply last_snoc.
    + intros [E _]. contradiction.
    + exact Hterm.
    + exact HX.
    + exact Hcell.
  - unfold emit. simpl. rewrite removelast_last, <- rev_app_distr. apply Hacc.
Qed.

Lemma accepts_end stk t rest :
  tok_kind t = "EOF" -> accepts_from sql_analyzer ("$" :: stk) (t :: rest).
Proof.
  intros Hk stp out.
  set (st := mkEngine (rev ("$" :: stk)) (t :: rest) stp out).
  assert (Hit : engine_iteration sql_analyzer st
                = Break (emit st (stack st) (input_tokens st) "接受")).
  { apply engine_iteration_accept; [simpl; apply last_snoc | exact Hk]. }
  exists 1, (emit st (stack st) (input_tokens st) "接受"). intros k.
  change (1 + k) with (S k). cbn [engine_loop].
  assert (Hne : stack st <> []) by apply rev_top_ne.
  destruct (stack st) eqn:E; [contradiction|]. rewrite Hit. reflexivity.
Qed.

(** The three rules on terminal words. *)
Lemma word_match a stk ks :
  a ∈ sql_terminal_list ->
  accepts_word sql_analyzer stk ks -> accepts_word sql_analyzer (a :: stk) (a :: ks).
Proof.
  intros Ha H inp Hinp. destruct inp as [|t rest]; [discriminate|].
  rewrite fmap_cons in Hinp. injection Hinp as Hk Hrest.
  apply accepts_match; auto.
Qed.

Lemma word_expand X a stk ks p :
  X ∈ sql_grammar.*1 ->
  lookup_cell sql_analyzer X a = Some (Some p) ->
  accepts_word sql_analyzer (p ++ stk)%list (a :: ks) ->
  accepts_word sql_analyzer (X :: stk) (a :: ks).
Proof.
  intros HX Hcell H inp Hinp. destruct inp as [|t rest]; [discriminate|].
  pose proof Hinp as Hinp'. rewrite fmap_cons in Hinp'. injection Hinp' as Hk Hrest.
  apply (accepts_expand X stk t rest p HX); [rewrite Hk; exact Hcell|].
  apply H, Hinp.
Qed.

Lemma word_end stk ks : accepts_word sql_analyzer ("$" :: stk) ("EOF" :: ks).
Proof.
  intros inp Hinp. destruct inp as [|t rest]; [discriminate|].
  rewrite fmap_cons in Hinp. injection Hinp as Hk Hrest. apply accepts_end, Hk.
Qed.

(** ** Entries of the SQL table used by INSERT, UPDATE and DELETE *)

Lemma cell_Prog_INSERT :
  lookup_cell sql_analyzer "Prog" "INSERT" = Some (Some ["Query"; ";"]).
Proof. vm_compute. reflexivity. Qed.

Lemma cell_Prog_UPDATE :
  lookup_cell sql_analyzer "Prog" "UPDATE" = Some (Some ["Query"; ";"]).
Proof. vm_compute. reflexivity. Qed.

Lemma cell_Prog_DELETE :
  lookup_cell sql_analyzer "Prog" "DELETE" = Some (Some ["Query"; ";"]).
Proof. vm_compute. reflexivity. Qed.

Lemma cell_Query_INSERT :
  lookup_cell sql_analyzer "Query" "INSERT" = Some (Some ["INSERT"; "INTO"; "Tbl"; "VALUES"; "("; "ValList"; ")"]).
Proof. vm_compute. reflexivity. Qed.

Lemma cell_Query_UPDATE :
  lookup_cell sql_analyzer "Query" "UPDATE" = Some (Some ["UPDATE"; "Tbl"; "SET"; "SetList"]).
Proof. vm_compute. reflexivity. Qed.

Lemma cell_Query_DELETE :
  lookup_cell sql_analyzer "Query" "DELETE" = Some (Some ["DELETE"; "FROM"; "Tbl"]).
Proof. vm_compute. reflexivity. Qed.

Lemma cell_Tbl_ID :
  lookup_cell sql_analyzer "Tbl" "ID" = Some (Some ["ID"]).
Proof. vm_compute. reflexivity. Qed.

Lemma cell_ValList_ID :
  lookup_cell sql_analyzer "ValList" "ID" = Some (Some ["Val"; "ValListRest"]).
Proof. vm_compute. reflexivity. Qed.

Lemma cell_ValList_NUM :
  lookup_cell sql_analyzer "ValList" "NUM" = Some (Some ["Val"; "ValListRest"]).
Proof. vm_compute. reflexivity. Qed.

Lemma cell_ValList_STRING :
  lookup_cell sql_analyzer "ValList" "STRING" = Some (Some ["Val"; "ValListRest"]).
Proof. vm_compute. reflexivity. Qed.

Lemma cell_Val_ID :
  lookup_cell sql_analyzer "Val" "ID" = Some (Some ["ID"]).
Proof. vm_compute. reflexivity. Qed.

Lemma cell_Val_NUM :
  lookup_cell sql_analyzer "Val" "NUM" = Some (Some ["NUM"]).
Proof. vm_compute. reflexivity. Qed.

Lemma cell_Val_STRING :
  lookup_cell sql_analyzer "Val" "STRING" = Some (Some ["STRING"]).
Proof. vm_compute. reflexivity. Qed.

Lemma cell_ValListRest_comma :
  lookup_cell sql_analyzer "ValListRest" "," = Some (Some [","; "Val"; "ValListRest"]).
Proof. vm_compute. reflexivity. Qed.

Lemma cell_ValListRest_rparen :
  lookup_cell sql_analyzer "ValListRest" ")" = Some (Some []).
Proof. vm_compute. reflexivity. Qed.

Lemma cell_SetList_ID :
  lookup_cell sql_analyzer "SetList" "ID" = Some (Some ["ID"; "="; "Val"; "SetListRest"]).
Proof. vm_compute. reflexivity. Qed.

Lemma cell_SetListRest_comma :
  lookup_cell sql_analyzer "SetListRest" "," = Some (Some [","; "ID"; "="; "Val"; "SetListRest"]).
Proof. vm_compute. reflexivity. Qed.

Lemma cell_SetListRest_semicolon :
  lookup_cell sql_analyzer "SetListRest" ";" = Some (Some []).
Proof. vm_compute. reflexivity. Qed.

Ltac table_entry :=
  lazymatch goal with
  | |- lookup_cell _ "Prog" "INSERT" = _ => exact cell_Prog_INSERT
  | |- lookup_cell _ "Prog" "UPDATE" = _ => exact cell_Prog_UPDATE
  | |- lookup_cell _ "Prog" "DELETE" = _ => exact cell_Prog_DELETE
  | |- lookup_cell _ "Query" "INSERT" = _ => exact cell_Query_INSERT
  | |- lookup_cell _ "Query" "UPDATE" = _ => exact cell_Query_UPDATE
  | |- lookup_cell _ "Query" "DELETE" = _ => exact cell_Query_DELETE
  | |- lookup_cell _ "Tbl" "ID" = _ => exact cell_Tbl_ID
  | |- lookup_cell _ "ValList" "ID" = _ => exact cell_ValList_ID
  | |- lookup_cell _ "ValList" "NUM" = _ => exact cell_ValList_NUM
  | |- lookup_cell _ "ValList" "STRING" = _ => exact cell_ValList_STRING
  | |- lookup_cell _ "Val" "ID" = _ => exact cell_Val_ID
  | |- lookup_cell _ "Val" "NUM" = _ => exact cell_Val_NUM
  | |- lookup_cell _ "Val" "STRING" = _ => exact cell_Val_STRING
  | |- lookup_cell _ "ValListRest" "," = _ => exact cell_ValListRest_comma
  | |- lookup_cell _ "ValListRest" ")" = _ => exact cell_ValListRest_rparen
  | |- lookup_cell _ "SetList" "ID" = _ => exact cell_SetList_ID
  | |- lookup_cell _ "SetListRest" "," = _ => exact cell_SetListRest_comma
  | |- lookup_cell _ "SetListRest" ";" = _ => exact cell_SetListRest_semicolon
  end.

Ltac solve_in_list := apply (bool_decide_unpack _); vm_compute; exact I.

Ltac engine_step :=
  first [ apply word_end
        | apply word_match; [solve_in_list | ]
        | eapply word_expand;
            [solve_in_list | table_entry | cbn [app] ] ].

Lemma val_kinds_cases v : v ∈ val_kinds -> v = "ID" \/ v = "NUM" \/ v = "STRING".
Proof.
  unfold val_kinds. intros H.
  repeat (apply elem_of_cons in H as [H|H]; [auto|]). inversion H.
Qed.

Lemma word_Val v stk ks :
  v ∈ val_kinds ->
  accepts_word sql_analyzer stk ks ->
  accepts_word sql_analyzer ("Val" :: stk) (v :: ks).
Proof.
  intros Hv H. destruct (val_kinds_cases v Hv) as [-> | [-> | ->]];
    do 2 engine_step; exact H.
Qed.

Lemma word_ValListRest vs stk ks :
  Forall (fun v' => v' ∈ val_kinds) vs ->
  accepts_word sql_analyzer stk (")" :: ks) ->
  accepts_word sql_analyzer ("ValListRest" :: stk)
    (flat_map (fun v' => [","; v']) vs ++ ")" :: ks)%list.
Proof.
  induction 1 as [|v vs Hv Hvs IH]; intros H; simpl.
  - engine_step. exact H.
  - do 2 engine_step. apply word_Val; [exact Hv|]. apply IH, H.
Qed.

Lemma word_SetListRest vs stk ks :
  Forall (fun v' => v' ∈ val_kinds) vs ->
  accepts_word sql_analyzer stk (";" :: ks) ->
  accepts_word sql_analyzer ("SetListRest" :: stk)
    (flat_map (fun v' => [","; "ID"; "="; v']) vs ++ ";" :: ks)%list.
Proof.
  induction 1 as [|v vs Hv Hvs IH]; intros H; simpl.
  - engine_step. exact H.
  - do 4 engine_step. apply word_Val; [exact Hv|]. apply IH, H.
Qed.

Lemma word_insert w :
  insert_word w -> accepts_word sql_analyzer ["Prog"; "$"] (w ++ ["EOF"])%list.
Proof.
  intros (v & vs & Hv & Hvs & ->). simpl.
  do 8 engine_step.
  destruct (val_kinds_cases v Hv) as [-> | [-> | ->]]; engine_step;
    (apply word_Val; [exact Hv|]);
    rewrite <- app_assoc; (apply word_ValListRest; [exact Hvs|]);
    simpl; do 3 engine_step.
Qed.

Lemma word_update w :
  update_word w -> accepts_word sql_analyzer ["Prog"; "$"] (w ++ ["EOF"])%list.
Proof.
  intros (v & vs & Hv & Hvs & ->). simpl.
  do 9 engine_step.
  apply word_Val; [exact Hv|].
  rewrite <- app_assoc. apply word_SetListRest; [exact Hvs|].
  simpl. do 2 engine_step.
Qed.

Lemma word_delete w :
  delete_word w -> accepts_word sql_analyzer ["Prog"; "$"] (w ++ ["EOF"])%list.
Proof. intros ->. simpl. do 8 engine_step. Qed.

(** From accepted words to [analyze_tokens]. *)
Lemma recognizes_word tokens :
  terminal_word sql_analyzer tokens <> [] ->
  accepts_word sql_analyzer ["Prog"; "$"]
    (terminal_word sql_analyzer tokens ++ ["EOF"])%list ->
  engine_recognizes sql_analyzer tokens.
Proof.
  intros Hne Hacc.
  assert (Hk : tok_kind <$> converted_tokens sql_analyzer tokens
               = (terminal_word sql_analyzer tokens ++ ["EOF"])%list).
  { unfold converted_tokens, terminal_word. rewrite fmap_app. reflexivity. }
  destruct (Hacc _ Hk 0 []) as (fuel & st' & Hrun).
  exists fuel, (output st'). split.
  - apply (engine_loop_accepted (fuel + 0) sql_analyzer _ st' (Hrun 0)).
  - intros k. destruct tokens as [|t tokens]; [contradiction Hne; reflexivity|].
    unfold analyze_tokens, engine_start. cbn [snd].
    change ["$"; "Prog"] with (rev ["Prog"; "$"]). rewrite Hrun. reflexivity.
Qed.

(** The tree builder on anything that does not start with SELECT. *)
Lemma build_ast_unsupported self tokens :
  head (tok_kind <$> _map_tokens self tokens) <> Some "SELECT" ->
  build_ast_from_tokens tokens self
  = (set_stream (_map_tokens self tokens) (set_idx 0 self), Raise unsupported_statement).
Proof.
  intros Hh. unfold build_ast_from_tokens.
  set (self1 := set_stream (_map_tokens self tokens) (set_idx 0 self)).
  assert (Hp : pending self1 = _map_tokens self tokens) by reflexivity.
  destruct (_map_tokens self tokens) as [|t ts] eqn:E.
  { unfold _map_tokens in E. apply app_eq_nil in E as [_ E]. discriminate. }
  unfold _parse_Prog, _parse_Query. unfold pbind.
  rewrite (accept_miss self1 t ts "SELECT" Hp); [reflexivity|].
  intros Hk. apply Hh. simpl. rewrite Hk. reflexivity.
Qed.

Lemma engine_iteration_no_entry self st top row :
  last (stack st) = Some top ->
  ~ (top = "$" /\ current_type st = "EOF") ->
  top ∉ terminals self ->
  top ∈ non_terminals self ->
  parsing_table self !! top = Some row ->
  row !! current_type st = None \/ row !! current_type st = Some None ->
  engine_iteration self st =
  let expression := "错误：" ++ top ++ " 在 " ++ current_type st ++ " 处无产生式" in
  Return (emit st (stack st) (input_tokens st) expression)
         (_create_error_output expression).
Proof.
  intros Hlast Hacc Hterm Hnt Hrow Hc. unfold engine_iteration. rewrite Hlast.
  rewrite decide_False by exact Hacc.
  rewrite decide_False by exact Hterm.
  rewrite decide_True by exact Hnt.
  rewrite Hrow. destruct Hc as [-> | ->]; reflexivity.
Qed.

Lemma is_Some_row_no_entry (o : option (gmap string (option (list string)))) a :
  match o with Some row => bool_decide (row !! a = None) | None => false end = true ->
  exists row, o = Some row /\ row !! a = None.
Proof.
  destruct o as [row|]; [|discriminate]. intros H. apply bool_decide_eq_true in H. eauto.
Qed.

Lemma sql_Prog_no_CREATE :
  exists row, parsing_table sql_analyzer !! "Prog" = Some row /\ row !! "CREATE" = None.
Proof. apply is_Some_row_no_entry. vm_compute. reflexivity. Qed.

Lemma engine_loop_return fuel self st st' ret :
  stack st <> [] -> engine_iteration self st = Return st' ret ->
  engine_loop (S fuel) self st = Ok (Returned st' ret).
Proof.
  intros Hne Hit. simpl. destruct (stack st); [contradiction|]. rewrite Hit. reflexivity.
Qed.

(** CREATE is not a terminal of the grammar: the engine rejects it at once. *)
Lemma create_is_rejected tokens k :
  head (terminal_word sql_analyzer tokens) = Some "CREATE" ->
  (analyze_tokens (S k) tokens sql_analyzer).2
  = Ok [mkRecord 1 [] [] "错误：Prog 在 CREATE 处无产生式"].
Proof.
  intros Hh. destruct tokens as [|t0 tokens]; [discriminate|].
  unfold analyze_tokens, engine_start, converted_tokens. unfold terminal_word in Hh.
  generalize dependent (omap (convert_token sql_analyzer) (t0 :: tokens)).
  intros l Hh. destruct l as [|t ts]; [discriminate|].
  rewrite fmap_cons in Hh. cbn [head] in Hh. injection Hh as Hk.
  cbn [snd].
  set (st := mkEngine ["$"; "Prog"] ((t :: ts) ++ [eof_token]) 0 []).
  assert (Hcur : current_type st = "CREATE") by exact Hk.
  destruct sql_Prog_no_CREATE as (row & Hrow & Hnone).
  assert (Hnt : "Prog" ∈ non_terminals sql_analyzer)
    by (apply sql_non_terminal_elem; solve_in_list).
  erewrite engine_loop_return.
  - cbn [bind returned_value]. reflexivity.
  - discriminate.
  - rewrite (engine_iteration_no_entry sql_analyzer st "Prog" row).
    + cbv zeta. rewrite Hcur. reflexivity.
    + reflexivity.
    + intros [E _]. discriminate.
    + apply sql_non_terminal_not_terminal, Hnt.
    + exact Hnt.
    + exact Hrow.
    + left. rewrite Hcur. exact Hnone.
Qed.

Lemma map_tokens_kinds tokens :
  tok_kind <$> _map_tokens sql_analyzer tokens
  = (terminal_word sql_analyzer tokens ++ ["EOF"])%list.
Proof.
  rewrite map_tokens_converted. unfold converted_tokens, terminal_word.
  rewrite fmap_app. reflexivity.
Qed.

(** C9 (as the code has it): every statement of the INSERT, UPDATE or DELETE
    forms is recognized by the table-driven engine (with enough fuel the
    trace ends in accept), and asking for its syntax tree raises the
    unsupported-statement error before any token is consumed, so no node is
    returned.  A token list that starts with CREATE gets the same error from
    the tree builder, but the engine does NOT recognize it: CREATE is not a
    terminal of the grammar and the first step fails with "no production
    for Prog at CREATE".  The tree builder raises the error for every token
    list whose first terminal is not SELECT. *)
Theorem non_select_statements tokens :
  (insert_word (terminal_word sql_analyzer tokens) \/
   update_word (terminal_word sql_analyzer tokens) \/
   delete_word (terminal_word sql_analyzer tokens) ->
   engine_recognizes sql_analyzer tokens /\
   build_ast_from_tokens tokens sql_analyzer
   = (set_stream (_map_tokens sql_analyzer tokens) (set_idx 0 sql_analyzer),
      Raise unsupported_statement)) /\
  (head (terminal_word sql_analyzer tokens) = Some "CREATE" ->
   (forall k, (analyze_tokens (S k) tokens sql_analyzer).2
              = Ok [mkRecord 1 [] [] "错误：Prog 在 CREATE 处无产生式"]) /\
   build_ast_from_tokens tokens sql_analyzer
   = (set_stream (_map_tokens sql_analyzer tokens) (set_idx 0 sql_analyzer),
      Raise unsupported_statement)) /\
  (head (terminal_word sql_analyzer tokens ++ ["EOF"])%list <> Some "SELECT" ->
   build_ast_from_tokens tokens sql_analyzer
   = (set_stream (_map_tokens sql_analyzer tokens) (set_idx 0 sql_analyzer),
      Raise unsupported_statement)).
Proof.
  assert (Hb : head (terminal_word sql_analyzer tokens ++ ["EOF"])%list <> Some "SELECT" ->
               build_ast_from_tokens tokens sql_analyzer
               = (set_stream (_map_tokens sql_analyzer tokens) (set_idx 0 sql_analyzer),
                  Raise unsupported_statement)).
  { intros Hh. apply build_ast_unsupported. rewrite map_tokens_kinds. exact Hh. }
  split; [|split; [|exact Hb]].
  - intros Hw. split.
    + apply recognizes_word.
      * destruct Hw as [(v & vs & _ & _ & ->) | [(v & vs & _ & _ & ->) | ->]];
          discriminate.
      * destruct Hw as [Hw | [Hw | Hw]];
          [apply word_insert | apply word_update | apply word_delete]; exact Hw.
    + apply Hb.
      destruct Hw as [(v & vs & _ & _ & ->) | [(v & vs & _ & _ & ->) | ->]];
        discriminate.
  - intros Hh. split; [intros k; apply create_is_rejected, Hh|].
    apply Hb. destruct (terminal_word sql_analyzer tokens); [discriminate|].
    simpl in *. congruence.
Qed.

Lemma delete_from_t_word : delete_word (terminal_word sql_analyzer tokens_delete_from_t).
Proof. vm_compute. reflexivity. Qed.

Lemma non_select_statements_witness :
  (insert_word (terminal_word sql_analyzer tokens_delete_from_t) \/
   update_word (terminal_word sql_analyzer tokens_delete_from_t) \/
   delete_word (terminal_word sql_analyzer tokens_delete_from_t)) /\
  engine_recognizes sql_analyzer tokens_delete_from_t /\
  build_ast_from_tokens tokens_delete_from_t sql_analyzer
  = (set_stream (_map_tokens sql_analyzer tokens_delete_from_t) (set_idx 0 sql_analyzer),
     Raise unsupported_statement).
Proof.
  assert (H : insert_word (terminal_word sql_analyzer tokens_delete_from_t) \/
              update_word (terminal_word sql_analyzer tokens_delete_from_t) \/
              delete_word (terminal_word sql_analyzer tokens_delete_from_t))
    by (right; right; exact delete_from_t_word).
  split; [exact H|].
  exact (proj1 (non_select_statements tokens_delete_from_t) H).
Defined.

Lemma create_table_head :
  head (terminal_word sql_analyzer tokens_create_table) = Some "CREATE".
Proof. vm_compute. reflexivity. Qed.

(** C9 (as stated) fails for CREATE: on the tokens of
    ["CREATE TABLE t (id INT);"] the engine returns the single error record
    "错误：Prog 在 CREATE 处无产生式", never a trace ending in accept. *)
Lemma create_is_not_recognized :
  ~ recognized_but_unsupported sql_analyzer tokens_create_table.
Proof.
  intros [(fuel & trace & (r & Hlast & Hexpr) & Hrun) _].
  specialize (Hrun 1). rewrite Nat.add_1_r in Hrun.
  rewrite (create_is_rejected tokens_create_table fuel create_table_head) in Hrun.
  injection Hrun as <-. simpl in Hlast. injection Hlast as <-. discriminate Hexpr.
Qed.

(** ** The depth budget of the tree builder *)
















(** ** Termination of the engine on the SQL table *)

Lemma result_is_Ok {A} (r : result A) (d : A) :
  match r with Ok _ => true | _ => false end = true ->
  r = Ok (match r with Ok a => a | _ => d end).
Proof. destruct r; [reflexivity|discriminate|discriminate]. Qed.

Lemma sql_before_table_ok :
  (let* self1 := _compute_first_sets 3
                   (new_analyzer sql_grammar sql_terminals sql_token_to_terminal) in
   _compute_follow_sets 3 self1) = Ok sql_before_table.
Proof. apply result_is_Ok. vm_compute. reflexivity. Qed.

Lemma initialise_split fuel self :
  initialise fuel self
  = (let* self2 := (let* self1 := _compute_first_sets fuel self in
                    _compute_follow_sets fuel self1) in
     _build_parsing_table self2).
Proof. unfold initialise. destruct (_compute_first_sets fuel self); reflexivity. Qed.

Lemma sql_table_built : _build_parsing_table sql_before_table = Ok (sql_analyzer, []).
Proof.
  pose proof (init_sql_analyzer 0) as H. unfold __init__ in H.
  rewrite initialise_split in H. change (3 + 0) with 3 in H.
  rewrite sql_before_table_ok in H. exact H.
Qed.

Lemma sql_before_table_empty : parsing_table sql_before_table = ∅.
Proof. vm_compute. reflexivity. Qed.

Lemma sql_before_table_writes : table_writes sql_before_table = Ok sql_entries.
Proof. vm_compute. reflexivity. Qed.

Lemma last_write_elem ws nt t p :
  last_write ws nt t = Some p -> (nt, t, p) ∈ ws.
Proof.
  unfold last_write. intros H. apply last_Some_elem_of in H.
  unfold writes_to in H. apply list_elem_of_omap in H as ([[wn wt] wp] & Hin & Hw).
  unfold write_cell in Hw. simpl in Hw.
  destruct (decide ((wn, wt) = (nt, t))) as [E|E]; [|discriminate].
  injection E as -> ->. injection Hw as ->. exact Hin.
Qed.

(** Every production found in a table built from the empty table was
    stored by the filling loop. *)
Lemma table_entries_of_writes self self' printed ws nt t p :
  parsing_table self = ∅ ->
  _build_parsing_table self = Ok (self', printed) ->
  table_writes self = Ok ws ->
  lookup_cell self' nt t = Some (Some p) -> (nt, t, p) ∈ ws.
Proof.
  intros He Hb Hw H.
  destruct (build_table_replay self self' printed He Hb)
    as (ws' & Hws & Hlast & Hnone & _).
  rewrite Hw in Hws. injection Hws as <-.
  destruct (last_write ws nt t) as [q|] eqn:E.
  - rewrite (Hlast nt t q E) in H. injection H as <-. apply last_write_elem, E.
  - unfold last_write in E. apply last_None in E.
    rewrite (Hnone nt t E), (init_table_empty _ _ _ He) in H.
    destruct (decide (nt ∈ non_terminals self)); [|discriminate].
    destruct (decide (t ∈ terminals self)); discriminate.
Qed.

(** Every production held by the SQL table is one of [sql_entries]. *)
Lemma sql_table_entries nt t p :
  lookup_cell sql_analyzer nt t = Some (Some p) -> (nt, t, p) ∈ sql_entries.
Proof.
  apply (table_entries_of_writes sql_before_table sql_analyzer [] sql_entries).
  - exact sql_before_table_empty.
  - exact sql_table_built.
  - exact sql_before_table_writes.
Qed.

Lemma sql_entries_fit : forallb entry_fit sql_entries = true.
Proof. vm_compute. reflexivity. Qed.

Lemma sql_entry_fit nt t p :
  lookup_cell sql_analyzer nt t = Some (Some p) ->
  Forall (fun s => s <> "EOF") p /\
  ((exists p', p = t :: p' /\ t ∈ terminals sql_analyzer) \/ stack_rank p < rank nt).
Proof.
  intros H. apply sql_table_entries in H.
  pose proof sql_entries_fit as Hfit. rewrite forallb_forall in Hfit.
  apply list_elem_of_In in H. specialize (Hfit _ H). unfold entry_fit in Hfit. simpl in Hfit.
  apply andb_true_iff in Hfit as [Hno Hor]. split.
  - apply Forall_forall. intros s Hs. rewrite forallb_forall in Hno.
    apply list_elem_of_In in Hs. specialize (Hno s Hs). simpl in Hno.
    apply negb_true_iff, String.eqb_neq in Hno. exact Hno.
  - apply orb_true_iff in Hor as [Hh|Hr].
    + left. destruct p as [|h p']; [discriminate|].
      apply andb_true_iff in Hh as [He Hin]. apply String.eqb_eq in He. subst h.
      exists p'. split; [reflexivity|]. apply bool_decide_eq_true in Hin.
      apply sql_terminal_elem, Hin.
    + right. apply Nat.ltb_lt, Hr.
Qed.

Lemma sql_row_exists top :
  top ∈ non_terminals sql_analyzer -> is_Some (parsing_table sql_analyzer !! top).
Proof.
  intros H. apply sql_non_terminal_cases in H. simpl in H.
  repeat (apply elem_of_cons in H as [-> | H];
          [apply (bool_decide_unpack _); vm_compute; exact I|]).
  inversion H.
Qed.


Lemma stack_rank_app a b : stack_rank (a ++ b) = stack_rank a + stack_rank b.
Proof. apply sum_list_with_app. Qed.

Lemma stack_rank_rev p : stack_rank (rev p) = stack_rank p.
Proof.
  induction p as [|x p IH]; [reflexivity|]. simpl rev.
  rewrite stack_rank_app, IH. unfold stack_rank. simpl. lia.
Qed.

Lemma match_pending_le self st : match_pending self st <= 1.
Proof. unfold match_pending. destruct (last _); [destruct (decide _)|]; lia. Qed.

Lemma terminates_next self st st1 :
  stack st <> [] -> engine_iteration self st = Next st1 ->
  terminates self st1 -> terminates self st.
Proof.
  intros Hne Hit (fuel & ex & H). exists (S fuel), ex. intros k.
  simpl. destruct (stack st); [contradiction|]. rewrite Hit. apply H.
Qed.

Lemma terminates_break self st st' :
  stack st <> [] -> engine_iteration self st = Break st' -> terminates self st.
Proof.
  intros Hne Hit. exists 1, (Accepted st'). intros k.
  change (1 + k) with (S k). simpl. destruct (stack st); [contradiction|].
  rewrite Hit. reflexivity.
Qed.

Lemma terminates_return self st st' ret :
  stack st <> [] -> engine_iteration self st = Return st' ret -> terminates self st.
Proof.
  intros Hne Hit. exists 1, (Returned st' ret). intros k.
  change (1 + k) with (S k). apply engine_loop_return; assumption.
Qed.

Lemma terminates_empty self st : stack st = [] -> terminates self st.
Proof.
  intros He. exists 1, (Exhausted st). intros k.
  change (1 + k) with (S k). simpl. rewrite He. reflexivity.
Qed.

Lemma engine_iteration_mismatch self st top :
  last (stack st) = Some top ->
  ~ (top = "$" /\ current_type st = "EOF") ->
  top ∈ terminals self -> top <> current_type st ->
  exists st' ret, engine_iteration self st = Return st' ret.
Proof.
  intros Hlast Hacc Hterm Hne. unfold engine_iteration. rewrite Hlast.
  rewrite decide_False by exact Hacc. rewrite decide_True by exact Hterm.
  rewrite decide_False by exact Hne. eauto.
Qed.

Lemma engine_iteration_unknown self st top :
  last (stack st) = Some top ->
  ~ (top = "$" /\ current_type st = "EOF") ->
  top ∉ terminals self -> top ∉ non_terminals self ->
  exists st' ret, engine_iteration self st = Return st' ret.
Proof.
  intros Hlast Hacc Hterm Hnt. unfold engine_iteration. rewrite Hlast.
  rewrite decide_False by exact Hacc. rewrite decide_False by exact Hterm.
  rewrite decide_False by exact Hnt. eauto.
Qed.

Lemma sql_engine_terminates_from n1 n2 st :
  input_measure sql_analyzer st = n1 -> stack_rank (stack st) = n2 ->
  Forall (fun s => s <> "EOF") (stack st) ->
  terminates sql_analyzer st.
Proof.
  revert n2 st. induction n1 as [n1 IH1] using lt_wf_ind.
  induction n2 as [n2 IH2] using lt_wf_ind. intros st H1 H2 Hok.
  destruct (last (stack st)) as [top|] eqn:Hlast;
    [|apply terminates_empty, last_None, Hlast].
  pose proof Hlast as Hsplit. apply last_Some in Hsplit as [base Hstk].
  assert (Hne : stack st <> []).
  { rewrite Hstk. intros E. apply app_eq_nil in E as [_ E]. discriminate. }
  assert (Hrm : removelast (stack st) = base) by (rewrite Hstk; apply removelast_last).
  assert (Hokb : Forall (fun s => s <> "EOF") base /\ top <> "EOF").
  { rewrite Hstk in Hok. apply Forall_app in Hok as [Hb Ht].
    split; [exact Hb|]. inversion Ht; assumption. }
  destruct Hokb as [Hokb HtopE].
  destruct (decide (top = "$" /\ current_type st = "EOF")) as [[-> Hcur]|Hacc].
  { eapply terminates_break; [exact Hne|].
    apply engine_iteration_accept; assumption. }
  destruct (decide (top ∈ terminals sql_analyzer)) as [Hterm|Hterm].
  { destruct (decide (top = current_type st)) as [Heq|Hneq].
    - destruct (input_tokens st) as [|t rest] eqn:Hin.
      + exfalso. apply HtopE. rewrite Heq. unfold current_type, current_token.
        rewrite Hin. reflexivity.
      + eapply terminates_next; [exact Hne| |].
        * apply (engine_iteration_match sql_analyzer st top t rest Hlast Hin);
            [|exact Hterm|intros [E1 E2]; rewrite E1 in E2; discriminate].
          rewrite Heq. unfold current_type, current_token. rewrite Hin. reflexivity.
        * set (st1 := emit st (removelast (stack st)) rest ("匹配 " ++ top)).
          apply (IH1 (input_measure sql_analyzer st1)) with (n2 := stack_rank (stack st1));
            [|reflexivity|reflexivity|].
          -- pose proof (match_pending_le sql_analyzer st1) as Hle.
             unfold input_measure in *. unfold st1 at 1. simpl input_tokens.
             rewrite <- H1, Hin. simpl length. lia.
          -- unfold st1. simpl stack. rewrite Hrm. exact Hokb.
    - destruct (engine_iteration_mismatch sql_analyzer st top Hlast Hacc Hterm Hneq)
        as (st' & ret & Hit).
      eapply terminates_return; eassumption. }
  destruct (decide (top ∈ non_terminals sql_analyzer)) as [Hnt|Hnt].
  2:{ destruct (engine_iteration_unknown sql_analyzer st top Hlast Hacc Hterm Hnt)
        as (st' & ret & Hit).
      eapply terminates_return; eassumption. }
  destruct (sql_row_exists top Hnt) as [row Hrow].
  destruct (row !! current_type st) as [[p|]|] eqn:Hcell.
  2:{ eapply terminates_return; [exact Hne|].
      apply (engine_iteration_no_entry sql_analyzer st top row); auto. }
  2:{ eapply terminates_return; [exact Hne|].
      apply (engine_iteration_no_entry sql_analyzer st top row); auto. }
  assert (Hlk : lookup_cell sql_analyzer top (current_type st) = Some (Some p)).
  { apply lookup_cell_Some. eauto. }
  destruct (sql_entry_fit _ _ _ Hlk) as [Hp Hfit].
  eapply terminates_next; [exact Hne| |].
  { apply (engine_iteration_expand sql_analyzer st top p); assumption. }
  match goal with |- terminates _ ?s => set (st1 := s) end.
  assert (Hstk1 : stack st1 = (base ++ rev p)%list).
  { unfold st1. simpl stack. rewrite Hrm. reflexivity. }
  assert (Hok1 : Forall (fun s => s <> "EOF") (stack st1)).
  { rewrite Hstk1. apply Forall_app. split; [exact Hokb|]. apply Forall_rev, Hp. }
  assert (Hb : match_pending sql_analyzer st = 1).
  { unfold match_pending. rewrite Hlast. rewrite decide_False; [reflexivity|].
    intros [_ E]. contradiction. }
  assert (Hcur1 : current_type st1 = current_type st) by reflexivity.
  assert (Hlen1 : length (input_tokens st1) = length (input_tokens st)) by reflexivity.
  destruct Hfit as [(p' & -> & Hcin) | Hrank].
  - apply (IH1 (input_measure sql_analyzer st1)) with (n2 := stack_rank (stack st1));
      [|reflexivity|reflexivity|exact Hok1].
    assert (Hb1 : match_pending sql_analyzer st1 = 0).
    { unfold match_pending. rewrite Hstk1. simpl rev.
      rewrite app_assoc, last_snoc. rewrite Hcur1.
      rewrite decide_True; [reflexivity|]. split; [reflexivity|exact Hcin]. }
    unfold input_measure in *. rewrite Hb1, Hlen1. lia.
  - pose proof (match_pending_le sql_analyzer st1) as Hle.
    assert (Hm : input_measure sql_analyzer st1 <= n1).
    { unfold input_measure in *. rewrite Hlen1. lia. }
    assert (Hr : stack_rank (stack st1) < n2).
    { rewrite Hstk1, stack_rank_app, stack_rank_rev.
      rewrite <- H2, Hstk, stack_rank_app.
      assert (E : stack_rank [top] = rank top) by (unfold stack_rank; simpl; lia).
      rewrite E. lia. }
    destruct (decide (input_measure sql_analyzer st1 = n1)) as [Heq|Hlt].
    + apply (IH2 _ Hr st1 Heq eq_refl Hok1).
    + apply (IH1 (input_measure sql_analyzer st1)) with (n2 := stack_rank (stack st1));
        [lia|reflexivity|reflexivity|exact Hok1].
Qed.

(** X1: The engine returns on every token list: with enough fuel it gives a
    trace or an error record, and more fuel does not change the answer. *)
Lemma sql_engine_terminates tokens :
  exists fuel trace, forall k,
    (analyze_tokens (fuel + k) tokens sql_analyzer).2 = Ok trace.
Proof.
  destruct tokens as [|t tokens].
  - exists 0. eexists. intros k. reflexivity.
  - destruct (sql_engine_terminates_from _ _
                (engine_start sql_analyzer (t :: tokens)) eq_refl eq_refl)
      as (fuel & ex & H).
    + repeat constructor; discriminate.
    + exists fuel, (returned_value ex). intros k.
      unfold analyze_tokens. cbn [snd]. rewrite H. reflexivity.
Qed.

(** ** The step column of a trace *)

Lemma engine_iteration_break self st st' :
  engine_iteration self st = Break st' ->
  exists r, output st' = (output st ++ [r])%list /\ tr_step r = S (step st).
Proof.
  unfold engine_iteration. intros H.
  repeat match type of H with
         | match ?x with _ => _ end = _ => destruct x; try discriminate
         | (let _ := _ in _) = _ => simpl in H
         end;
    injection H as <-; eexists; (split; [reflexivity|]); reflexivity.
Qed.

Lemma steps_snoc (out : list TraceRecord) r :
  tr_step <$> out = seq 1 (length out) -> tr_step r = S (length out) ->
  tr_step <$> (out ++ [r])%list = seq 1 (length (out ++ [r])%list).
Proof.
  intros Ho Hr. rewrite fmap_app, length_app, Ho. simpl.
  rewrite Nat.add_1_r, seq_S, Hr. reflexivity.
Qed.

Lemma engine_loop_steps fuel self st ex :
  engine_loop fuel self st = Ok ex ->
  step st = length (output st) ->
  tr_step <$> output st = seq 1 (length (output st)) ->
  tr_step <$> returned_value ex = seq 1 (length (returned_value ex)).
Proof.
  revert st. induction fuel as [|fuel IH]; intros st H Hs Ho; [discriminate|].
  simpl in H. destruct (stack st) as [|x l] eqn:E.
  { injection H as <-. exact Ho. }
  destruct (engine_iteration self st) as [st1|st1|st1 ret1|e] eqn:Hit; try discriminate.
  - apply engine_iteration_next in Hit as (Hs1 & r & Ho1 & Hr).
    apply (IH st1 H).
    + rewrite Hs1, Ho1, length_app, Hs. simpl. lia.
    + rewrite Ho1. apply steps_snoc; [exact Ho|]. rewrite Hr, Hs. reflexivity.
  - injection H as <-. apply engine_iteration_break in Hit as (r & Ho1 & Hr).
    simpl. rewrite Ho1. apply steps_snoc; [exact Ho|]. rewrite Hr, Hs. reflexivity.
  - injection H as <-. apply engine_iteration_return in Hit as (_ & r & _ & _ & _ & ->).
    reflexivity.
Qed.

(** X2: Whatever [analyze_tokens] returns, an accepting trace, the single
    record of a failure or the record of the empty input, its step column
    counts 1, 2, 3, ... without gap or repetition. *)
Theorem trace_steps_count_from_one fuel tokens self trace :
  (analyze_tokens fuel tokens self).2 = Ok trace ->
  tr_step <$> trace = seq 1 (length trace).
Proof.
  destruct tokens as [|t tokens]; simpl.
  - intros H. injection H as <-. reflexivity.
  - destruct (engine_loop fuel self (engine_start self (t :: tokens))) as [ex| |] eqn:E;
      simpl; try discriminate.
    intros H. injection H as <-.
    apply (engine_loop_steps _ _ _ _ E); reflexivity.
Qed.

Lemma delete_from_t_traced :
  (analyze_tokens 20 tokens_delete_from_t sql_analyzer).2 = Ok delete_from_t_trace.
Proof. vm_compute. reflexivity. Qed.

Lemma trace_steps_count_from_one_witness :
  (analyze_tokens 20 tokens_delete_from_t sql_analyzer).2 = Ok delete_from_t_trace /\
  tr_step <$> delete_from_t_trace = seq 1 (length delete_from_t_trace).
Proof.
  split; [exact delete_from_t_traced|].
  apply (trace_steps_count_from_one 20 tokens_delete_from_t sql_analyzer).
  exact delete_from_t_traced.
Defined.

(** ** The cells of the prediction table and the fill rules *)

Lemma collect_inner {A B} (f : A -> result (list B)) xs acc r :
  for_each (fun acc' x => let* ws := f x in Ok (acc' ++ ws)%list) xs acc = Ok r ->
  (forall x, x ∈ xs -> exists ws, f x = Ok ws) /\
  forall b, b ∈ r <-> b ∈ acc \/ exists x ws, x ∈ xs /\ f x = Ok ws /\ b ∈ ws.
Proof.
  revert acc. induction xs as [|x xs IH]; intros acc H; simpl in H.
  - injection H as <-. split; [intros x Hx; inversion Hx|].
    intros b. split; [auto|]. intros [Hb|(x & ws & Hx & _)]; [exact Hb|inversion Hx].
  - destruct (f x) as [ws| |] eqn:E; simpl in H; try discriminate.
    destruct (IH _ H) as [Hall Hmem]. split.
    + intros y Hy. apply elem_of_cons in Hy as [->|Hy]; [eauto|auto].
    + intros b. rewrite Hmem, elem_of_app. split.
      * intros [[Hb|Hb]|(y & ws' & Hy & Hf & Hb)]; [auto| |].
        -- right. exists x, ws. split; [left|]. auto.
        -- right. exists y, ws'. split; [right; exact Hy|]. auto.
      * intros [Hb|(y & ws' & Hy & Hf & Hb)]; [auto|].
        apply elem_of_cons in Hy as [->|Hy].
        -- rewrite E in Hf. injection Hf as <-. auto.
        -- right. exists y, ws'. auto.
Qed.

Lemma collect_outer {A B C} (f : A -> C -> result (list B))
    (items : list (A * list C)) acc r :
  for_each (fun acc0 (item : A * list C) =>
              for_each (fun acc' x => let* ws := f item.1 x in Ok (acc' ++ ws)%list)
                       item.2 acc0) items acc = Ok r ->
  (forall a xs x, (a, xs) ∈ items -> x ∈ xs -> exists ws, f a x = Ok ws) /\
  forall b, b ∈ r <->
            b ∈ acc \/ exists a xs x ws, (a, xs) ∈ items /\ x ∈ xs /\
                                         f a x = Ok ws /\ b ∈ ws.
Proof.
  revert acc. induction items as [|[a xs] items IH]; intros acc H; simpl in H.
  - injection H as <-. split; [intros a xs x Hx; inversion Hx|].
    intros b. split; [auto|]. intros [Hb|(a & xs & x & ws & Hx & _)]; [exact Hb|inversion Hx].
  - destruct (for_each _ xs acc) as [r1| |] eqn:E; simpl in H; try discriminate.
    apply collect_inner in E as [Hall1 Hmem1].
    destruct (IH _ H) as [Hall Hmem]. split.
    + intros a' xs' x Hi Hx. apply elem_of_cons in Hi as [Hi|Hi]; [|eauto].
      injection Hi as -> ->. auto.
    + intros b. rewrite Hmem, Hmem1. split.
      * intros [[Hb|(x & ws & Hx & Hf & Hb)]|(a' & xs' & x & ws & Hi & Hx & Hf & Hb)];
          [auto| |].
        -- right. exists a, xs, x, ws. split; [left|]. auto.
        -- right. exists a', xs', x, ws. split; [right; exact Hi|]. auto.
      * intros [Hb|(a' & xs' & x & ws & Hi & Hx & Hf & Hb)]; [auto|].
        apply elem_of_cons in Hi as [Hi|Hi].
        -- injection Hi as -> ->. left. right. eauto.
        -- right. exists a', xs', x, ws. auto.
Qed.

Lemma production_writes_rule self nt production ws t p :
  production_writes self nt production = Ok ws ->
  (nt, t, p) ∈ ws <->
  exists first, _first_of_sequence self production = Ok first /\
    ((p = production /\ t ∈ first /\ t <> eps) \/
     (p = [] /\ eps ∈ first /\
      exists follow, follow_sets self !! nt = Some follow /\ t ∈ follow)).
Proof.
  unfold production_writes.
  destruct (_first_of_sequence self production) as [first| |]; simpl; try discriminate.
  assert (Hf : forall q : list string,
            (nt, t, p) ∈ (fun terminal : string => (nt, terminal, q))
                           <$> elements (first ∖ {[eps]})
            <-> p = q /\ t ∈ first /\ t <> eps).
  { intros q. rewrite list_elem_of_fmap. split.
    - intros (x & [= -> ->] & Hx). apply elem_of_elements, elem_of_difference in Hx as [H1 H2].
      rewrite not_elem_of_singleton in H2. auto.
    - intros (-> & H1 & H2). exists t. split; [reflexivity|].
      apply elem_of_elements, elem_of_difference. rewrite not_elem_of_singleton. auto. }
  destruct (decide (eps ∈ first)) as [He|He].
  - unfold getitem. destruct (follow_sets self !! nt) as [follow|]; simpl; [|discriminate].
    intros [= <-]. rewrite elem_of_app, Hf, list_elem_of_fmap. split.
    + intros [H|(x & [= -> ->] & Hx)]; exists first; (split; [reflexivity|]); [left; exact H|].
      right. split; [reflexivity|]. split; [exact He|]. exists follow.
      split; [reflexivity|]. apply elem_of_elements, Hx.
    + intros (first' & [= <-] & [H|(-> & _ & follow' & [= <-] & Ht)]); [left; exact H|].
      right. exists t. split; [reflexivity|]. apply elem_of_elements, Ht.
  - intros [= <-]. rewrite Hf. split.
    + intros H. exists first. split; [reflexivity|]. left; exact H.
    + intros (first' & [= <-] & [H|(_ & He' & _)]); [exact H|contradiction].
Qed.

Lemma production_writes_nt self nt production ws w :
  production_writes self nt production = Ok ws -> w ∈ ws -> w.1.1 = nt.
Proof.
  unfold production_writes.
  destruct (_first_of_sequence self production) as [first| |]; simpl; try discriminate.
  destruct (decide (eps ∈ first)).
  - destruct (getitem (follow_sets self) nt); simpl; try discriminate.
    intros [= <-] Hw. apply elem_of_app in Hw as [Hw|Hw];
      apply list_elem_of_fmap in Hw as (x & -> & _); reflexivity.
  - intros [= <-] Hw. apply list_elem_of_fmap in Hw as (x & -> & _); reflexivity.
Qed.

Lemma table_writes_rule self ws nt t p :
  table_writes self = Ok ws -> (nt, t, p) ∈ ws <-> fill_rule self nt t p.
Proof.
  intros H. unfold table_writes in H.
  apply (collect_outer (production_writes self)) in H as [Hall Hmem].
  rewrite Hmem. split.
  - intros [Hn|(a & xs & x & ws' & Hi & Hx & Hf & Hb)]; [inversion Hn|].
    pose proof (production_writes_nt _ _ _ _ _ Hf Hb) as E. simpl in E. subst a.
    apply (production_writes_rule _ _ _ _ _ _ Hf) in Hb as (first & H1 & H2).
    exists xs, x, first. auto.
  - intros (xs & x & first & Hi & Hx & H1 & H2). right.
    destruct (Hall nt xs x Hi Hx) as [ws' Hf]. exists nt, xs, x, ws'.
    repeat split; auto. apply (production_writes_rule _ _ _ _ _ _ Hf). eauto.
Qed.

Lemma conflicts_nil_NoDup seen ws :
  conflicts seen ws = [] ->
  NoDup (write_cell <$> ws) /\ forall c, c ∈ seen -> c ∉ write_cell <$> ws.
Proof.
  revert seen. induction ws as [|w ws IH]; intros seen H.
  - split; [constructor|]. intros c _ Hc. inversion Hc.
  - simpl in H. destruct (decide (write_cell w ∈ seen)) as [Hin|Hin]; [discriminate|].
    simpl in H. destruct (IH _ H) as [Hnd Hs]. split.
    + rewrite fmap_cons. apply NoDup_cons. split; [|exact Hnd].
      apply Hs. apply elem_of_union. left. apply elem_of_singleton. reflexivity.
    + intros c Hc. rewrite fmap_cons. intros Hc'. apply elem_of_cons in Hc' as [->|Hc'].
      * contradiction.
      * apply (Hs c); [|exact Hc']. apply elem_of_union. right. exact Hc.
Qed.

Lemma writes_to_absent ws nt t :
  (nt, t) ∉ write_cell <$> ws -> writes_to ws nt t = [].
Proof.
  induction ws as [|w ws IH]; intros H; [reflexivity|].
  rewrite writes_to_cons. rewrite fmap_cons in H.
  apply not_elem_of_cons in H as [H1 H2].
  rewrite decide_False by (intros E; apply H1; symmetry; exact E).
  simpl. apply IH, H2.
Qed.

Lemma writes_to_single ws nt t p :
  NoDup (write_cell <$> ws) -> (nt, t, p) ∈ ws -> writes_to ws nt t = [p].
Proof.
  induction ws as [|w ws IH]; intros Hnd Hin; [inversion Hin|].
  rewrite fmap_cons in Hnd. apply NoDup_cons in Hnd as [Hw Hnd].
  rewrite writes_to_cons. apply elem_of_cons in Hin as [<-|Hin].
  - rewrite decide_True by reflexivity. simpl. f_equal.
    apply writes_to_absent. exact Hw.
  - rewrite decide_False; [simpl; apply IH; assumption|].
    intros E. apply Hw. rewrite E. apply list_elem_of_fmap.
    exists (nt, t, p). split; [reflexivity|exact Hin].
Qed.

(** X3: Every production that the finished table holds was put there by one of
    the two fill rules: it is a production of that non-terminal, filed
    under a member of its FIRST, or it is the empty list filed under a
    member of FOLLOW for a production whose FIRST has ['ε'].  When no
    conflict warning was printed the converse holds too: the table holds
    every entry that the fill rules call for. *)
Theorem table_cells_follow_fill_rules self self' printed nt t p :
  parsing_table self = ∅ ->
  _build_parsing_table self = Ok (self', printed) ->
  (lookup_cell self' nt t = Some (Some p) -> fill_rule self nt t p) /\
  (printed = [] -> fill_rule self nt t p -> lookup_cell self' nt t = Some (Some p)).
Proof.
  intros He Hb.
  destruct (build_table_replay self self' printed He Hb)
    as (ws & Hws & Hlast & Hnone & Hpr).
  split.
  - intros H. apply (table_writes_rule self ws nt t p Hws).
    destruct (last_write ws nt t) as [q|] eqn:E.
    + rewrite (Hlast nt t q E) in H. injection H as <-. apply last_write_elem, E.
    + unfold last_write in E. apply last_None in E.
      rewrite (Hnone nt t E), (init_table_empty _ _ _ He) in H.
      destruct (decide (nt ∈ non_terminals self)); [|discriminate].
      destruct (decide (t ∈ terminals self)); discriminate.
  - intros -> Hr. apply (table_writes_rule self ws nt t p Hws) in Hr.
    symmetry in Hpr. apply conflicts_nil_NoDup in Hpr as [Hnd _].
    apply Hlast. unfold last_write. rewrite (writes_to_single ws nt t p Hnd Hr).
    reflexivity.
Qed.

Lemma sql_cell_Expr_ID : lookup_cell sql_analyzer "Expr" "ID" = Some (Some ["ID"]).
Proof. vm_compute. reflexivity. Qed.

Lemma table_cells_follow_fill_rules_witness :
  fill_rule sql_before_table "Expr" "ID" ["ID"].
Proof.
  apply (table_cells_follow_fill_rules sql_before_table sql_analyzer [] "Expr" "ID" ["ID"]
           sql_before_table_empty sql_table_built).
  exact sql_cell_Expr_ID.
Defined.

Lemma within_minus_eps (fs T : gset string) (x : string) :
  fs ⊆ T ∪ {[eps]} -> fs ∖ {[eps]} ⊆ T ∪ {[x]}.
Proof.
  intros H y Hy. apply elem_of_difference in Hy as [Hy Hne].
  apply H, elem_of_union in Hy as [Hy|Hy]; [|contradiction].
  apply elem_of_union_l, Hy.
Qed.

Lemma within_no_eps (fs T : gset string) (x : string) :
  fs ⊆ T ∪ {[eps]} -> eps ∉ fs -> fs ⊆ T ∪ {[x]}.
Proof.
  intros H He y Hy. pose proof (H y Hy) as Hy'.
  apply elem_of_union in Hy' as [Hy'|Hy']; [apply elem_of_union_l, Hy'|].
  apply elem_of_singleton in Hy'. subst y. contradiction.
Qed.

Lemma within_terminal (T : gset string) (symbol x : string) :
  symbol ∈ T -> ({[symbol]} : gset string) ⊆ T ∪ {[x]}.
Proof. intros H. apply singleton_subseteq_l, elem_of_union_l, H. Qed.

Lemma within_marker (T : gset string) (x : string) : ({[x]} : gset string) ⊆ T ∪ {[x]}.
Proof. apply union_subseteq_r. Qed.

(** ** What FIRST and FOLLOW sets are made of *)

Lemma for_each_inv {A S} (P : S -> Prop) (body : S -> A -> result S) xs s s' :
  (forall s0 x s1, body s0 x = Ok s1 -> P s0 -> P s1) ->
  for_each body xs s = Ok s' -> P s -> P s'.
Proof.
  intros Hb. revert s. induction xs as [|x xs IH]; intros s H Hs; simpl in H.
  - injection H as <-. exact Hs.
  - destruct (body s x) as [s1| |] eqn:E; simpl in H; try discriminate.
    apply (IH _ H). apply (Hb _ _ _ E Hs).
Qed.

Lemma sets_within_insert m keys bound k old X :
  sets_within m keys bound -> m !! k = Some old -> X ⊆ bound ->
  sets_within (<[k := old ∪ X]> m) keys bound.
Proof.
  intros Hm Hk HX k' s. destruct (decide (k' = k)) as [->|Hne].
  - rewrite lookup_insert_eq. intros [= <-]. destruct (Hm _ _ Hk) as [H1 H2].
    split; [exact H1|]. apply union_least; [exact H2|exact HX].
  - rewrite lookup_insert_ne by auto. apply Hm.
Qed.

Lemma first_update_ok T N nt X self self' :
  first_update nt X self = Ok self' -> first_ok T N self -> X ⊆ T ∪ {[eps]} ->
  first_ok T N self'.
Proof.
  unfold first_update, getitem.
  destruct (first_sets self !! nt) as [old|] eqn:E; simpl; [|discriminate].
  intros [= <-] (HT & HN & Hs) HX. split; [exact HT|]. split; [exact HN|].
  simpl. apply (sets_within_insert _ _ _ _ _ _ Hs E HX).
Qed.

Lemma add_first_loop_ok T N nt len i syms self self' :
  add_first_loop nt len i syms self = Ok self' -> first_ok T N self -> first_ok T N self'.
Proof.
  revert i self. induction syms as [|symbol rest IH]; intros i self H Hok; simpl in H.
  - injection H as <-. exact Hok.
  - destruct (decide (symbol ∈ terminals self)) as [Hin|_].
    { apply (first_update_ok _ _ _ _ _ _ H Hok).
      destruct Hok as (HT & _). rewrite HT in Hin. apply within_terminal, Hin. }
    destruct (decide (symbol ∈ non_terminals self)); [|apply (IH _ _ H Hok)].
    unfold getitem at 1 in H.
    destruct (first_sets self !! symbol) as [fs|] eqn:Efs; simpl in H; [|discriminate].
    destruct (first_update nt (fs ∖ {[eps]}) self) as [self1| |] eqn:E1;
      simpl in H; try discriminate.
    assert (Hok1 : first_ok T N self1).
    { apply (first_update_ok _ _ _ _ _ _ E1 Hok).
      destruct Hok as (_ & _ & Hs). destruct (Hs _ _ Efs) as [_ Hfs]. apply within_minus_eps, Hfs. }
    destruct (getitem _ symbol) as [fs'| |]; simpl in H; try discriminate.
    destruct (decide (eps ∉ fs')); [injection H as <-; exact Hok1|].
    destruct (decide (i = len - 1)).
    + destruct (first_update nt {[eps]} self1) as [self2| |] eqn:E2;
        simpl in H; try discriminate.
      apply (IH _ _ H). apply (first_update_ok _ _ _ _ _ _ E2 Hok1). apply within_marker.
    + simpl in H. apply (IH _ _ H Hok1).
Qed.

Lemma add_first_of_production_ok T N nt production self self' :
  _add_first_of_production nt production self = Ok self' ->
  first_ok T N self -> first_ok T N self'.
Proof.
  unfold _add_first_of_production. destruct production as [|s production].
  - intros H Hok. apply (first_update_ok _ _ _ _ _ _ H Hok). apply within_marker.
  - apply add_first_loop_ok.
Qed.

Lemma first_sweep_ok T N self self' changed :
  first_sweep self = Ok (self', changed) -> first_ok T N self -> first_ok T N self'.
Proof.
  unfold first_sweep. intros H Hok.
  apply (for_each_inv (fun st : SyntaxAnalyzer * bool => first_ok T N st.1)) in H;
    [exact H| |exact Hok].
  intros s0 [nt ps] s1 H1 Hs0. simpl in H1.
  apply (for_each_inv (fun st : SyntaxAnalyzer * bool => first_ok T N st.1)) in H1;
    [exact H1| |exact Hs0].
  intros s2 production s3. unfold first_sweep_production.
  destruct (getitem _ nt); simpl; try discriminate.
  destruct (_add_first_of_production nt production s2.1) as [s4| |] eqn:E; simpl;
    try discriminate.
  destruct (getitem _ nt); simpl; try discriminate.
  intros [= <-] Hs2. simpl. apply (add_first_of_production_ok _ _ _ _ _ _ E Hs2).
Qed.

Lemma first_while_ok T N fuel self self' :
  first_while fuel self = Ok self' -> first_ok T N self -> first_ok T N self'.
Proof.
  revert self. induction fuel as [|fuel IH]; intros self H Hok; [discriminate|].
  simpl in H. destruct (first_sweep self) as [[s1 ch]| |] eqn:E; simpl in H;
    try discriminate.
  apply first_sweep_ok with (T := T) (N := N) in E; [|exact Hok].
  destruct ch; [apply (IH _ H E)|injection H as <-; exact E].
Qed.

Lemma sets_within_init keys bound :
  sets_within (gset_to_gmap (∅ : gset string) keys) keys bound.
Proof.
  intros k s H. apply lookup_gset_to_gmap_Some in H as [Hk <-].
  split; [exact Hk|apply empty_subseteq].
Qed.

Lemma compute_first_sets_ok fuel self self' :
  _compute_first_sets fuel self = Ok self' ->
  first_ok (terminals self) (non_terminals self) self'.
Proof.
  unfold _compute_first_sets. intros H. apply (first_while_ok _ _ _ _ _ H).
  split; [reflexivity|]. split; [reflexivity|]. simpl. apply sets_within_init.
Qed.

(** *** FOLLOW *)

Lemma first_of_sequence_loop_ok T N self len i syms acc r :
  first_of_sequence_loop self len i syms acc = Ok r ->
  first_ok T N self -> acc ⊆ T ∪ {[eps]} -> r ⊆ T ∪ {[eps]}.
Proof.
  revert i acc. induction syms as [|symbol rest IH]; intros i acc H Hok Hacc; simpl in H.
  - injection H as <-. exact Hacc.
  - destruct (decide (symbol ∈ terminals self)) as [Hin|_].
    { injection H as <-. destruct Hok as (HT & _). rewrite HT in Hin. apply union_least; [exact Hacc|apply within_terminal, Hin]. }
    destruct (decide (symbol ∈ non_terminals self)); [|apply (IH _ _ H Hok Hacc)].
    unfold getitem in H.
    destruct (first_sets self !! symbol) as [fs|] eqn:Efs; simpl in H; [|discriminate].
    assert (Hfs : fs ⊆ T ∪ {[eps]}).
    { destruct Hok as (_ & _ & Hs). apply (Hs _ _ Efs). }
    destruct (decide (eps ∉ fs)); [injection H as <-; apply union_least; [exact Hacc|apply within_minus_eps, Hfs]|].
    apply (IH _ _ H Hok). destruct (decide (i = len - 1)); repeat apply union_least; auto using within_minus_eps, within_marker.
Qed.

Lemma first_of_sequence_ok T N self sequence r :
  _first_of_sequence self sequence = Ok r -> first_ok T N self -> r ⊆ T ∪ {[eps]}.
Proof.
  unfold _first_of_sequence. destruct sequence as [|s sequence].
  - intros [= <-] _. apply within_marker.
  - intros H Hok. apply (first_of_sequence_loop_ok _ _ _ _ _ _ _ _ H Hok). apply empty_subseteq.
Qed.

Lemma follow_update_ok T N nt X self self' :
  follow_update nt X self = Ok self' -> follow_ok T N self -> X ⊆ T ∪ {["$"]} ->
  follow_ok T N self'.
Proof.
  unfold follow_update, getitem.
  destruct (follow_sets self !! nt) as [old|] eqn:E; simpl; [|discriminate].
  intros [= <-] [Hf Hs] HX. split; [exact Hf|]. simpl.
  apply (sets_within_insert _ _ _ _ _ _ Hs E HX).
Qed.

Lemma follow_lookup_ok T N self nt fs :
  follow_ok T N self -> getitem (follow_sets self) nt = Ok fs -> fs ⊆ T ∪ {["$"]}.
Proof.
  intros [_ Hs]. unfold getitem.
  destruct (follow_sets self !! nt) as [s|] eqn:E; [|discriminate].
  intros [= <-]. apply (Hs _ _ E).
Qed.

Lemma add_follow_loop_ok T N nt syms st st' :
  add_follow_loop nt syms st = Ok st' -> follow_ok T N st.1 -> follow_ok T N st'.1.
Proof.
  revert st. induction syms as [|symbol remaining IH]; intros st H Hok; simpl in H.
  - injection H as <-. exact Hok.
  - destruct (decide (symbol ∈ non_terminals st.1)); [|apply (IH _ H Hok)].
    destruct (getitem (follow_sets st.1) symbol) as [before| |]; simpl in H;
      try discriminate.
    match type of H with
    | bind ?m _ = _ => destruct m as [self1| |] eqn:E1; simpl in H; try discriminate
    end.
    assert (Hok1 : follow_ok T N self1).
    { destruct remaining as [|r remaining'].
      - destruct (getitem (follow_sets st.1) nt) as [fnt| |] eqn:En; simpl in E1;
          try discriminate.
        apply (follow_update_ok _ _ _ _ _ _ E1 Hok), (follow_lookup_ok _ _ _ _ _ Hok En).
      - destruct (_first_of_sequence st.1 (r :: remaining')) as [fr| |] eqn:Ef;
          simpl in E1; try discriminate.
        pose proof (first_of_sequence_ok T N _ _ _ Ef (proj1 Hok)) as Hfr.
        destruct (decide (eps ∈ fr)).
        + destruct (getitem (follow_sets st.1) nt) as [fnt| |] eqn:En; simpl in E1;
            try discriminate.
          destruct (follow_update symbol fnt st.1) as [self0| |] eqn:E0;
            simpl in E1; try discriminate.
          apply (follow_update_ok _ _ _ _ _ _ E1); [|apply within_minus_eps, Hfr].
          apply (follow_update_ok _ _ _ _ _ _ E0 Hok), (follow_lookup_ok _ _ _ _ _ Hok En).
        + apply (follow_update_ok _ _ _ _ _ _ E1 Hok). apply within_no_eps; assumption. }
    destruct (getitem _ symbol); simpl in H; try discriminate.
    apply (IH _ H Hok1).
Qed.

Lemma follow_sweep_ok T N self self' changed :
  follow_sweep self = Ok (self', changed) -> follow_ok T N self -> follow_ok T N self'.
Proof.
  unfold follow_sweep. intros H Hok.
  apply (for_each_inv (fun st : SyntaxAnalyzer * bool => follow_ok T N st.1)) in H;
    [exact H| |exact Hok].
  intros s0 [nt ps] s1 H1 Hs0. simpl in H1.
  apply (for_each_inv (fun st : SyntaxAnalyzer * bool => follow_ok T N st.1)) in H1;
    [exact H1| |exact Hs0].
  intros s2 production s3. unfold _add_follow_of_production.
  destruct (add_follow_loop nt production (s2.1, false)) as [[s4 ch]| |] eqn:E; simpl;
    try discriminate.
  intros [= <-] Hs2. apply (add_follow_loop_ok _ _ _ _ _ _ E Hs2).
Qed.

Lemma follow_while_ok T N fuel self self' :
  follow_while fuel self = Ok self' -> follow_ok T N self -> follow_ok T N self'.
Proof.
  revert self. induction fuel as [|fuel IH]; intros self H Hok; [discriminate|].
  simpl in H. destruct (follow_sweep self) as [[s1 ch]| |] eqn:E; simpl in H;
    try discriminate.
  apply follow_sweep_ok with (T := T) (N := N) in E; [|exact Hok].
  destruct ch; [apply (IH _ H E)|injection H as <-; exact E].
Qed.

Lemma compute_follow_sets_ok T N fuel self self' :
  _compute_follow_sets fuel self = Ok self' -> first_ok T N self -> follow_ok T N self'.
Proof.
  unfold _compute_follow_sets. intros H Hok.
  destruct (follow_update "Prog" _ _) as [self1| |] eqn:E; simpl in H; try discriminate.
  apply (follow_while_ok _ _ _ _ _ H).
  apply (follow_update_ok _ _ _ _ _ _ E); [|apply within_marker].
  split; [exact Hok|]. simpl. destruct Hok as (_ & <- & _). apply sets_within_init.
Qed.

(** X4: After the two fixpoint computations of the constructor, the keys of
    [first_sets] and of [follow_sets] are non-terminals of the grammar,
    every FIRST set is made of terminals and ['ε'], and every FOLLOW set
    is made of terminals and ['$']: ['ε'] never enters a FOLLOW set. *)
Theorem first_and_follow_hold_terminals fuel1 fuel2 self self1 self2 :
  _compute_first_sets fuel1 self = Ok self1 ->
  _compute_follow_sets fuel2 self1 = Ok self2 ->
  sets_within (first_sets self2) (non_terminals self) (terminals self ∪ {[eps]}) /\
  sets_within (follow_sets self2) (non_terminals self) (terminals self ∪ {["$"]}).
Proof.
  intros H1 H2. apply compute_first_sets_ok in H1.
  apply (compute_follow_sets_ok _ _ _ _ _ H2) in H1 as [(_ & _ & Hf) Hw]. auto.
Qed.

Lemma sql_after_first_ok :
  _compute_first_sets 3 (new_analyzer sql_grammar sql_terminals sql_token_to_terminal)
  = Ok sql_after_first.
Proof. apply result_is_Ok. vm_compute. reflexivity. Qed.

Lemma sql_after_follow_ok : _compute_follow_sets 3 sql_after_first = Ok sql_before_table.
Proof.
  pose proof sql_before_table_ok as H. rewrite sql_after_first_ok in H. exact H.
Qed.

Lemma first_and_follow_hold_terminals_witness :
  sets_within (first_sets sql_before_table)
    (non_terminals (new_analyzer sql_grammar sql_terminals sql_token_to_terminal))
    (terminals (new_analyzer sql_grammar sql_terminals sql_token_to_terminal) ∪ {[eps]}) /\
  sets_within (follow_sets sql_before_table)
    (non_terminals (new_analyzer sql_grammar sql_terminals sql_token_to_terminal))
    (terminals (new_analyzer sql_grammar sql_terminals sql_token_to_terminal) ∪ {["$"]}).
Proof.
  apply (first_and_follow_hold_terminals 3 3
           (new_analyzer sql_grammar sql_terminals sql_token_to_terminal)
           sql_after_first sql_before_table).
  - exact sql_after_first_ok.
  - exact sql_after_follow_ok.
Defined.

(** ** The fixpoint loops stop on closed sets *)

Lemma set_first_sets_id self : set_first_sets (first_sets self) self = self.
Proof. destruct self; reflexivity. Qed.

Lemma set_follow_sets_id self : set_follow_sets (follow_sets self) self = self.
Proof. destruct self; reflexivity. Qed.

Lemma first_update_grow nt s self self' :
  first_update nt s self = Ok self' -> self' = grow_first nt s self.
Proof.
  unfold first_update, getitem, grow_first.
  destruct (first_sets self !! nt); simpl; [|discriminate]. intros [= <-]. reflexivity.
Qed.

Lemma first_update_Some nt s self self' :
  first_update nt s self = Ok self' -> is_Some (first_sets self !! nt).
Proof.
  unfold first_update, getitem.
  destruct (first_sets self !! nt); simpl; [eauto|discriminate].
Qed.

Lemma grow_first_grow nt X Y self :
  grow_first nt Y (grow_first nt X self) = grow_first nt (X ∪ Y) self.
Proof.
  unfold grow_first, set_first_sets. simpl. rewrite lookup_insert_eq. simpl.
  rewrite insert_insert_eq, (assoc_L (∪)). reflexivity.
Qed.

Lemma grow_first_same nt X self old :
  first_sets self !! nt = Some old -> old ∪ X = old -> grow_first nt X self = self.
Proof.
  intros Hl HX. unfold grow_first. rewrite Hl. simpl. rewrite HX.
  rewrite insert_id by exact Hl. apply set_first_sets_id.
Qed.

Lemma grow_first_lookup nt X self :
  first_sets (grow_first nt X self) !! nt
  = Some (default ∅ (first_sets self !! nt) ∪ X).
Proof. unfold grow_first. simpl. apply lookup_insert_eq. Qed.

Lemma add_first_loop_grows nt len i syms self self' :
  add_first_loop nt len i syms self = Ok self' ->
  is_Some (first_sets self !! nt) ->
  exists X, self' = grow_first nt X self.
Proof.
  revert i self. induction syms as [|symbol rest IH]; intros i self H [old Hold]; simpl in H.
  - injection H as <-. exists ∅. symmetry. apply (grow_first_same _ _ _ old Hold).
    apply (right_id_L ∅ (∪)).
  - destruct (decide (symbol ∈ terminals self)).
    { apply first_update_grow in H. eauto. }
    destruct (decide (symbol ∈ non_terminals self)); [|apply (IH _ _ H); eauto].
    destruct (getitem (first_sets self) symbol) as [fs| |]; simpl in H; try discriminate.
    destruct (first_update nt (fs ∖ {[eps]}) self) as [self1| |] eqn:E1;
      simpl in H; try discriminate.
    apply first_update_grow in E1. subst self1.
    destruct (getitem _ symbol) as [fs'| |]; simpl in H; try discriminate.
    destruct (decide (eps ∉ fs')); [injection H as <-; eauto|].
    destruct (decide (i = len - 1)).
    + destruct (first_update nt {[eps]} _) as [self2| |] eqn:E2;
        simpl in H; try discriminate.
      apply first_update_grow in E2. subst self2. rewrite grow_first_grow in H.
      apply IH in H as [X ->]; [|rewrite grow_first_lookup; eauto].
      rewrite grow_first_grow. eauto.
    + simpl in H. apply IH in H as [X ->]; [|rewrite grow_first_lookup; eauto].
      rewrite grow_first_grow. eauto.
Qed.

Lemma add_first_of_production_grows nt production self self' :
  _add_first_of_production nt production self = Ok self' ->
  is_Some (first_sets self !! nt) ->
  exists X, self' = grow_first nt X self.
Proof.
  unfold _add_first_of_production. destruct production as [|s production].
  - intros H _. apply first_update_grow in H. eauto.
  - apply add_first_loop_grows.
Qed.

(** A production whose pass leaves the flag [changed] down has left the
    analyzer as it was: the size test detects every change because the
    sets only grow. *)
Lemma first_sweep_production_quiet nt s b production s' :
  first_sweep_production nt (s, b) production = Ok (s', false) ->
  s' = s /\ b = false /\ _add_first_of_production nt production s = Ok s.
Proof.
  unfold first_sweep_production. simpl. unfold getitem at 1.
  destruct (first_sets s !! nt) as [old|] eqn:Hold; simpl; [|discriminate].
  destruct (_add_first_of_production nt production s) as [s1| |] eqn:E;
    simpl; try discriminate.
  destruct (add_first_of_production_grows _ _ _ _ E) as [X ->]; [eauto|].
  unfold getitem. rewrite grow_first_lookup, Hold. simpl.
  destruct (decide (size old < size (old ∪ X))) as [Hlt|Hge]; [discriminate|].
  intros [= <- ->].
  assert (HX : old ∪ X = old).
  { symmetry. apply set_eq. apply set_subseteq_size_equiv; [apply union_subseteq_l|lia]. }
  rewrite (grow_first_same nt X s old Hold HX). auto.
Qed.

Lemma quiet_inner {A S} (body : S * bool -> A -> result (S * bool)) xs s b s' :
  (forall s0 b0 x s1, body (s0, b0) x = Ok (s1, false) -> s1 = s0 /\ b0 = false) ->
  for_each body xs (s, b) = Ok (s', false) ->
  s' = s /\ b = false /\ forall x, x ∈ xs -> body (s, false) x = Ok (s, false).
Proof.
  intros Hq. revert s b. induction xs as [|x xs IH]; intros s b H; simpl in H.
  - injection H as <- ->. repeat split. intros x Hx. inversion Hx.
  - destruct (body (s, b) x) as [[s1 b1]| |] eqn:E; simpl in H; try discriminate.
    destruct (IH _ _ H) as (-> & -> & Hall).
    destruct (Hq _ _ _ _ E) as [-> ->]. repeat split.
    intros y Hy. apply elem_of_cons in Hy as [->|Hy]; [exact E|auto].
Qed.

Lemma first_sweep_quiet self self' :
  first_sweep self = Ok (self', false) ->
  self' = self /\
  forall nt productions production,
    (nt, productions) ∈ grammar self -> production ∈ productions ->
    _add_first_of_production nt production self = Ok self.
Proof.
  unfold first_sweep. intros H.
  apply (quiet_inner
           (fun st (item : string * list (list string)) =>
              for_each (first_sweep_production item.1) item.2 st)) in H
    as (-> & _ & Hall).
  - split; [reflexivity|]. intros nt productions production Hi Hp.
    specialize (Hall _ Hi). simpl in Hall.
    apply (quiet_inner (first_sweep_production nt)) in Hall as (_ & _ & Hall').
    + specialize (Hall' _ Hp). apply first_sweep_production_quiet in Hall'. tauto.
    + intros s0 b0 x s1 Hx. apply first_sweep_production_quiet in Hx. tauto.
  - intros s0 b0 [nt ps] s1 Hx. simpl in Hx.
    apply (quiet_inner (first_sweep_production nt)) in Hx; [tauto|].
    intros s2 b2 x s3 Hx'. apply first_sweep_production_quiet in Hx'. tauto.
Qed.

Lemma first_while_quiet fuel self self' :
  first_while fuel self = Ok self' -> first_sweep self' = Ok (self', false).
Proof.
  revert self. induction fuel as [|fuel IH]; intros self H; [discriminate|].
  simpl in H. destruct (first_sweep self) as [[s1 [|]]| |] eqn:E; simpl in H;
    try discriminate.
  - apply (IH _ H).
  - injection H as <-. destruct (first_sweep_quiet _ _ E) as [-> _]. exact E.
Qed.

(** X5: When [_compute_first_sets] returns, the FIRST sets are closed under
    the rule of every production of the grammar: applying
    [_add_first_of_production] once more, to any production, neither
    raises nor changes anything. *)
Theorem first_sets_are_closed fuel self self' nt productions production :
  _compute_first_sets fuel self = Ok self' ->
  (nt, productions) ∈ grammar self' -> production ∈ productions ->
  _add_first_of_production nt production self' = Ok self'.
Proof.
  unfold _compute_first_sets. intros H.
  apply first_while_quiet, first_sweep_quiet in H as [_ H]. apply H.
Qed.

(** *** FOLLOW *)

Lemma follow_update_grow nt s self self' :
  follow_update nt s self = Ok self' -> self' = grow_follow nt s self.
Proof.
  unfold follow_update, getitem, grow_follow.
  destruct (follow_sets self !! nt); simpl; [|discriminate]. intros [= <-]. reflexivity.
Qed.

Lemma grow_follow_grow nt X Y self :
  grow_follow nt Y (grow_follow nt X self) = grow_follow nt (X ∪ Y) self.
Proof.
  unfold grow_follow, set_follow_sets. simpl. rewrite lookup_insert_eq. simpl.
  rewrite insert_insert_eq, (assoc_L (∪)). reflexivity.
Qed.

Lemma grow_follow_same nt X self old :
  follow_sets self !! nt = Some old -> old ∪ X = old -> grow_follow nt X self = self.
Proof.
  intros Hl HX. unfold grow_follow. rewrite Hl. simpl. rewrite HX.
  rewrite insert_id by exact Hl. apply set_follow_sets_id.
Qed.

Lemma grow_follow_lookup nt X self :
  follow_sets (grow_follow nt X self) !! nt
  = Some (default ∅ (follow_sets self !! nt) ∪ X).
Proof. unfold grow_follow. simpl. apply lookup_insert_eq. Qed.

Lemma add_follow_loop_quiet nt syms s b s' :
  add_follow_loop nt syms (s, b) = Ok (s', false) -> s' = s /\ b = false.
Proof.
  revert s b. induction syms as [|symbol remaining IH]; intros s b H; simpl in H.
  - injection H as <- ->. auto.
  - destruct (decide (symbol ∈ non_terminals s)); [|apply (IH _ _ H)].
    unfold getitem at 1 in H.
    destruct (follow_sets s !! symbol) as [before|] eqn:Hb; simpl in H; [|discriminate].
    match type of H with
    | bind ?m _ = _ => destruct m as [self1| |] eqn:E1; simpl in H; try discriminate
    end.
    assert (Hg : exists X, self1 = grow_follow symbol X s).
    { destruct remaining as [|r remaining'].
      - destruct (getitem (follow_sets s) nt); simpl in E1; try discriminate.
        apply follow_update_grow in E1. eauto.
      - destruct (_first_of_sequence s (r :: remaining')) as [fr| |];
          simpl in E1; try discriminate.
        destruct (decide (eps ∈ fr)).
        + destruct (getitem (follow_sets s) nt); simpl in E1; try discriminate.
          destruct (follow_update symbol _ s) as [self0| |] eqn:E0;
            simpl in E1; try discriminate.
          apply follow_update_grow in E0. subst self0.
          apply follow_update_grow in E1. rewrite grow_follow_grow in E1. eauto.
        + apply follow_update_grow in E1. eauto. }
    destruct Hg as [X ->]. unfold getitem in H. rewrite grow_follow_lookup, Hb in H.
    simpl in H. apply IH in H as [-> Hflag].
    destruct (decide (before ≠ before ∪ X)) as [Hne|He]; [discriminate|].
    apply dec_stable in He. split; [|exact Hflag].
    apply (grow_follow_same _ _ _ before Hb). symmetry. exact He.
Qed.

Lemma follow_sweep_quiet self self' :
  follow_sweep self = Ok (self', false) ->
  self' = self /\
  forall nt productions production,
    (nt, productions) ∈ grammar self -> production ∈ productions ->
    _add_follow_of_production nt production self = Ok (self, false).
Proof.
  unfold follow_sweep. intros H.
  assert (Hstep : forall nt s0 b0 (x : list string) s1,
            (let* (self', ch) := _add_follow_of_production nt x (s0, b0).1 in
             Ok (self', if ch then true else (s0, b0).2)) = Ok (s1, false) ->
            s1 = s0 /\ b0 = false /\ _add_follow_of_production nt x s0 = Ok (s0, false)).
  { intros nt s0 b0 x s1. simpl.
    destruct (_add_follow_of_production nt x s0) as [[s2 ch]| |] eqn:E; simpl;
      try discriminate.
    destruct ch; [discriminate|]. intros [= <- ->].
    apply add_follow_loop_quiet in E as Hq. destruct Hq as [-> _]. auto. }
  apply (quiet_inner
           (fun st (item : string * list (list string)) =>
              for_each (fun st' production =>
                          let* (self', ch) :=
                            _add_follow_of_production item.1 production st'.1 in
                          Ok (self', if ch then true else st'.2))
                       item.2 st)) in H as (-> & _ & Hall).
  - split; [reflexivity|]. intros nt productions production Hi Hp.
    specialize (Hall _ Hi). simpl in Hall.
    apply (quiet_inner
             (fun st' production =>
                let* (self', ch) := _add_follow_of_production nt production st'.1 in
                Ok (self', if ch then true else st'.2))) in Hall as (_ & _ & Hall').
    + specialize (Hall' _ Hp). apply Hstep in Hall'. tauto.
    + intros s0 b0 x s1 Hx. apply Hstep in Hx. tauto.
  - intros s0 b0 [nt ps] s1 Hx. simpl in Hx.
    apply (quiet_inner
             (fun st' production =>
                let* (self', ch) := _add_follow_of_production nt production st'.1 in
                Ok (self', if ch then true else st'.2))) in Hx; [tauto|].
    intros s2 b2 x s3 Hx'. apply Hstep in Hx'. tauto.
Qed.

Lemma follow_while_quiet fuel self self' :
  follow_while fuel self = Ok self' -> follow_sweep self' = Ok (self', false).
Proof.
  revert self. induction fuel as [|fuel IH]; intros self H; [discriminate|].
  simpl in H. destruct (follow_sweep self) as [[s1 [|]]| |] eqn:E; simpl in H;
    try discriminate.
  - apply (IH _ H).
  - injection H as <-. destruct (follow_sweep_quiet _ _ E) as [-> _]. exact E.
Qed.

(** X6: When [_compute_follow_sets] returns, the FOLLOW sets are closed under
    the propagation rules of every production: [_add_follow_of_production]
    applied once more reports no change and leaves the analyzer as it
    is. *)
Theorem follow_sets_are_closed fuel self self' nt productions production :
  _compute_follow_sets fuel self = Ok self' ->
  (nt, productions) ∈ grammar self' -> production ∈ productions ->
  _add_follow_of_production nt production self' = Ok (self', false).
Proof.
  unfold _compute_follow_sets. intros H.
  destruct (follow_update "Prog" _ _) as [self1| |]; simpl in H; try discriminate.
  apply follow_while_quiet, follow_sweep_quiet in H as [_ H]. apply H.
Qed.

(** ** The lexer: what a token list says about its text *)

Section LexerShape.

Import Lexer.

Lemma is_char_eq a b : is_char a b = true <-> a = b.
Proof. unfold is_char. apply Ascii.eqb_eq. Qed.

Lemma is_char_neq a b : is_char a b = false <-> a <> b.
Proof. unfold is_char. apply Ascii.eqb_neq. Qed.

Lemma skip_space_split rest skipped rem :
  skip_space rest = (skipped, rem) ->
  rest = (skipped ++ rem)%list /\ Forall is_blank skipped /\
  match rem with c :: _ => ~ is_blank c | [] => True end.
Proof.
  revert skipped rem. induction rest as [|ch rest IH]; intros skipped rem; simpl.
  - intros [= <- <-]. repeat split. constructor.
  - destruct (_ || _) eqn:Hb.
    + destruct (skip_space rest) as [sk rm]. intros [= <- <-].
      destruct (IH sk rm eq_refl) as (-> & Hsk & Hrm). repeat split; [|exact Hrm].
      constructor; [|exact Hsk]. unfold is_blank.
      rewrite !orb_true_iff, !is_char_eq in Hb. rewrite !elem_of_cons. tauto.
    + intros [= <- <-]. repeat split; [constructor|].
      rewrite !orb_false_iff, !is_char_neq in Hb. unfold is_blank.
      rewrite !elem_of_cons, elem_of_nil. tauto.
Qed.

Lemma take_while_split p rest taken rem :
  take_while p rest = (taken, rem) ->
  rest = (taken ++ rem)%list /\ Forall (fun c => p c = true) taken.
Proof.
  revert taken rem. induction rest as [|ch rest IH]; intros taken rem; simpl.
  - intros [= <- <-]. split; [reflexivity|constructor].
  - destruct (p ch) eqn:Hp.
    + destruct (take_while p rest) as [tk rm]. intros [= <- <-].
      destruct (IH tk rm eq_refl) as (-> & Htk). split; [reflexivity|].
      constructor; assumption.
    + intros [= <- <-]. split; [reflexivity|constructor].
Qed.

Lemma read_as_cons ch text consumed :
  ch <> NUL -> read_as text consumed -> read_as (ch :: text) (ch :: consumed).
Proof.
  intros Hch [Hn Hc]. split.
  - apply not_elem_of_cons. auto.
  - destruct Hc as [->| ->]; [left|right]; reflexivity.
Qed.

Lemma block_comment_loop_split rest text consumed rem :
  block_comment_loop rest = (text, consumed, rem) ->
  rest = (consumed ++ rem)%list /\ read_as text consumed.
Proof.
  revert text consumed rem.
  induction rest as [|ch rest IH]; intros text consumed rem; simpl.
  - intros [= <- <- <-]. split; [reflexivity|]. split; [apply not_elem_of_nil|auto].
  - destruct (is_char ch NUL) eqn:Hn.
    { apply is_char_eq in Hn. subst ch. intros [= <- <- <-].
      split; [reflexivity|]. split; [apply not_elem_of_nil|right; reflexivity]. }
    apply is_char_neq in Hn.
    destruct (block_comment_loop rest) as [[tx cs] rm].
    destruct (IH tx cs rm eq_refl) as [Hr Hread].
    assert (Hcont : forall text consumed rem,
              (ch :: tx, ch :: cs, rm) = (text, consumed, rem) ->
              ch :: rest = (consumed ++ rem)%list /\ read_as text consumed).
    { intros ? ? ? [= <- <- <-]. split; [rewrite Hr; reflexivity|].
      apply read_as_cons; assumption. }
    destruct (is_char ch "*"); [|apply Hcont].
    destruct rest as [|ch2 rest'']; [apply Hcont|].
    destruct (is_char ch2 "/") eqn:H2; [|apply Hcont].
    apply is_char_eq in H2. subst ch2. intros [= <- <- <-].
    split; [reflexivity|]. split; [|left; reflexivity].
    rewrite !not_elem_of_cons. repeat split; [auto|discriminate|apply not_elem_of_nil].
Qed.

Lemma string_loop_split rest text consumed rem :
  string_loop rest = (text, consumed, rem) ->
  rest = (consumed ++ rem)%list /\ read_as text consumed.
Proof.
  remember (length rest) as n eqn:Hlen. revert rest Hlen text consumed rem.
  induction n as [n IH] using lt_wf_ind. intros rest Hlen text consumed rem.
  destruct rest as [|ch rest]; cbn [string_loop].
  - intros [= <- <- <-]. split; [reflexivity|]. split; [apply not_elem_of_nil|auto].
  - simpl in Hlen. destruct (is_char ch NUL) eqn:Hn.
    { apply is_char_eq in Hn. subst ch. intros [= <- <- <-].
      split; [reflexivity|]. split; [apply not_elem_of_nil|right; reflexivity]. }
    apply is_char_neq in Hn.
    assert (Hone : read_as [ch] [ch]).
    { split; [|left; reflexivity]. rewrite not_elem_of_cons.
      split; [auto|apply not_elem_of_nil]. }
    destruct (is_char ch "'") eqn:Hq.
    + destruct rest as [|ch2 rest'']; [intros [= <- <- <-]; auto|].
      destruct (is_char ch2 "'") eqn:Hq2; [|intros [= <- <- <-]; auto].
      apply is_char_eq in Hq2. subst ch2.
      destruct (string_loop rest'') as [[tx cs] rm] eqn:E. intros [= <- <- <-].
      simpl in Hlen.
      destruct (IH (length rest'') ltac:(lia) rest'' eq_refl _ _ _ E) as [-> Hread].
      split; [reflexivity|]. apply read_as_cons; [exact Hn|].
      apply read_as_cons; [discriminate|exact Hread].
    + destruct (string_loop rest) as [[tx cs] rm] eqn:E. intros [= <- <- <-].
      destruct (IH (length rest) ltac:(lia) rest eq_refl _ _ _ E) as [-> Hread].
      split; [reflexivity|]. apply read_as_cons; assumption.
Qed.

Lemma read_as_plain value : NUL ∉ value -> read_as value value.
Proof. intros H. split; [exact H|left; reflexivity]. Qed.

Lemma Forall_not_NUL (p : ascii -> bool) value :
  p NUL = false -> Forall (fun c => p c = true) value -> NUL ∉ value.
Proof.
  intros Hp Hv Hin. rewrite Forall_forall in Hv. specialize (Hv _ Hin). congruence.
Qed.

(** The shape of a call of [scanner] that yields a token. *)
Lemma scanner_shape cur0 t cur' :
  scanner cur0 = (Some t, cur') ->
  exists skipped value consumed ty,
    prog cur0 = (skipped ++ consumed ++ prog cur')%list /\
    Forall is_blank skipped /\ read_as value consumed /\ value <> [] /\
    ty ∈ lexer_kinds /\
    t = (ty, str value,
         (advance_pos skipped (line cur0, col cur0)).1,
         (advance_pos skipped (line cur0, col cur0)).2) /\
    (line cur', col cur')
    = advance_pos consumed (advance_pos skipped (line cur0, col cur0)).
Proof.
  unfold scanner. destruct (skip_space (prog cur0)) as [skipped rest0] eqn:Hskip.
  apply skip_space_split in Hskip as (Hprog & Hblank & _).
  destruct rest0 as [|c rest1]; [discriminate|].
  destruct (is_char c NUL) eqn:HcN; [discriminate|]. apply is_char_neq in HcN.
  set (cur := consume skipped (c :: rest1) cur0).
  assert (Hfin : forall ty value consumed rem,
            c :: rest1 = (consumed ++ rem)%list -> read_as value consumed ->
            value <> [] -> ty ∈ lexer_kinds ->
            (Some (ty, str value, line cur, col cur), consume consumed rem cur)
            = (Some t, cur') ->
            exists skipped value consumed ty,
              prog cur0 = (skipped ++ consumed ++ prog cur')%list /\
              Forall is_blank skipped /\ read_as value consumed /\ value <> [] /\
              ty ∈ lexer_kinds /\
              t = (ty, str value,
                   (advance_pos skipped (line cur0, col cur0)).1,
                   (advance_pos skipped (line cur0, col cur0)).2) /\
              (line cur', col cur')
              = advance_pos consumed (advance_pos skipped (line cur0, col cur0))).
  { intros ty value consumed rem Hsplit Hread Hne Hty [= <- <-].
    exists skipped, value, consumed, ty. rewrite consume_prog, Hprog, Hsplit.
    split; [reflexivity|]. split; [exact Hblank|]. split; [exact Hread|].
    split; [exact Hne|]. split; [exact Hty|]. split; [reflexivity|].
    unfold cur, consume. simpl.
    destruct (advance_pos skipped _) as [l1 c1]. simpl.
    destruct (advance_pos consumed _); reflexivity. }
  assert (Hk : forall ty, ty ∈ lexer_kinds <-> bool_decide (ty ∈ lexer_kinds) = true).
  { intros ty. symmetry. apply bool_decide_eq_true. }
  destruct (is_char c "/" && _) eqn:Hbc.
  { apply andb_true_iff in Hbc as [Hc Hc2]. apply is_char_eq in Hc. subst c.
    destruct rest1 as [|c2 rest2]; [discriminate|]. apply is_char_eq in Hc2. subst c2.
    simpl tl. destruct (block_comment_loop rest2) as [[tx cs] rm] eqn:E.
    apply block_comment_loop_split in E as [-> Hread].
    apply Hfin; [reflexivity| |discriminate|apply Hk; reflexivity].
    apply read_as_cons; [discriminate|]. apply read_as_cons; [discriminate|exact Hread]. }
  destruct (is_char c "-" && _) eqn:Hlc.
  { apply andb_true_iff in Hlc as [Hc Hc2]. apply is_char_eq in Hc. subst c.
    destruct rest1 as [|c2 rest2]; [discriminate|]. apply is_char_eq in Hc2. subst c2.
    simpl tl. destruct (take_while _ rest2) as [tx rm] eqn:E.
    apply take_while_split in E as [-> Htx].
    apply Hfin; [reflexivity| |discriminate|apply Hk; reflexivity].
    apply read_as_cons; [discriminate|]. apply read_as_cons; [discriminate|].
    apply read_as_plain. apply (Forall_not_NUL _ _ eq_refl Htx). }
  destruct (isalpha c || _) eqn:Hid.
  { destruct (take_while _ (c :: rest1)) as [ident rm] eqn:E.
    pose proof E as E'. apply take_while_split in E' as [Hsplit Hident].
    apply Hfin; [exact Hsplit| | |].
    - apply read_as_plain. apply (Forall_not_NUL _ _ eq_refl Hident).
    - simpl in E. replace (isalnum c || is_char c "_") with true in E.
      + destruct (take_while _ rest1). injection E as <- _. discriminate.
      + symmetry. unfold isalnum. destruct (isalpha c); [reflexivity|].
        simpl in *. rewrite Hid. apply orb_true_r.
    - destruct (decide _); apply Hk; reflexivity. }
  destruct (isdigit c) eqn:Hd.
  { destruct (take_while isdigit (c :: rest1)) as [digits rm] eqn:E.
    pose proof E as E'. apply take_while_split in E' as [Hsplit Hdigits].
    assert (Hne : digits <> []).
    { simpl in E. rewrite Hd in E. destruct (take_while isdigit rest1).
      injection E as <- _. discriminate. }
    assert (Hplain : forall rem,
              (Some ("NUM", str digits, line cur, col cur), consume digits rem cur)
              = (Some t, cur') -> rem = rm ->
              exists skipped value consumed ty,
                prog cur0 = (skipped ++ consumed ++ prog cur')%list /\
                Forall is_blank skipped /\ read_as value consumed /\ value <> [] /\
                ty ∈ lexer_kinds /\
                t = (ty, str value,
                     (advance_pos skipped (line cur0, col cur0)).1,
                     (advance_pos skipped (line cur0, col cur0)).2) /\
                (line cur', col cur')
                = advance_pos consumed (advance_pos skipped (line cur0, col cur0))).
    { intros rem H ->. revert H. apply Hfin; [exact Hsplit| |exact Hne|apply Hk; reflexivity].
      apply read_as_plain. apply (Forall_not_NUL _ _ eq_refl Hdigits). }
    destruct rm as [|dot [|frac0 rm']]; try (intros H; apply (Hplain _ H eq_refl)).
    destruct (is_char dot "." && isdigit frac0) eqn:Hdot;
      [|intros H; apply (Hplain _ H eq_refl)].
    apply andb_true_iff in Hdot as [Hdot Hfrac0]. apply is_char_eq in Hdot. subst dot.
    simpl tl. destruct (take_while isdigit (frac0 :: rm')) as [frac rm2] eqn:E2.
    apply take_while_split in E2 as [Hsplit2 Hfrac].
    apply Hfin; [| | |apply Hk; reflexivity].
    - rewrite Hsplit, Hsplit2, <- app_assoc. reflexivity.
    - apply read_as_plain. rewrite elem_of_app, elem_of_cons.
      intros [H|[H|H]]; [|discriminate|].
      + apply (Forall_not_NUL _ _ eq_refl Hdigits H).
      + apply (Forall_not_NUL _ _ eq_refl Hfrac H).
    - destruct digits; discriminate. }
  destruct (is_char c "'") eqn:Hq.
  { destruct (string_loop rest1) as [[tx cs] rm] eqn:E.
    apply string_loop_split in E as [-> Hread].
    apply Hfin; [reflexivity| |discriminate|apply Hk; reflexivity].
    apply read_as_cons; assumption. }
  destruct (decide _) as [Htwo|Htwo].
  { destruct rest1 as [|c2 rest2].
    - exfalso. revert Htwo. unfold two_char_ops. rewrite !elem_of_cons, elem_of_nil.
      unfold str. simpl. intros [H|[H|[H|[H|[H|[]]]]]]; discriminate H.
    - simpl tl. apply Hfin; [reflexivity| |discriminate|apply Hk; reflexivity].
      apply read_as_plain. rewrite !not_elem_of_cons.
      split; [auto|]. split; [|apply not_elem_of_nil].
      intros <-. revert Htwo. unfold two_char_ops. rewrite !elem_of_cons, elem_of_nil.
      unfold str. simpl. intros [H|[H|[H|[H|[H|[]]]]]]; discriminate H. }
  assert (Hone : read_as [c] [c]).
  { apply read_as_plain. rewrite not_elem_of_cons. split; [auto|apply not_elem_of_nil]. }
  destruct (decide _).
  - apply Hfin; [reflexivity|exact Hone|discriminate|].
    destruct (decide _); apply Hk; reflexivity.
  - apply Hfin; [reflexivity|exact Hone|discriminate|apply Hk; reflexivity].
Qed.

Lemma scanner_eof cur0 cur' :
  scanner cur0 = (None, cur') ->
  exists skipped rest, prog cur0 = (skipped ++ rest)%list /\ Forall is_blank skipped /\
                       (rest = [] \/ exists rest', rest = NUL :: rest').
Proof.
  unfold scanner. destruct (skip_space (prog cur0)) as [skipped rest0] eqn:Hskip.
  apply skip_space_split in Hskip as (Hprog & Hblank & _).
  destruct rest0 as [|c rest1]; [intros _; exists skipped, []; auto|].
  destruct (is_char c NUL) eqn:HcN.
  { apply is_char_eq in HcN. subst c. intros _. exists skipped, (NUL :: rest1). eauto. }
  intros H. exfalso. revert H.
  repeat match goal with
         | |- context [let '(_, _) := ?x in _] => destruct x as [[? ?] ?]
         | |- context [let '(_, _) := ?x in _] => destruct x as [? ?]
         | |- context [match ?x with _ => _ end] => destruct x
         end; discriminate.
Qed.


Lemma advance_pos_app a b pos :
  advance_pos (a ++ b) pos = advance_pos b (advance_pos a pos).
Proof. unfold advance_pos. apply foldl_app. Qed.

Lemma NUL_not_blank : ~ is_blank NUL.
Proof.
  unfold is_blank. rewrite !elem_of_cons, elem_of_nil.
  intros [H|[H|[H|[H|[]]]]]; discriminate H.
Qed.

Lemma blanks_no_NUL blanks : Forall is_blank blanks -> NUL ∉ blanks.
Proof.
  intros H Hin. rewrite Forall_forall in H. apply NUL_not_blank, H, Hin.
Qed.

(** A NUL-free prefix of a buffer that ends in its only NUL. *)
Lemma split_before_NUL (l1 l2 body : list ascii) :
  (l1 ++ l2)%list = (body ++ [NUL])%list -> NUL ∉ l1 -> NUL ∉ body ->
  exists body', body = (l1 ++ body')%list /\ l2 = (body' ++ [NUL])%list.
Proof.
  revert body. induction l1 as [|x l1 IH]; intros body H Hl Hb.
  - exists body. auto.
  - apply not_elem_of_cons in Hl as [Hx Hl]. destruct body as [|y body]; simpl in H.
    + injection H as -> _. contradiction.
    + injection H as -> H. apply not_elem_of_cons in Hb as [_ Hb].
      destruct (IH body H Hl Hb) as (body' & -> & ->). exists body'. auto.
Qed.

Lemma NUL_head_is_end (rest body' : list ascii) :
  NUL :: rest = (body' ++ [NUL])%list -> NUL ∉ body' -> body' = [] /\ rest = [].
Proof.
  destruct body' as [|y body']; simpl.
  - intros [= ->]. auto.
  - intros [= <- _] H. exfalso. apply H. left.
Qed.

Lemma str_nonempty value : value <> [] -> str value <> "".
Proof. destruct value; [contradiction|discriminate]. Qed.

Lemma tokenize_loop_kinds fuel cur acc r :
  tokenize_loop fuel cur acc = Ok r ->
  Forall (fun t => tok_kind t ∈ lexer_kinds /\ tok_value t <> "") acc ->
  Forall (fun t => tok_kind t ∈ lexer_kinds /\ tok_value t <> "") r.
Proof.
  revert cur acc. induction fuel as [|fuel IH]; intros cur acc H Hacc; [discriminate|].
  simpl in H. destruct (scanner cur) as [[t|] cur'] eqn:E.
  - apply (IH _ _ H). apply Forall_app. split; [exact Hacc|].
    apply scanner_shape in E as (sk & value & cs & ty & _ & _ & _ & Hne & Hty & -> & _).
    constructor; [|constructor]. split; [exact Hty|]. apply str_nonempty, Hne.
  - injection H as <-. exact Hacc.
Qed.

Lemma tokenize_loop_done fuel cur acc :
  prog cur = [] -> tokenize_loop (S fuel) cur acc = Ok acc.
Proof.
  intros Hp. simpl. destruct (scanner cur) as [[t|] cur'] eqn:E; [|reflexivity].
  apply scanner_shape in E as (sk & value & cs & ty & Hprog & _ & [_ Hcs] & Hne & _).
  rewrite Hp in Hprog. symmetry in Hprog.
  apply app_eq_nil in Hprog as [_ Hprog]. apply app_eq_nil in Hprog as [Hprog _].
  subst cs. destruct Hcs as [<-|Hcs]; [contradiction|].
  destruct value; discriminate.
Qed.

Lemma tokenize_loop_placed fuel cur acc r body :
  tokenize_loop fuel cur acc = Ok r -> NUL ∉ body ->
  prog cur = (body ++ [NUL])%list ->
  exists ts, r = (acc ++ ts)%list /\ placed (line cur, col cur) body ts.
Proof.
  revert cur acc body. induction fuel as [|fuel IH]; intros cur acc body H Hb Hp;
    [discriminate|].
  simpl in H. destruct (scanner cur) as [[t|] cur'] eqn:E.
  - apply scanner_shape in E
      as (sk & value & cs & ty & Hprog & Hblank & [Hv Hcs] & Hne & _ & -> & Hpos).
    rewrite Hp in Hprog. symmetry in Hprog.
    destruct Hcs as [->| ->].
    + rewrite app_assoc in Hprog.
      apply split_before_NUL in Hprog as (body' & -> & Hrest); [|
        rewrite elem_of_app; intros [Hin|Hin]; [apply (blanks_no_NUL _ Hblank Hin)|auto] |
        exact Hb].
      destruct (IH _ _ body' H) as (ts & -> & Hpl); [|exact Hrest|].
      { rewrite !elem_of_app in Hb. tauto. }
      exists ((ty, str value, (advance_pos sk (line cur, col cur)).1,
               (advance_pos sk (line cur, col cur)).2) :: ts).
      split; [rewrite <- app_assoc; reflexivity|].
      rewrite <- app_assoc. constructor; [exact Hblank|exact Hne|].
      rewrite advance_pos_app, <- Hpos. exact Hpl.
    + rewrite <- !app_assoc in Hprog. rewrite !app_assoc in Hprog.
      rewrite <- (app_assoc (sk ++ value)) in Hprog.
      apply split_before_NUL in Hprog as (body' & -> & Hrest); [|
        rewrite elem_of_app; intros [Hin|Hin]; [apply (blanks_no_NUL _ Hblank Hin)|auto] |
        exact Hb].
      simpl in Hrest. apply NUL_head_is_end in Hrest as [-> Hnil];
        [|rewrite !elem_of_app in Hb; tauto].
      destruct fuel as [|fuel]; [discriminate|].
      rewrite (tokenize_loop_done _ _ _ Hnil) in H. injection H as <-.
      eexists. split; [reflexivity|].
      rewrite <- app_assoc. constructor; [exact Hblank|exact Hne|].
      constructor. constructor.
  - injection H as <-. exists []. split; [rewrite app_nil_r; reflexivity|].
    apply scanner_eof in E as (sk & rest & Hprog & Hblank & Hrest).
    rewrite Hp in Hprog. symmetry in Hprog.
    apply split_before_NUL in Hprog as (body' & -> & Hr);
      [|apply blanks_no_NUL, Hblank|exact Hb].
    destruct Hrest as [->|[rest' ->]].
    + destruct body'; discriminate.
    + apply NUL_head_is_end in Hr as [-> _]; [|rewrite elem_of_app in Hb; tauto].
      rewrite app_nil_r. constructor. exact Hblank.
Qed.

Lemma plain_text_no_NUL text : plain_text text -> NUL ∉ list_ascii_of_string text.
Proof.
  unfold plain_text. rewrite Forall_forall. intros H Hin. specialize (H _ Hin).
  change (nat_of_ascii NUL) with 0 in H. lia.
Qed.



Lemma take_while_all (p : ascii -> bool) w rest :
  Forall (fun c => p c = true) w -> p NUL = false ->
  take_while p (w ++ NUL :: rest) = (w, NUL :: rest).
Proof.
  intros Hw Hn. induction Hw as [|c w Hc _ IH]; simpl.
  - rewrite Hn. reflexivity.
  - rewrite Hc, IH. reflexivity.
Qed.

Lemma tokenize_word w :
  is_word w ->
  tokenize w
  = Ok [(if decide (upper w ∈ sql_keywords) then "KEYWORD" else "ID", w, 1%Z, 0%Z)].
Proof.
  intros [Hhead Hall]. unfold tokenize.
  destruct (list_ascii_of_string w) as [|c cs] eqn:Ew; [contradiction|].
  assert (Hw : str (c :: cs) = w).
  { unfold str. rewrite <- Ew. apply string_of_list_ascii_of_string. }
  assert (Hnot : forall x : ascii,
            isalpha x || is_char x "_" = false -> is_char c x = false).
  { intros x Hx. apply is_char_neq. intros ->. rewrite Hx in Hhead. discriminate. }
  cbn [length app tokenize_loop]. unfold scanner at 1. cbn [prog skip_space].
  rewrite (Hnot " "%char eq_refl), (Hnot TAB eq_refl), (Hnot CR eq_refl),
    (Hnot LF eq_refl). cbn [orb]. rewrite (Hnot NUL eq_refl), (Hnot "/"%char eq_refl),
    (Hnot "-"%char eq_refl). cbn [andb]. rewrite Hhead.
  change (c :: (cs ++ [NUL])%list) with ((c :: cs) ++ [NUL])%list.
  rewrite (take_while_all _ _ [] Hall eq_refl). rewrite Hw.
  destruct cs as [|c1 cs']; reflexivity.
Qed.

End LexerShape.

(** X8: Every token that [tokenize] returns has one of the eight lexical types
    COMMENT, KEYWORD, ID, NUM, STRING, OP, RANGE, UNKNOWN, never [EOF], and
    a text that is not empty. *)
Theorem tokens_have_lexer_kinds text tokens :
  Lexer.tokenize text = Ok tokens ->
  Forall (fun t => tok_kind t ∈ lexer_kinds /\ tok_kind t <> "EOF" /\ tok_value t <> "")
         tokens.
Proof.
  intros H. apply tokenize_loop_kinds in H; [|constructor].
  eapply Forall_impl; [exact H|]. intros t [Hk Hv]. split; [exact Hk|]. split; [|exact Hv].
  intros E. rewrite E in Hk. revert Hk. unfold lexer_kinds.
  rewrite !elem_of_cons, elem_of_nil. intros [H1|[H1|[H1|[H1|[H1|[H1|[H1|[H1|[]]]]]]]]];
    discriminate H1.
Qed.

Lemma tokens_have_lexer_kinds_witness :
  Forall (fun t => tok_kind t ∈ lexer_kinds /\ tok_kind t <> "EOF" /\ tok_value t <> "")
         tokens_delete_from_t.
Proof.
  apply (tokens_have_lexer_kinds "DELETE FROM t;"). exact tokenize_delete_from_t.
Defined.

(** X9: Lexing loses nothing but blanks, and positions are exact: the text
    (ASCII, without NUL) is the concatenation, in order, of the token texts
    separated by runs of spaces, tabs, carriage returns and newlines, and
    every token records the line (from 1) and the column (from 0) of its
    first character. *)
Theorem tokens_are_placed text tokens :
  plain_text text -> Lexer.tokenize text = Ok tokens ->
  placed (1, 0)%Z (list_ascii_of_string text) tokens.
Proof.
  intros Hp H. unfold Lexer.tokenize in H.
  apply (tokenize_loop_placed _ _ _ _ (list_ascii_of_string text)) in H
    as (ts & -> & Hpl); [exact Hpl|apply plain_text_no_NUL, Hp|reflexivity].
Qed.

Lemma select_from_t_is_plain : plain_text "SELECT FROM t;".
Proof. unfold plain_text. simpl. repeat constructor. Qed.

Lemma tokens_are_placed_witness :
  placed (1, 0)%Z (list_ascii_of_string "SELECT FROM t;") tokens_select_from_t.
Proof.
  apply (tokens_are_placed "SELECT FROM t;" tokens_select_from_t).
  - exact select_from_t_is_plain.
  - exact tokenize_select_from_t.
Defined.



(** X11: Keywords are recognised in any letter case: a word whose upper-case
    form is a keyword becomes one KEYWORD token that keeps the spelling of
    the text, and the analyzer maps it to the upper-case terminal. *)
Theorem keywords_ignore_case w :
  is_word w -> upper w ∈ Lexer.sql_keywords ->
  Lexer.tokenize w = Ok [("KEYWORD", w, 1%Z, 0%Z)] /\
  converted_tokens sql_analyzer [("KEYWORD", w, 1%Z, 0%Z)]
  = [(upper w, w, 1%Z, 0%Z); eof_token].
Proof.
  intros Hw Hk. split; [|reflexivity].
  rewrite (tokenize_word w Hw). rewrite decide_True by exact Hk. reflexivity.
Qed.

Lemma keywords_ignore_case_witness :
  Lexer.tokenize "Select" = Ok [("KEYWORD", "Select", 1%Z, 0%Z)] /\
  converted_tokens sql_analyzer [("KEYWORD", "Select", 1%Z, 0%Z)]
  = [(upper "Select", "Select", 1%Z, 0%Z); eof_token].
Proof.
  apply (keywords_ignore_case "Select").
  - split; [reflexivity|]. simpl. repeat constructor.
  - apply (bool_decide_unpack _). vm_compute. exact I.
Defined.

(** *** The two closure properties on the SQL grammar *)

Lemma sql_after_first_grammar : grammar sql_after_first = sql_grammar.
Proof. reflexivity. Qed.

Lemma sql_before_table_grammar : grammar sql_before_table = sql_grammar.
Proof. reflexivity. Qed.

Lemma sql_grammar_Cond :
  ("Cond", [["Expr"; "RelOp"; "Expr"; "CondTail"]]) ∈ sql_grammar.
Proof. apply (bool_decide_unpack _). vm_compute. exact I. Qed.

Lemma first_sets_are_closed_witness :
  _add_first_of_production "Cond" ["Expr"; "RelOp"; "Expr"; "CondTail"] sql_after_first
  = Ok sql_after_first.
Proof.
  apply (first_sets_are_closed 3
           (new_analyzer sql_grammar sql_terminals sql_token_to_terminal)
           sql_after_first "Cond" [["Expr"; "RelOp"; "Expr"; "CondTail"]]).
  - exact sql_after_first_ok.
  - rewrite sql_after_first_grammar. exact sql_grammar_Cond.
  - left.
Defined.

Lemma follow_sets_are_closed_witness :
  _add_follow_of_production "Cond" ["Expr"; "RelOp"; "Expr"; "CondTail"] sql_before_table
  = Ok (sql_before_table, false).
Proof.
  apply (follow_sets_are_closed 3 sql_after_first sql_before_table
           "Cond" [["Expr"; "RelOp"; "Expr"; "CondTail"]]).
  - exact sql_after_follow_ok.
  - rewrite sql_before_table_grammar. exact sql_grammar_Cond.
  - left.
Defined.

(** ** The exceptions of the tree builder *)

















(** ** The tree of a SELECT statement *)

Lemma pending_advance self t ts :
  pending self = t :: ts -> pending (set_idx (_idx self + 1) self) = ts.
Proof. intros H. rewrite pending_set_idx, H. reflexivity. Qed.

Lemma parse_SelListRest_names fuel self more t ts :
  Forall (fun p : token * token => tok_kind p.1 = "," /\ tok_kind p.2 = "ID") more ->
  tok_kind t <> "," ->
  pending self = (flat_map (fun p : token * token => [p.1; p.2]) more ++ t :: ts)%list ->
  length more < fuel ->
  exists self',
    _parse_SelListRest fuel self
    = (self', Ok ((fun p : token * token => tok_value p.2) <$> more)) /\
    pending self' = t :: ts.
Proof.
  intros Hmore Ht. revert fuel self.
  induction Hmore as [|[comma id] more [Hc Hi] _ IH]; intros fuel self Hp Hf;
    (destruct fuel as [|fuel]; [lia|]); cbn [_parse_SelListRest]; unfold pbind.
  - simpl in Hp. rewrite (accept_miss self t ts "," Hp Ht). exists self. auto.
  - simpl in Hp, Hc, Hi. rewrite (accept_hit self comma _ "," Hp Hc).
    apply pending_advance in Hp. set (s1 := set_idx (_idx self + 1) self) in *.
    rewrite (expect_hit s1 id _ "ID" Hp Hi).
    apply pending_advance in Hp. set (s2 := set_idx (_idx s1 + 1) s1) in *.
    destruct (IH fuel s2 Hp) as (self' & -> & Hp'); [simpl in Hf; lia|].
    exists self'. auto.
Qed.

Lemma pairs_length (more : list (token * token)) :
  length (flat_map (fun p : token * token => [p.1; p.2]) more) = 2 * length more.
Proof. induction more as [|p more IH]; simpl; lia. Qed.

Lemma parse_SelList_columns fuel self l t ts :
  select_list_ok l -> tok_kind t <> "," ->
  pending self = (select_list_tokens l ++ t :: ts)%list ->
  length (select_list_tokens l) < fuel ->
  exists self',
    _parse_SelList fuel self = (self', Ok (columns_node l)) /\ pending self' = t :: ts.
Proof.
  intros Hl Ht Hp Hf. unfold _parse_SelList, pbind. destruct l as [star|first more].
  - simpl in *. rewrite (accept_hit self star _ "*" Hp Hl).
    eexists. split; [reflexivity|]. apply (pending_advance _ _ _ Hp).
  - destruct Hl as [Hfirst Hmore]. simpl in Hp.
    rewrite (accept_miss self first _ "*" Hp) by (rewrite Hfirst; discriminate).
    rewrite (expect_hit self first _ "ID" Hp Hfirst).
    apply pending_advance in Hp. set (s1 := set_idx (_idx self + 1) self) in *.
    destruct (parse_SelListRest_names fuel s1 more t ts Hmore Ht Hp)
      as (self' & -> & Hp').
    + simpl in Hf. rewrite pairs_length in Hf. lia.
    + exists self'. auto.
Qed.

Lemma chain_tokens_length links : length (chain_tokens links) = 4 * length links.
Proof. induction links as [|[k c] links IH]; simpl; lia. Qed.

Lemma parse_WhereOpt_tree fuel self w t ts :
  where_ok w -> tok_kind t = ";" ->
  pending self = (where_tokens w ++ t :: ts)%list ->
  length (where_tokens w) < fuel ->
  exists self',
    _parse_WhereOpt fuel self = (self', Ok (where_node w)) /\ pending self' = t :: ts.
Proof.
  intros Hw Ht Hp Hf. unfold _parse_WhereOpt, pbind. destruct w as [[w c links]|].
  - destruct Hw as (Hk & Hc & Hlinks). simpl in *.
    rewrite (accept_hit self w _ "WHERE" Hp Hk).
    apply pending_advance in Hp. set (s1 := set_idx (_idx self + 1) self) in *.
    assert (Hn : ~ is_combinator_token t).
    { unfold is_combinator_token. rewrite Ht, !elem_of_cons, elem_of_nil.
      intros [H|[H|[]]]; discriminate H. }
    assert (Hp' : pending s1
                  = (comparison_tokens c ++ chain_tokens links ++ t :: ts)%list)
      by exact Hp.
    rewrite (parse_Cond_chain fuel s1 c links (t :: ts) Hc Hlinks
               ltac:(eauto) Hp').
    + eexists. split; [reflexivity|].
      rewrite <- Nat.add_assoc, pending_set_idx, Hp'.
      rewrite app_assoc. apply drop_app_length'.
      rewrite length_app, chain_tokens_length. reflexivity.
    + pose proof (chain_tokens_length links) as Hlen.
      rewrite ?length_app in Hf. simpl in Hf. lia.
  - simpl in Hp. rewrite (accept_miss self t ts "WHERE" Hp) by (rewrite Ht; discriminate).
    exists self. auto.
Qed.

Lemma build_select_tree tokens self s :
  select_ok s -> omap (convert_token self) tokens = select_tokens s ->
  (build_ast_from_tokens tokens self).2 = Ok (select_tree s).
Proof.
  intros (Hsel & Hlist & Hfrom & Htbl & Hwhere & Hsemi) Hmap.
  unfold build_ast_from_tokens.
  assert (Hstream : _map_tokens self tokens = (select_tokens s ++ [eof_token])%list).
  { rewrite map_tokens_converted. unfold converted_tokens. rewrite Hmap. reflexivity. }
  rewrite Hstream.
  set (self1 := set_stream (select_tokens s ++ [eof_token])%list (set_idx 0 self)).
  assert (Hp : pending self1 = (select_tokens s ++ [eof_token])%list) by reflexivity.
  set (fuel := length (select_tokens s ++ [eof_token])%list).
  assert (Hfuel : fuel = S (S (length (select_list_tokens (sel_list s))
                                 + S (S (length (where_tokens (sel_where s)) + 1))))).
  { unfold fuel, select_tokens. simpl. rewrite !length_app. simpl.
    rewrite !length_app. simpl. lia. }
  unfold select_tokens in Hp. simpl in Hp. rewrite <- !app_assoc in Hp. simpl in Hp.
  unfold _parse_Prog, _parse_Query, pbind.
  rewrite (accept_hit self1 _ _ "SELECT" Hp Hsel).
  apply pending_advance in Hp. set (s1 := set_idx (_idx self1 + 1) self1) in *.
  destruct (parse_SelList_columns fuel s1 (sel_list s) (sel_from s) _ Hlist
              ltac:(rewrite Hfrom; discriminate) Hp ltac:(lia))
    as (s2 & -> & Hp2).
  rewrite (expect_hit s2 _ _ "FROM" Hp2 Hfrom).
  apply pending_advance in Hp2. set (s3 := set_idx (_idx s2 + 1) s2) in *.
  unfold _parse_Tbl, pbind. rewrite (expect_hit s3 _ _ "ID" Hp2 Htbl).
  apply pending_advance in Hp2. set (s4 := set_idx (_idx s3 + 1) s3) in *.
  unfold pret at 1. rewrite <- app_assoc in Hp2. simpl in Hp2.
  destruct (parse_WhereOpt_tree fuel s4 (sel_where s) (sel_semicolon s) [eof_token]
              Hwhere Hsemi Hp2 ltac:(lia))
    as (s5 & -> & Hp5).
  unfold pret at 1. rewrite (expect_hit s5 _ _ ";" Hp5 Hsemi).
  apply pending_advance in Hp5. set (s6 := set_idx (_idx s5 + 1) s5) in *.
  unfold pret at 1. rewrite (expect_hit s6 _ _ "EOF" Hp5 eq_refl). reflexivity.
Qed.


Lemma select_where_statement_ok : select_ok select_where_statement.
Proof.
  split; [reflexivity|]. split; [split; [reflexivity|repeat constructor]|].
  split; [reflexivity|]. split; [reflexivity|]. split; [|reflexivity].
  split; [reflexivity|]. split; [exact where_demo_first_ok|exact where_demo_links_ok].
Qed.

Lemma select_where_statement_tokens :
  omap (convert_token sql_analyzer) tokens_select_where
  = select_tokens select_where_statement.
Proof. vm_compute. reflexivity. Qed.


(** ** The engine accepts only sentences of the grammar *)

Lemma derives_app_inv self s1 s2 w :
  derives self (s1 ++ s2) w ->
  exists w1 w2, w = (w1 ++ w2)%list /\ derives self s1 w1 /\ derives self s2 w2.
Proof.
  revert w. induction s1 as [|x s1 IH]; intros w H; simpl in H.
  - exists [], w. split; [reflexivity|]. split; [constructor|exact H].
  - inversion H as [|a symbols w' Ha Hrest|nt ps p symbols wa wb Hi Hp Hprod Hrest]; subst.
    + destruct (IH _ Hrest) as (w1 & w2 & -> & H1 & H2).
      exists (x :: w1), w2. split; [reflexivity|]. split; [|exact H2].
      constructor; assumption.
    + destruct (IH _ Hrest) as (w1 & w2 & -> & H1 & H2).
      exists (wa ++ w1)%list, w2. split; [apply app_assoc|]. split; [|exact H2].
      econstructor; eassumption.
Qed.


Lemma last_rev_bottom (syms : list string) :
  last (rev (syms ++ ["$"])) = Some (match syms with x :: _ => x | [] => "$" end).
Proof.
  destruct syms as [|x syms]; [reflexivity|]. simpl. apply last_snoc.
Qed.

Lemma removelast_rev_cons (x : string) syms :
  removelast (rev ((x :: syms) ++ ["$"])) = rev (syms ++ ["$"]).
Proof. simpl. apply removelast_last. Qed.

(** From a stack [syms] over the bottom marker, the engine reaches accept
    only by reading a word that [syms] derives, up to an end-of-input
    terminal. *)
Lemma engine_loop_sound self fuel syms inp stp out st' :
  table_in_grammar self -> "$" ∉ terminals self -> "$" ∉ non_terminals self ->
  "$" ∉ syms ->
  engine_loop fuel self (mkEngine (rev (syms ++ ["$"])) inp stp out) = Ok (Accepted st') ->
  exists w rest,
    ((tok_kind <$> inp) ++ ["EOF"])%list = (w ++ "EOF" :: rest)%list /\
    derives self syms w.
Proof.
  intros Htab HT HN. revert syms inp stp out.
  induction fuel as [|fuel IH]; intros syms inp stp out Hsyms H; [discriminate|].
  cbn [engine_loop stack] in H.
  destruct (rev (syms ++ ["$"])) as [|b bs] eqn:Estk.
  { apply (f_equal (@length string)) in Estk. rewrite length_rev, length_app in Estk.
    simpl in Estk. lia. }
  rewrite <- Estk in H. clear b bs Estk.
  unfold engine_iteration in H. cbn [stack input_tokens] in H.
  rewrite last_rev_bottom in H.
  destruct syms as [|X syms].
  - destruct (decide _) as [[_ Hcur]|Hno].
    + exists [], (match inp with [] => [] | _ :: r => (tok_kind <$> r) ++ ["EOF"] end)%list.
      split; [|constructor]. unfold current_type, current_token in Hcur. simpl in Hcur.
      destruct inp as [|t r]; [reflexivity|]. simpl in *. rewrite Hcur. reflexivity.
    + rewrite decide_False in H by exact HT. rewrite decide_False in H by exact HN.
      discriminate.
  - apply not_elem_of_cons in Hsyms as [HX Hsyms].
    rewrite decide_False in H by (intros [E _]; apply HX; symmetry; exact E).
    destruct (decide (X ∈ terminals self)) as [Hterm|Hterm].
    + destruct (decide _) as [Hcur|_]; [|discriminate].
      destruct inp as [|t r]; [discriminate|]. cbn [input_tokens] in H.
      unfold emit in H. cbn [stack] in H. rewrite removelast_rev_cons in H.
      apply IH in H as (w & rest & Hw & Hd); [|exact Hsyms].
      exists (X :: w), rest. split; [|constructor; assumption].
      unfold current_type, current_token in Hcur. cbn [input_tokens] in Hcur.
      rewrite fmap_cons, <- !app_comm_cons. f_equal; [symmetry; exact Hcur|exact Hw].
    + destruct (decide (X ∈ non_terminals self)) as [Hnt|_]; [|discriminate].
      destruct (parsing_table self !! X) as [row|] eqn:Hrow; [|discriminate].
      destruct (row !! _) as [[p|]|] eqn:Hcell; try discriminate.
      assert (Hlk : lookup_cell self X
                      (current_type (mkEngine (rev ((X :: syms) ++ ["$"])) inp stp out))
                    = Some (Some p)).
      { unfold lookup_cell. rewrite Hrow. exact Hcell. }
      destruct (Htab _ _ _ Hlk) as [(ps & Hi & Hp) Hdollar].
      assert (Hnext : exists stp' out',
                engine_loop fuel self
                  (mkEngine (rev ((p ++ syms) ++ ["$"])) inp stp' out')
                = Ok (Accepted st')).
      { destruct p as [|s p']; unfold emit in H; cbn [stack input_tokens] in H;
          rewrite removelast_rev_cons in H.
        - eauto.
        - rewrite <- rev_app_distr, app_assoc in H. eauto. }
      destruct Hnext as (stp' & out' & Hnext).
      apply IH in Hnext as (w & rest & Hw & Hd).
      * apply derives_app_inv in Hd as (w1 & w2 & -> & H1 & H2).
        exists (w1 ++ w2)%list, rest. split; [exact Hw|]. econstructor; eassumption.
      * rewrite elem_of_app. tauto.
Qed.

(** A trace that ends in accept comes from the accept branch. *)
Lemma next_is_not_accept self st st1 :
  engine_iteration self st = Next st1 ->
  exists r, output st1 = (output st ++ [r])%list /\ tr_expression r <> "接受".
Proof.
  unfold engine_iteration. intros H.
  repeat match type of H with
         | match ?x with _ => _ end = _ => destruct x; try discriminate
         | (let _ := _ in _) = _ => simpl in H
         end;
    injection H as <-; eexists; (split; [reflexivity|]); simpl; discriminate.
Qed.

Lemma exhausted_is_not_accept self fuel st st' :
  engine_loop fuel self st = Ok (Exhausted st') ->
  (forall r, last (output st) = Some r -> tr_expression r <> "接受") ->
  forall r, last (output st') = Some r -> tr_expression r <> "接受".
Proof.
  revert st. induction fuel as [|fuel IH]; intros st H Hout; [discriminate|].
  simpl in H. destruct (stack st) as [|x l] eqn:E.
  { injection H as <-. exact Hout. }
  destruct (engine_iteration self st) as [st1|st1|st1 ret1|e] eqn:Hit; try discriminate.
  apply (IH _ H). apply next_is_not_accept in Hit as (r & -> & Hr).
  intros r'. rewrite last_snoc. intros [= <-]. exact Hr.
Qed.

Lemma accept_trace_is_accepted self fuel tokens ex :
  engine_loop fuel self (engine_start self tokens) = Ok ex ->
  ends_in_accept (returned_value ex) -> exists st', ex = Accepted st'.
Proof.
  intros H (r & Hlast & Hr). destruct ex as [st'|st'|st' ret]; [| eauto |]; exfalso.
  - apply (exhausted_is_not_accept _ _ _ _ H) in Hlast; [contradiction|].
    intros r'. discriminate.
  - apply engine_loop_returned in H as (r' & _ & _ & _ & [rest He] & ->); [|reflexivity].
    simpl in Hlast. injection Hlast as <-. simpl in Hr. rewrite He in Hr. discriminate Hr.
Qed.

Lemma recognized_is_accepted self tokens :
  engine_recognizes self tokens ->
  exists fuel st',
    engine_loop fuel self (engine_start self tokens) = Ok (Accepted st').
Proof.
  intros (fuel & trace & Hacc & Hrun). specialize (Hrun 0). rewrite Nat.add_0_r in Hrun.
  destruct tokens as [|t tokens].
  - exfalso. simpl in Hrun. injection Hrun as <-.
    destruct Hacc as (r & Hl & Hr). simpl in Hl. injection Hl as <-. discriminate Hr.
  - simpl in Hrun.
    destruct (engine_loop fuel self (engine_start self (t :: tokens))) as [ex| |] eqn:E;
      simpl in Hrun; try discriminate.
    injection Hrun as <-.
    destruct (accept_trace_is_accepted _ _ _ _ E Hacc) as [st' ->]. eauto.
Qed.

Lemma sql_grammar_eq : grammar sql_analyzer = sql_grammar.
Proof. reflexivity. Qed.

Lemma sql_entries_in_grammar : forallb entry_in_grammar sql_entries = true.
Proof. vm_compute. reflexivity. Qed.

Lemma sql_table_in_grammar : table_in_grammar sql_analyzer.
Proof.
  intros nt t p H. apply sql_table_entries in H.
  pose proof sql_entries_in_grammar as Hall. rewrite forallb_forall in Hall.
  apply list_elem_of_In in H. specialize (Hall _ H). unfold entry_in_grammar in Hall.
  cbn [fst snd] in Hall. apply andb_true_iff in Hall as [Hex Hd].
  apply bool_decide_eq_true in Hd. split; [|exact Hd].
  apply existsb_exists in Hex as ([nt' ps] & Hin & Hitem). cbn [fst snd] in Hitem.
  apply andb_true_iff in Hitem as [Hnt Hp]. apply String.eqb_eq in Hnt. subst nt'.
  apply bool_decide_eq_true in Hp. exists ps. split; [|exact Hp].
  rewrite sql_grammar_eq. apply list_elem_of_In, Hin.
Qed.

Lemma sql_dollar_is_no_symbol :
  ("$" ∉ terminals sql_analyzer) /\ ("$" ∉ non_terminals sql_analyzer).
Proof.
  rewrite sql_terminals_eq, sql_non_terminals.
  split; apply (bool_decide_unpack _); vm_compute; exact I.
Qed.

Lemma split_at_first (x : string) (w1 w2 r1 r2 : list string) :
  (w1 ++ x :: r1)%list = (w2 ++ x :: r2)%list -> x ∉ w1 -> x ∉ w2 -> w1 = w2.
Proof.
  revert w2. induction w1 as [|a w1 IH]; intros w2 H H1 H2.
  - destruct w2 as [|b w2]; [reflexivity|]. simpl in H. injection H as <- _.
    exfalso. apply H2. left.
  - apply not_elem_of_cons in H1 as [Ha H1]. destruct w2 as [|b w2]; simpl in H.
    + injection H as -> _. contradiction.
    + injection H as <- H. apply not_elem_of_cons in H2 as [_ H2].
      f_equal. apply (IH _ H H1 H2).
Qed.

(** A word derived from symbols without [x], in a grammar whose
    productions are without [x], is without [x]. *)
Lemma derives_avoids self (x : string) syms w :
  (forall nt ps p, (nt, ps) ∈ grammar self -> p ∈ ps -> x ∉ p) ->
  derives self syms w -> x ∉ syms -> x ∉ w.
Proof.
  intros Hg H. induction H as [|a symbols w Ha H IH|nt ps p symbols w1 w2 Hi Hp H1 IH1 H2 IH2];
    intros Hx.
  - exact Hx.
  - apply not_elem_of_cons in Hx as [Hxa Hx]. apply not_elem_of_cons. auto.
  - apply not_elem_of_cons in Hx as [_ Hx]. rewrite elem_of_app.
    intros [Hin|Hin]; [apply IH1 in Hin; [exact Hin|apply (Hg _ _ _ Hi Hp)]|].
    apply IH2 in Hin; [exact Hin|exact Hx].
Qed.

Lemma sql_productions_without_EOF nt ps p :
  (nt, ps) ∈ grammar sql_analyzer -> p ∈ ps -> "EOF" ∉ p.
Proof.
  rewrite sql_grammar_eq. intros Hi Hp.
  assert (Hall : forallb (fun item : string * list (list string) =>
                            forallb (fun p => bool_decide ("EOF" ∉ p)) item.2)
                         sql_grammar = true) by (vm_compute; reflexivity).
  rewrite forallb_forall in Hall. apply list_elem_of_In in Hi. specialize (Hall _ Hi).
  cbn [snd] in Hall. rewrite forallb_forall in Hall. apply list_elem_of_In in Hp.
  specialize (Hall _ Hp). apply bool_decide_eq_true in Hall. exact Hall.
Qed.

Lemma sql_accept_derives tokens :
  engine_recognizes sql_analyzer tokens ->
  "EOF" ∉ terminal_word sql_analyzer tokens ->
  derives sql_analyzer ["Prog"] (terminal_word sql_analyzer tokens).
Proof.
  intros H Hword. apply recognized_is_accepted in H as (fuel & st' & H).
  unfold engine_start in H. change ["$"; "Prog"] with (rev (["Prog"] ++ ["$"])) in H.
  destruct sql_dollar_is_no_symbol as [HT HN].
  apply (engine_loop_sound _ _ _ _ _ _ _ sql_table_in_grammar HT HN) in H
    as (w & rest & Hw & Hd); [|rewrite list_elem_of_singleton; discriminate].
  assert (HwE : "EOF" ∉ w).
  { apply (derives_avoids _ _ _ _ sql_productions_without_EOF Hd).
    rewrite list_elem_of_singleton. discriminate. }
  unfold converted_tokens in Hw. rewrite fmap_app, <- app_assoc in Hw.
  fold (terminal_word sql_analyzer tokens) in Hw. simpl in Hw.
  apply split_at_first in Hw; [|exact Hword|exact HwE]. rewrite Hw. exact Hd.
Qed.

(** ** The engine accepts every sentence of the grammar *)

Lemma sql_entries_in_table : forallb (entry_in_table sql_analyzer) sql_entries = true.
Proof. vm_compute. reflexivity. Qed.

Lemma entries_in_table self ws nt t p :
  forallb (entry_in_table self) ws = true ->
  (nt, t, p) ∈ ws -> lookup_cell self nt t = Some (Some p).
Proof.
  intros Hall H. rewrite forallb_forall in Hall.
  apply list_elem_of_In in H. specialize (Hall _ H). unfold entry_in_table in Hall.
  apply bool_decide_eq_true in Hall. exact Hall.
Qed.

Lemma sql_cell nt t p :
  (nt, t, p) ∈ sql_entries -> lookup_cell sql_analyzer nt t = Some (Some p).
Proof. exact (entries_in_table sql_analyzer sql_entries nt t p sql_entries_in_table). Qed.

Ltac expand p :=
  eapply (word_expand _ _ _ _ p); [solve_in_list | apply sql_cell; solve_in_list | cbn [app]].

Ltac shift := apply word_match; [solve_in_list | ].

Lemma derives_cons_inv self x syms w :
  derives self (x :: syms) w ->
  exists w1 w2, w = (w1 ++ w2)%list /\ derives self [x] w1 /\ derives self syms w2.
Proof. apply (derives_app_inv self [x] syms w). Qed.

Lemma derives_nil_inv self w : derives self [] w -> w = [].
Proof. intros H. inversion H. reflexivity. Qed.

(** A terminal of the SQL grammar derives itself only. *)
Lemma sql_derives_terminal a w :
  a ∈ sql_terminal_list -> derives sql_analyzer [a] w -> w = [a].
Proof.
  intros Ha H. inversion H as [|a' symbols w' _ Hrest|nt ps p symbols w1 w2 Hi _ _ _]; subst.
  - apply derives_nil_inv in Hrest. subst. reflexivity.
  - exfalso. rewrite sql_grammar_eq in Hi.
    assert (Hk : a ∈ sql_grammar.*1).
    { apply list_elem_of_fmap. exists (a, ps). auto. }
    apply sql_non_terminal_elem, sql_non_terminal_not_terminal in Hk as [Hk _].
    apply Hk, sql_terminal_elem, Ha.
Qed.

Lemma assoc_unique {B} (l : list (string * B)) x y1 y2 :
  NoDup l.*1 -> (x, y1) ∈ l -> (x, y2) ∈ l -> y1 = y2.
Proof.
  induction l as [|[k v] l IH]; intros Hnd H1 H2; [inversion H1|].
  rewrite fmap_cons in Hnd. apply NoDup_cons in Hnd as [Hk Hnd]. simpl in Hk.
  assert (Hin : forall y, (k, y) ∈ l -> False).
  { intros y Hy. apply Hk. apply list_elem_of_fmap. exists (k, y). auto. }
  apply elem_of_cons in H1 as [E1|H1]; apply elem_of_cons in H2 as [E2|H2].
  - congruence.
  - exfalso. injection E1 as -> _. apply (Hin _ H2).
  - exfalso. injection E2 as -> _. apply (Hin _ H1).
  - apply (IH Hnd H1 H2).
Qed.

(** A non-terminal of the SQL grammar derives what one of its productions
    derives. *)
Lemma sql_derives_non_terminal X ps w :
  (X, ps) ∈ sql_grammar -> derives sql_analyzer [X] w ->
  exists p, p ∈ ps /\ derives sql_analyzer p w.
Proof.
  intros HX H.
  assert (Hk : X ∈ sql_grammar.*1).
  { apply list_elem_of_fmap. exists (X, ps). auto. }
  apply sql_non_terminal_elem in Hk as Hnt.
  apply sql_non_terminal_not_terminal in Hnt as [Hnt _].
  inversion H as [|a' symbols w' Ha _|nt ps' p symbols w1 w2 Hi Hp Hd Hrest]; subst.
  - contradiction.
  - apply derives_nil_inv in Hrest. subst. rewrite app_nil_r.
    exists p. split; [|exact Hd]. rewrite sql_grammar_eq in Hi.
    assert (Hnd : NoDup sql_grammar.*1) by (apply (bool_decide_unpack _); vm_compute; exact I).
    rewrite (assoc_unique _ _ _ _ Hnd HX Hi). exact Hp.
Qed.

Lemma sql_derives_terminal_head a syms w :
  a ∈ sql_terminal_list -> derives sql_analyzer (a :: syms) w ->
  exists w', w = a :: w' /\ derives sql_analyzer syms w'.
Proof.
  intros Ha H. apply derives_cons_inv in H as (w1 & w2 & -> & H1 & H2).
  apply (sql_derives_terminal _ _ Ha) in H1. subst w1. eauto.
Qed.

Ltac take_terminal H w' :=
  apply sql_derives_terminal_head in H as (w' & -> & H); [|solve_in_list].

Ltac take_symbol H w1 H1 w2 :=
  apply derives_cons_inv in H as (w1 & w2 & -> & H1 & H).

Ltac take_end H := apply derives_nil_inv in H as ->.

Ltac productions_of H X ps p Hp :=
  apply (sql_derives_non_terminal X ps) in H as (p & Hp & H); [|solve_in_list].

Lemma sql_derives_Tbl w : derives sql_analyzer ["Tbl"] w -> w = ["ID"].
Proof.
  intros H. productions_of H "Tbl" [["ID"]] p Hp.
  apply list_elem_of_singleton in Hp. subst p.
  take_terminal H w'. take_end H. reflexivity.
Qed.

Lemma sql_derives_value X w :
  X = "Expr" \/ X = "Val" -> derives sql_analyzer [X] w ->
  exists v, v ∈ val_kinds /\ w = [v].
Proof.
  intros HX H.
  assert (Hps : (X, [["ID"]; ["NUM"]; ["STRING"]]) ∈ sql_grammar)
    by (destruct HX as [-> | ->]; solve_in_list).
  apply (sql_derives_non_terminal X _ _ Hps) in H as (p & Hp & H).
  repeat (apply elem_of_cons in Hp as [->|Hp];
          [take_terminal H w'; take_end H; eexists; split; [|reflexivity]; solve_in_list|]).
  inversion Hp.
Qed.

Lemma sql_derives_RelOp w :
  derives sql_analyzer ["RelOp"] w -> exists op, op ∈ rel_ops /\ w = [op].
Proof.
  intros H.
  productions_of H "RelOp" [["="]; ["<>"]; ["<"]; [">"]; ["<="]; [">="]; ["!="]] p Hp.
  repeat (apply elem_of_cons in Hp as [->|Hp];
          [take_terminal H w'; take_end H; eexists; split; [|reflexivity]; solve_in_list|]).
  inversion Hp.
Qed.

Lemma complete_Tbl w stk ks :
  derives sql_analyzer ["Tbl"] w -> accepts_word sql_analyzer stk ks ->
  accepts_word sql_analyzer ("Tbl" :: stk) (w ++ ks)%list.
Proof.
  intros H Hk. apply sql_derives_Tbl in H. subst w. simpl.
  expand ["ID"]. shift. exact Hk.
Qed.

Lemma complete_Expr v stk ks :
  v ∈ val_kinds -> accepts_word sql_analyzer stk ks ->
  accepts_word sql_analyzer ("Expr" :: stk) (v :: ks).
Proof.
  intros Hv Hk. destruct (val_kinds_cases v Hv) as [-> | [-> | ->]].
  - expand ["ID"]. shift. exact Hk.
  - expand ["NUM"]. shift. exact Hk.
  - expand ["STRING"]. shift. exact Hk.
Qed.

Lemma complete_RelOp op stk ks :
  op ∈ rel_ops -> accepts_word sql_analyzer stk ks ->
  accepts_word sql_analyzer ("RelOp" :: stk) (op :: ks).
Proof.
  unfold rel_ops. intros Hop Hk.
  repeat (apply elem_of_cons in Hop as [->|Hop];
          [match goal with |- accepts_word _ _ (?a :: _) => expand [a] end;
           shift; exact Hk|]).
  inversion Hop.
Qed.

Lemma complete_SelListRest w stk ks :
  derives sql_analyzer ["SelListRest"] w ->
  accepts_word sql_analyzer stk ("FROM" :: ks) ->
  accepts_word sql_analyzer ("SelListRest" :: stk) (w ++ "FROM" :: ks)%list.
Proof.
  remember (length w) as n eqn:Hn. revert w Hn.
  induction n as [n IH] using lt_wf_ind. intros w Hn H Hk.
  productions_of H "SelListRest" [[]; [","; "ID"; "SelListRest"]] p Hp.
  apply elem_of_cons in Hp as [->|Hp]; [|apply list_elem_of_singleton in Hp; subst p].
  - take_end H. simpl. expand (@nil string). exact Hk.
  - take_terminal H w1. take_terminal H w2. take_symbol H w3 H3 w4. take_end H.
    rewrite app_nil_r in *. simpl. expand [","; "ID"; "SelListRest"]. shift. shift.
    apply (IH (length w3)); [simpl in Hn; lia|reflexivity|exact H3|exact Hk].
Qed.

Lemma complete_SelList w stk ks :
  derives sql_analyzer ["SelList"] w ->
  accepts_word sql_analyzer stk ("FROM" :: ks) ->
  accepts_word sql_analyzer ("SelList" :: stk) (w ++ "FROM" :: ks)%list.
Proof.
  intros H Hk. productions_of H "SelList" [["*"]; ["ID"; "SelListRest"]] p Hp.
  apply elem_of_cons in Hp as [->|Hp]; [|apply list_elem_of_singleton in Hp; subst p].
  - take_terminal H w1. take_end H. simpl. expand ["*"]. shift. exact Hk.
  - take_terminal H w1. take_symbol H w2 H2 w3. take_end H. rewrite app_nil_r. simpl.
    expand ["ID"; "SelListRest"]. shift. apply complete_SelListRest; assumption.
Qed.

Lemma complete_Cond w stk ks :
  derives sql_analyzer ["Cond"] w ->
  accepts_word sql_analyzer stk (";" :: ks) ->
  accepts_word sql_analyzer ("Cond" :: stk) (w ++ ";" :: ks)%list.
Proof.
  remember (length w) as n eqn:Hn. revert w stk Hn.
  induction n as [n IH] using lt_wf_ind. intros w stk Hn H Hk.
  productions_of H "Cond" [["Expr"; "RelOp"; "Expr"; "CondTail"]] p Hp.
  apply list_elem_of_singleton in Hp. subst p.
  take_symbol H w1 H1 w2. take_symbol H w3 H3 w4. take_symbol H w5 H5 w6.
  take_symbol H w7 H7 w8. take_end H. rewrite app_nil_r in *.
  apply sql_derives_value in H1 as (v1 & Hv1 & ->); [|auto].
  apply sql_derives_RelOp in H3 as (op & Hop & ->).
  apply sql_derives_value in H5 as (v2 & Hv2 & ->); [|auto].
  assert (Htail : accepts_word sql_analyzer ("CondTail" :: stk) (w7 ++ ";" :: ks)%list).
  { productions_of H7 "CondTail" [[]; ["AND"; "Cond"]; ["OR"; "Cond"]] p Hp.
    apply elem_of_cons in Hp as [->|Hp];
      [|apply elem_of_cons in Hp as [->|Hp];
        [|apply list_elem_of_singleton in Hp; subst p]].
    - take_end H7. simpl. expand (@nil string). exact Hk.
    - take_terminal H7 wa. take_symbol H7 wb Hb wc. take_end H7. rewrite app_nil_r in *.
      simpl. expand ["AND"; "Cond"]. shift.
      apply (IH (length wb)); [simpl in Hn; rewrite ?length_app in Hn; simpl in Hn; lia
                              |reflexivity|exact Hb|exact Hk].
    - take_terminal H7 wa. take_symbol H7 wb Hb wc. take_end H7. rewrite app_nil_r in *.
      simpl. expand ["OR"; "Cond"]. shift.
      apply (IH (length wb)); [simpl in Hn; rewrite ?length_app in Hn; simpl in Hn; lia
                              |reflexivity|exact Hb|exact Hk]. }
  simpl.
  destruct (val_kinds_cases v1 Hv1) as [-> | [-> | ->]];
    expand ["Expr"; "RelOp"; "Expr"; "CondTail"];
    (apply complete_Expr; [solve_in_list|]);
    (apply complete_RelOp; [exact Hop|]);
    (apply complete_Expr; [exact Hv2|]); exact Htail.
Qed.

Lemma complete_WhereOpt w stk ks :
  derives sql_analyzer ["WhereOpt"] w ->
  accepts_word sql_analyzer stk (";" :: ks) ->
  accepts_word sql_analyzer ("WhereOpt" :: stk) (w ++ ";" :: ks)%list.
Proof.
  intros H Hk. productions_of H "WhereOpt" [[]; ["WHERE"; "Cond"]] p Hp.
  apply elem_of_cons in Hp as [->|Hp]; [|apply list_elem_of_singleton in Hp; subst p].
  - take_end H. simpl. expand (@nil string). exact Hk.
  - take_terminal H w1. take_symbol H w2 H2 w3. take_end H. rewrite app_nil_r. simpl.
    expand ["WHERE"; "Cond"]. shift. apply complete_Cond; assumption.
Qed.

Lemma complete_Val v stk ks :
  v ∈ val_kinds -> accepts_word sql_analyzer stk ks ->
  accepts_word sql_analyzer ("Val" :: stk) (v :: ks).
Proof.
  intros Hv Hk. destruct (val_kinds_cases v Hv) as [-> | [-> | ->]].
  - expand ["ID"]. shift. exact Hk.
  - expand ["NUM"]. shift. exact Hk.
  - expand ["STRING"]. shift. exact Hk.
Qed.

Lemma complete_ValListRest w stk ks :
  derives sql_analyzer ["ValListRest"] w ->
  accepts_word sql_analyzer stk (")" :: ks) ->
  accepts_word sql_analyzer ("ValListRest" :: stk) (w ++ ")" :: ks)%list.
Proof.
  remember (length w) as n eqn:Hn. revert w Hn.
  induction n as [n IH] using lt_wf_ind. intros w Hn H Hk.
  productions_of H "ValListRest" [[]; [","; "Val"; "ValListRest"]] p Hp.
  apply elem_of_cons in Hp as [->|Hp]; [|apply list_elem_of_singleton in Hp; subst p].
  - take_end H. simpl. expand (@nil string). exact Hk.
  - take_terminal H w1. take_symbol H w2 H2 w3. take_symbol H w4 H4 w5. take_end H.
    rewrite app_nil_r in *.
    apply sql_derives_value in H2 as (v & Hv & ->); [|auto].
    simpl. expand [","; "Val"; "ValListRest"]. shift.
    apply complete_Val; [exact Hv|].
    apply (IH (length w4)); [simpl in Hn; lia|reflexivity|exact H4|exact Hk].
Qed.

Lemma complete_ValList w stk ks :
  derives sql_analyzer ["ValList"] w ->
  accepts_word sql_analyzer stk (")" :: ks) ->
  accepts_word sql_analyzer ("ValList" :: stk) (w ++ ")" :: ks)%list.
Proof.
  intros H Hk. productions_of H "ValList" [["Val"; "ValListRest"]] p Hp.
  apply list_elem_of_singleton in Hp. subst p.
  take_symbol H w1 H1 w2. take_symbol H w3 H3 w4. take_end H. rewrite app_nil_r.
  apply sql_derives_value in H1 as (v & Hv & ->); [|auto]. simpl.
  destruct (val_kinds_cases v Hv) as [-> | [-> | ->]];
    expand ["Val"; "ValListRest"];
    (apply complete_Val; [solve_in_list|]); apply complete_ValListRest; assumption.
Qed.

Lemma complete_SetListRest w stk ks :
  derives sql_analyzer ["SetListRest"] w ->
  accepts_word sql_analyzer stk (";" :: ks) ->
  accepts_word sql_analyzer ("SetListRest" :: stk) (w ++ ";" :: ks)%list.
Proof.
  remember (length w) as n eqn:Hn. revert w Hn.
  induction n as [n IH] using lt_wf_ind. intros w Hn H Hk.
  productions_of H "SetListRest" [[]; [","; "ID"; "="; "Val"; "SetListRest"]] p Hp.
  apply elem_of_cons in Hp as [->|Hp]; [|apply list_elem_of_singleton in Hp; subst p].
  - take_end H. simpl. expand (@nil string). exact Hk.
  - take_terminal H w1. take_terminal H w2. take_terminal H w3.
    take_symbol H w4 H4 w5. take_symbol H w6 H6 w7. take_end H.
    rewrite app_nil_r in *.
    apply sql_derives_value in H4 as (v & Hv & ->); [|auto].
    simpl. expand [","; "ID"; "="; "Val"; "SetListRest"]. shift. shift. shift.
    apply complete_Val; [exact Hv|].
    apply (IH (length w6)); [simpl in Hn; lia|reflexivity|exact H6|exact Hk].
Qed.

Lemma complete_SetList w stk ks :
  derives sql_analyzer ["SetList"] w ->
  accepts_word sql_analyzer stk (";" :: ks) ->
  accepts_word sql_analyzer ("SetList" :: stk) (w ++ ";" :: ks)%list.
Proof.
  intros H Hk. productions_of H "SetList" [["ID"; "="; "Val"; "SetListRest"]] p Hp.
  apply list_elem_of_singleton in Hp. subst p.
  take_terminal H w1. take_terminal H w2. take_symbol H w3 H3 w4.
  take_symbol H w5 H5 w6. take_end H. rewrite app_nil_r.
  apply sql_derives_value in H3 as (v & Hv & ->); [|auto]. simpl.
  expand ["ID"; "="; "Val"; "SetListRest"]. shift. shift.
  apply complete_Val; [exact Hv|]. apply complete_SetListRest; assumption.
Qed.

(** A sentence of [Prog] is accepted from the initial stack. *)
Ltac flatten_word := repeat (progress (rewrite <- ?app_assoc; cbn [app])).

Lemma complete_Prog w :
  derives sql_analyzer ["Prog"] w ->
  w <> [] /\ accepts_word sql_analyzer ["Prog"; "$"] (w ++ ["EOF"])%list.
Proof.
  intros H. productions_of H "Prog" [["Query"; ";"]] p Hp.
  apply list_elem_of_singleton in Hp. subst p.
  take_symbol H wq Hq w2. take_terminal H w3. take_end H.
  split; [destruct wq; discriminate|]. rewrite <- app_assoc. cbn [app].
  assert (Hsemi : accepts_word sql_analyzer [";"; "$"] (";" :: ["EOF"])).
  { shift. apply word_end. }
  productions_of Hq "Query"
    [["SELECT"; "SelList"; "FROM"; "Tbl"; "WhereOpt"];
     ["INSERT"; "INTO"; "Tbl"; "VALUES"; "("; "ValList"; ")"];
     ["UPDATE"; "Tbl"; "SET"; "SetList"];
     ["DELETE"; "FROM"; "Tbl"]] p Hp.
  apply elem_of_cons in Hp as [->|Hp];
    [|apply elem_of_cons in Hp as [->|Hp];
      [|apply elem_of_cons in Hp as [->|Hp];
        [|apply list_elem_of_singleton in Hp; subst p]]].
  - take_terminal Hq w1. take_symbol Hq ws Hs w4. take_terminal Hq w5.
    take_symbol Hq wt Ht w6. take_symbol Hq ww Hw w7. take_end Hq.
    rewrite ?app_nil_r. flatten_word.
    expand ["Query"; ";"]. expand ["SELECT"; "SelList"; "FROM"; "Tbl"; "WhereOpt"].
    shift. apply complete_SelList; [exact Hs|]. shift.
    apply complete_Tbl; [exact Ht|]. apply complete_WhereOpt; [exact Hw|exact Hsemi].
  - take_terminal Hq w1. take_terminal Hq w4. take_symbol Hq wt Ht w5.
    take_terminal Hq w6. take_terminal Hq w7. take_symbol Hq wv Hv w8.
    take_terminal Hq w9. take_end Hq.
    rewrite ?app_nil_r. flatten_word.
    expand ["Query"; ";"].
    expand ["INSERT"; "INTO"; "Tbl"; "VALUES"; "("; "ValList"; ")"].
    shift. shift. apply complete_Tbl; [exact Ht|]. shift. shift.
    apply complete_ValList; [exact Hv|]. shift. exact Hsemi.
  - take_terminal Hq w1. take_symbol Hq wt Ht w4. take_terminal Hq w5.
    take_symbol Hq wl Hl w6. take_end Hq.
    rewrite ?app_nil_r. flatten_word.
    expand ["Query"; ";"]. expand ["UPDATE"; "Tbl"; "SET"; "SetList"].
    shift. apply complete_Tbl; [exact Ht|]. shift.
    apply complete_SetList; [exact Hl|exact Hsemi].
  - take_terminal Hq w1. take_terminal Hq w4. take_symbol Hq wt Ht w5. take_end Hq.
    rewrite ?app_nil_r. flatten_word.
    expand ["Query"; ";"]. expand ["DELETE"; "FROM"; "Tbl"].
    shift. shift. apply complete_Tbl; [exact Ht|exact Hsemi].
Qed.

(** X14: Soundness of the engine: when the engine accepts a token list whose
    terminals do not include the end marker [EOF], the word of its
    terminals is a sentence of the grammar, derived from [Prog]. *)
Theorem accepted_words_are_sentences tokens :
  engine_recognizes sql_analyzer tokens ->
  "EOF" ∉ terminal_word sql_analyzer tokens ->
  derives sql_analyzer ["Prog"] (terminal_word sql_analyzer tokens).
Proof. apply sql_accept_derives. Qed.

Lemma delete_from_t_terminals :
  terminal_word sql_analyzer tokens_delete_from_t = ["DELETE"; "FROM"; "ID"; ";"].
Proof. exact delete_from_t_word. Qed.

Lemma delete_from_t_recognized : engine_recognizes sql_analyzer tokens_delete_from_t.
Proof.
  apply recognizes_word; rewrite delete_from_t_terminals;
    [discriminate|apply word_delete; reflexivity].
Qed.

Lemma delete_from_t_no_EOF : "EOF" ∉ terminal_word sql_analyzer tokens_delete_from_t.
Proof. rewrite delete_from_t_terminals. apply (bool_decide_unpack _). vm_compute. exact I. Qed.

Lemma accepted_words_are_sentences_witness :
  derives sql_analyzer ["Prog"] (terminal_word sql_analyzer tokens_delete_from_t).
Proof.
  apply (accepted_words_are_sentences tokens_delete_from_t).
  - exact delete_from_t_recognized.
  - exact delete_from_t_no_EOF.
Defined.

(** X15: Completeness of the engine: every token list whose terminals form a
    sentence of the grammar is accepted, the trace ending in the accept
    record. *)
Theorem sentences_are_accepted tokens :
  derives sql_analyzer ["Prog"] (terminal_word sql_analyzer tokens) ->
  engine_recognizes sql_analyzer tokens.
Proof.
  intros H. apply complete_Prog in H as [Hne H]. apply recognizes_word; assumption.
Qed.

Lemma sql_production self nt ps p symbols w1 w2 :
  grammar self = sql_grammar -> (nt, ps) ∈ sql_grammar -> p ∈ ps ->
  derives self p w1 -> derives self symbols w2 ->
  derives self (nt :: symbols) (w1 ++ w2).
Proof. intros Hg Hi. rewrite <- Hg in Hi. apply derives_production, Hi. Qed.

Lemma sql_terminal self a symbols w :
  terminals self = sql_terminals -> a ∈ sql_terminal_list ->
  derives self symbols w -> derives self (a :: symbols) (a :: w).
Proof.
  intros Ht Ha. apply derives_terminal. rewrite Ht. unfold sql_terminals.
  apply elem_of_list_to_set, Ha.
Qed.

(** The derivation of [DELETE FROM ID ;] in any analyzer that has the SQL
    grammar and terminals. *)
Lemma delete_sentence self :
  grammar self = sql_grammar -> terminals self = sql_terminals ->
  derives self ["Prog"] ["DELETE"; "FROM"; "ID"; ";"].
Proof.
  intros Hg Ht.
  apply (sql_production self "Prog" [["Query"; ";"]] ["Query"; ";"] []
           ["DELETE"; "FROM"; "ID"; ";"] [] Hg);
    [solve_in_list|left| |constructor].
  apply (sql_production self "Query"
           [["SELECT"; "SelList"; "FROM"; "Tbl"; "WhereOpt"];
            ["INSERT"; "INTO"; "Tbl"; "VALUES"; "("; "ValList"; ")"];
            ["UPDATE"; "Tbl"; "SET"; "SetList"];
            ["DELETE"; "FROM"; "Tbl"]] ["DELETE"; "FROM"; "Tbl"] [";"]
           ["DELETE"; "FROM"; "ID"] [";"] Hg);
    [solve_in_list|solve_in_list| |].
  - apply (sql_terminal self _ _ _ Ht); [solve_in_list|].
    apply (sql_terminal self _ _ _ Ht); [solve_in_list|].
    apply (sql_production self "Tbl" [["ID"]] ["ID"] [] ["ID"] [] Hg);
      [solve_in_list|left| |constructor].
    apply (sql_terminal self _ _ _ Ht); [solve_in_list|constructor].
  - apply (sql_terminal self _ _ _ Ht); [solve_in_list|constructor].
Qed.

Lemma delete_from_t_sentence :
  derives sql_analyzer ["Prog"] (terminal_word sql_analyzer tokens_delete_from_t).
Proof.
  rewrite delete_from_t_terminals.
  exact (delete_sentence sql_analyzer sql_grammar_eq sql_terminals_eq).
Qed.

Lemma sentences_are_accepted_witness :
  engine_recognizes sql_analyzer tokens_delete_from_t.
Proof.
  apply (sentences_are_accepted tokens_delete_from_t). exact delete_from_t_sentence.
Defined.

(** ** Splitting a token list into statements *)

Section HelperFacts.

Import Helper.

Lemma closes_statement_spec tok b :
  closes_statement tok = Ok b -> (b = true <-> is_semicolon tok).
Proof.
  unfold closes_statement, getitem, is_semicolon. intros H.
  destruct (tok !! "type") as [ty|]; simpl in H; [|discriminate].
  destruct (decide (ty = PStr "RANGE")) as [->|Hne].
  - destruct (tok !! "value") as [v|]; simpl in H; [|discriminate].
    injection H as <-. rewrite bool_decide_eq_true. split.
    + intros ->. auto.
    + intros [_ [= ->]]. reflexivity.
  - injection H as <-. split; [discriminate|]. intros [[= ->] _]. contradiction.
Qed.

(** The invariant of the second loop. *)
Lemma split_loop unified stmts cur stmts' cur' :
  for_each split_step unified (stmts, cur) = Ok (stmts', cur') ->
  Forall (fun tok => ~ is_semicolon tok) cur ->
  (concat stmts' ++ cur')%list = (concat stmts ++ cur ++ unified)%list /\
  Forall (fun tok => ~ is_semicolon tok) cur' /\
  exists new, stmts' = (stmts ++ new)%list /\
              Forall (fun s => one_statement s true) new.
Proof.
  revert stmts cur. induction unified as [|tok unified IH]; intros stmts cur H Hcur;
    simpl in H.
  - injection H as <- <-. rewrite app_nil_r. split; [reflexivity|].
    split; [exact Hcur|]. exists []. rewrite app_nil_r. split; [reflexivity|constructor].
  - unfold split_step in H at 1. simpl in H.
    destruct (closes_statement tok) as [closing| |] eqn:Ec; simpl in H; try discriminate.
    apply closes_statement_spec in Ec. destruct closing; simpl in H.
    + apply IH in H as (Hcat & Hcur' & new & -> & Hnew); [|constructor].
      split; [|split; [exact Hcur'|]].
      * rewrite Hcat, concat_app. simpl. rewrite app_nil_r, <- !app_assoc. reflexivity.
      * exists ((cur ++ [tok])%list :: new). split; [rewrite <- app_assoc; reflexivity|].
        constructor; [|exact Hnew]. exists cur, tok. split; [reflexivity|].
        split; [exact Hcur|]. apply Ec. reflexivity.
    + apply IH in H as (Hcat & Hcur' & new & -> & Hnew).
      * split; [|split; [exact Hcur'|eauto]].
        rewrite Hcat, <- !app_assoc. reflexivity.
      * apply Forall_app. split; [exact Hcur|]. constructor; [|constructor].
        intros Hs. apply Ec in Hs. discriminate.
Qed.

Lemma split_statements_spec tokens stmts :
  split_statements tokens = Ok stmts ->
  concat stmts = unify <$> tokens /\
  exists closed open,
    stmts = (closed ++ open)%list /\
    Forall (fun s => one_statement s true) closed /\
    (open = [] \/ exists s, open = [s] /\ one_statement s false).
Proof.
  unfold split_statements.
  destruct (for_each split_step (unify <$> tokens) ([], [])) as [[stmts' cur']| |] eqn:E;
    simpl; try discriminate.
  apply split_loop in E as (Hcat & Hcur & new & Hnew & Hall); [|constructor].
  simpl in Hcat, Hnew. subst stmts'.
  destruct cur' as [|tok cur'] using rev_ind.
  - intros [= <-]. rewrite app_nil_r in Hcat. split; [exact Hcat|].
    exists new, []. rewrite app_nil_r. auto.
  - clear IHcur'. destruct (cur' ++ [tok])%list as [|x l] eqn:Ecur.
    { apply app_eq_nil in Ecur as [_ Ecur]. discriminate. }
    rewrite <- Ecur in *. intros [= <-]. split.
    + rewrite concat_app. simpl. rewrite app_nil_r. exact Hcat.
    + exists new, [(cur' ++ [tok])%list]. split; [reflexivity|]. split; [exact Hall|].
      right. eexists. split; [reflexivity|]. apply Forall_app in Hcur as [Hb Ht].
      exists cur', tok. split; [reflexivity|]. split; [exact Hb|].
      inversion Ht; assumption.
Qed.



End HelperFacts.

(** X16: [split_statements] cuts the token list after every semicolon and loses
    nothing: the statements concatenated are the tokens in their order (a
    tuple turned into its dict); every statement is a run of tokens that are
    not semicolons followed by one last token, which is a semicolon in
    every statement except possibly the last one, where it is not. *)
Theorem split_statements_cuts_at_semicolons tokens stmts :
  Helper.split_statements tokens = Ok stmts ->
  concat stmts = Helper.unify <$> tokens /\
  exists closed open,
    stmts = (closed ++ open)%list /\
    Forall (fun s => Helper.one_statement s true) closed /\
    (open = [] \/ exists s, open = [s] /\ Helper.one_statement s false).
Proof. apply split_statements_spec. Qed.

Lemma split_statements_cuts_at_semicolons_witness :
  concat [[Helper.as_dict ("KEYWORD", "DELETE", 1, 0)%Z;
           Helper.as_dict ("RANGE", ";", 1, 6)%Z];
          [Helper.as_dict ("ID", "x", 1, 8)%Z]]
  = Helper.unify <$> [inl ("KEYWORD", "DELETE", 1, 0)%Z; inl ("RANGE", ";", 1, 6)%Z;
                      inl ("ID", "x", 1, 8)%Z] /\
  exists closed open,
    [[Helper.as_dict ("KEYWORD", "DELETE", 1, 0)%Z;
      Helper.as_dict ("RANGE", ";", 1, 6)%Z];
     [Helper.as_dict ("ID", "x", 1, 8)%Z]] = (closed ++ open)%list /\
    Forall (fun s => Helper.one_statement s true) closed /\
    (open = [] \/ exists s, open = [s] /\ Helper.one_statement s false).
Proof.
  apply (split_statements_cuts_at_semicolons
           [inl ("KEYWORD", "DELETE", 1, 0)%Z; inl ("RANGE", ";", 1, 6)%Z;
            inl ("ID", "x", 1, 8)%Z]).
  vm_compute. reflexivity.
Defined.


(** ** What the match records of a trace spell *)

Lemma matched_snoc trace r :
  matched (trace ++ [r]) = (matched trace ++ match matched_terminal r with
                                             | Some a => [a]
                                             | None => []
                                             end)%list.
Proof.
  unfold matched. rewrite omap_app. simpl. destruct (matched_terminal r); reflexivity.
Qed.

(** The two ways an iteration goes on: a match or an expansion. *)
Lemma next_cases self st st1 :
  engine_iteration self st = Next st1 ->
  (exists t, input_tokens st = t :: input_tokens st1 /\
             last (stack st) = Some (tok_kind t) /\
             stack st1 = removelast (stack st) /\
             matched (output st1) = (matched (output st) ++ [tok_kind t])%list) \/
  (exists top p, last (stack st) = Some top /\
                 lookup_cell self top (current_type st) = Some (Some p) /\
                 stack st1 = (removelast (stack st) ++ rev p)%list /\
                 input_tokens st1 = input_tokens st /\
                 matched (output st1) = matched (output st)).
Proof.
  unfold engine_iteration. intros H.
  destruct (last (stack st)) as [top|] eqn:Hlast; [|discriminate].
  cbv zeta in H.
  destruct (decide (top = "$" /\ current_type st = "EOF")); [discriminate|].
  destruct (decide (top ∈ terminals self)).
  - destruct (decide (top = current_type st)) as [Heq|]; [|discriminate].
    destruct (input_tokens st) as [|t rest] eqn:Hin; [discriminate|].
    injection H as <-. left. exists t.
    assert (Hk : current_type st = tok_kind t).
    { unfold current_type, current_token. rewrite Hin. reflexivity. }
    rewrite Heq, Hk. split; [reflexivity|]. split; [reflexivity|].
    split; [reflexivity|]. unfold emit. cbn [output]. rewrite matched_snoc.
    reflexivity.
  - destruct (decide (top ∈ non_terminals self)); [|discriminate].
    destruct (parsing_table self !! top) as [row|] eqn:Hrow; [|discriminate].
    destruct (row !! current_type st) as [[p|]|] eqn:Hcell; try discriminate.
    right. exists top, p.
    assert (Hlk : lookup_cell self top (current_type st) = Some (Some p)).
    { unfold lookup_cell. rewrite Hrow. exact Hcell. }
    destruct p as [|s p']; injection H as <-; unfold emit; cbn [stack input_tokens output];
      rewrite matched_snoc; cbn [rev]; rewrite ?app_nil_r; auto.
Qed.

Lemma break_cases self st st' :
  engine_iteration self st = Break st' ->
  current_type st = "EOF" /\ matched (output st') = matched (output st).
Proof.
  unfold engine_iteration. intros H.
  destruct (last (stack st)) as [top|] eqn:Hlast; [|discriminate].
  cbv zeta in H.
  destruct (decide (top = "$" /\ current_type st = "EOF")) as [[_ Hc]|].
  - injection H as <-. split; [exact Hc|]. unfold emit. cbn [output].
    rewrite matched_snoc. simpl. apply app_nil_r.
  - repeat match type of H with
           | match ?x with _ => _ end = _ => destruct x; try discriminate
           end.
Qed.

(** Along an accepting run of the SQL analyzer the matched terminals are
    the terminals read, and none of them is [EOF]. *)
Lemma sql_run_matches fuel st st' :
  engine_loop fuel sql_analyzer st = Ok (Accepted st') ->
  Forall (fun s => s <> "EOF") (stack st) ->
  exists w rest,
    matched (output st') = (matched (output st) ++ w)%list /\
    tok_kind <$> input_tokens st = (w ++ rest)%list /\
    ("EOF" ∉ w) /\ (rest = [] \/ head rest = Some "EOF").
Proof.
  revert st. induction fuel as [|fuel IH]; intros st H Hstk; [discriminate|].
  simpl in H. destruct (stack st) as [|x l] eqn:E; [discriminate|]. rewrite <- E in *.
  clear x l E.
  destruct (engine_iteration sql_analyzer st) as [st1|st1|st1 ret1|e] eqn:Hit;
    try discriminate.
  - apply next_cases in Hit
      as [(t & Hin & Hlast & Hs1 & Hm)|(top & p & Hlast & Hlk & Hs1 & Hin & Hm)].
    + apply last_Some in Hlast as [base Hbase].
      assert (Hstk1 : Forall (fun s => s <> "EOF") (stack st1)).
      { rewrite Hs1, Hbase, removelast_last. rewrite Hbase in Hstk.
        apply Forall_app in Hstk as [Hb _]. exact Hb. }
      assert (Ht : tok_kind t <> "EOF").
      { rewrite Hbase in Hstk. apply Forall_app in Hstk as [_ Ht].
        inversion Ht; assumption. }
      destruct (IH _ H Hstk1) as (w & rest & Hw & Hk & HE & Hrest).
      exists (tok_kind t :: w), rest. rewrite Hw, Hm, Hin, fmap_cons, Hk, <- app_assoc.
      split; [reflexivity|]. split; [reflexivity|]. split; [|exact Hrest].
      apply not_elem_of_cons. auto.
    + apply last_Some in Hlast as [base Hbase].
      assert (Hstk1 : Forall (fun s => s <> "EOF") (stack st1)).
      { rewrite Hs1, Hbase, removelast_last. rewrite Hbase in Hstk.
        apply Forall_app in Hstk as [Hb _]. apply Forall_app. split; [exact Hb|].
        apply Forall_rev. apply (sql_entry_fit _ _ _ Hlk). }
      destruct (IH _ H Hstk1) as (w & rest & Hw & Hk & HE & Hrest).
      exists w, rest. rewrite Hw, Hm, <- Hin. auto.
  - injection H as <-. apply break_cases in Hit as [Hc Hm].
    exists [], (tok_kind <$> input_tokens st). rewrite Hm, app_nil_r.
    split; [reflexivity|]. split; [reflexivity|]. split; [apply not_elem_of_nil|].
    unfold current_type, current_token in Hc.
    destruct (input_tokens st) as [|t r]; [left; reflexivity|right].
    simpl. rewrite Hc. reflexivity.
Qed.

Lemma sql_accepting_trace_matches fuel tokens trace :
  (analyze_tokens fuel tokens sql_analyzer).2 = Ok trace ->
  ends_in_accept trace ->
  "EOF" ∉ terminal_word sql_analyzer tokens ->
  matched trace = terminal_word sql_analyzer tokens.
Proof.
  intros Hrun Hacc Hword. destruct tokens as [|t tokens].
  { exfalso. simpl in Hrun. injection Hrun as <-.
    destruct Hacc as (r & Hl & Hr). simpl in Hl. injection Hl as <-. discriminate Hr. }
  cbn [analyze_tokens snd] in Hrun.
  destruct (engine_loop fuel sql_analyzer (engine_start sql_analyzer (t :: tokens)))
    as [ex| |] eqn:E; simpl in Hrun; try discriminate.
  injection Hrun as <-.
  destruct (accept_trace_is_accepted _ _ _ _ E Hacc) as [st' ->].
  apply sql_run_matches in E as (w & rest & Hw & Hk & HE & Hrest).
  - simpl in Hw. cbn [returned_value]. rewrite Hw. clear Hw.
    unfold engine_start, converted_tokens in Hk. cbn [input_tokens] in Hk.
    rewrite fmap_app in Hk. fold (terminal_word sql_analyzer (t :: tokens)) in Hk.
    simpl in Hk. destruct Hrest as [->|Hrest].
    + exfalso. rewrite app_nil_r in Hk. subst w. apply HE.
      apply elem_of_app. right. left.
    + destruct rest as [|e rest]; [discriminate|]. injection Hrest as ->.
      symmetry. apply (split_at_first "EOF" _ _ [] rest Hk Hword HE).
  - unfold engine_start. cbn [stack]. repeat constructor; discriminate.
Qed.

(** X18: In an accepting trace of the SQL analyzer the match records
    ["匹配 X"], read in order, spell exactly the terminals of the input:
    every terminal is matched once, in the order of the tokens, and nothing
    else is. *)
Theorem accepting_trace_spells_input fuel tokens trace :
  (analyze_tokens fuel tokens sql_analyzer).2 = Ok trace ->
  ends_in_accept trace ->
  "EOF" ∉ terminal_word sql_analyzer tokens ->
  matched trace = terminal_word sql_analyzer tokens.
Proof. apply sql_accepting_trace_matches. Qed.

Lemma delete_from_t_trace_accepts : ends_in_accept delete_from_t_trace.
Proof. eexists. split; reflexivity. Qed.

Lemma accepting_trace_spells_input_witness :
  matched delete_from_t_trace = terminal_word sql_analyzer tokens_delete_from_t.
Proof.
  apply (accepting_trace_spells_input 20 tokens_delete_from_t delete_from_t_trace).
  - exact delete_from_t_traced.
  - exact delete_from_t_trace_accepts.
  - exact delete_from_t_no_EOF.
Defined.

(** ** What the tree builder has read when it returns *)

Lemma pending_lookup self t :
  _stream self !! _idx self = Some t ->
  pending self = t :: pending (set_idx (_idx self + 1) self).
Proof.
  intros H. unfold pending. cbn [_idx _stream set_idx].
  rewrite Nat.add_1_r. apply drop_S. exact H.
Qed.

Lemma accept_inv term self self' r :
  _accept term self = (self', Ok r) ->
  (exists t, r = Some t /\ tok_kind t = term /\ pending self = t :: pending self') \/
  (r = None /\ self' = self).
Proof.
  unfold _accept, pbind, _current.
  destruct (_stream self !! _idx self) as [t|] eqn:E; [|discriminate].
  destruct (decide (tok_kind t = term)) as [Hk|Hk].
  - intros [= <- <-]. left. exists t. split; [reflexivity|]. split; [exact Hk|].
    apply pending_lookup, E.
  - intros [= <- <-]. right. auto.
Qed.

Lemma expect_inv term self self' t :
  _expect term self = (self', Ok t) ->
  tok_kind t = term /\ pending self = t :: pending self'.
Proof.
  unfold _expect, pbind, _current.
  destruct (_stream self !! _idx self) as [t0|] eqn:E; [|discriminate].
  destruct (decide (tok_kind t0 <> term)) as [Hk|Hk]; [discriminate|].
  intros [= <- <-]. apply dec_stable in Hk. split; [exact Hk|].
  apply pending_lookup, E.
Qed.

Lemma parse_Expr_inv self self' node :
  _parse_Expr self = (self', Ok node) ->
  exists t, is_expr_token t /\ node = expr_node t /\ pending self = t :: pending self'.
Proof.
  unfold _parse_Expr, pbind, _current.
  destruct (_stream self !! _idx self) as [t|] eqn:E; [|discriminate].
  apply pending_lookup in E. unfold is_expr_token, expr_node.
  repeat (destruct (decide _) as [Hk|_];
          [intros [= <- <-]; exists t; rewrite Hk;
           split; [apply (bool_decide_unpack _); vm_compute; exact I|];
           split; [reflexivity|exact E]|]).
  discriminate.
Qed.

Lemma parse_RelOp_loop_inv ops self self' op :
  parse_RelOp_loop ops self = (self', Ok op) ->
  exists t, tok_kind t ∈ ops /\ op = tok_kind t /\ pending self = t :: pending self'.
Proof.
  induction ops as [|o ops IH]; simpl.
  - unfold pbind, _current. destruct (_stream self !! _idx self); discriminate.
  - unfold pbind. destruct (_accept o self) as [s1 [[hit|]| |]] eqn:Ea; try discriminate.
    + apply accept_inv in Ea as [(t & [= ->] & Hk & Hp)|[[=] _]].
      intros [= <- <-]. exists t. rewrite Hk. split; [left|]. auto.
    + apply accept_inv in Ea as [(t & [=] & _)|[_ ->]].
      intros H. apply IH in H as (t & Hin & -> & Hp). exists t.
      split; [right; exact Hin|]. auto.
Qed.

Lemma parse_SelListRest_inv fuel self self' names :
  _parse_SelListRest fuel self = (self', Ok names) ->
  exists more,
    Forall (fun p : token * token => tok_kind p.1 = "," /\ tok_kind p.2 = "ID") more /\
    names = (fun p : token * token => tok_value p.2) <$> more /\
    pending self = (flat_map (fun p : token * token => [p.1; p.2]) more ++ pending self')%list.
Proof.
  revert self self' names. induction fuel as [|fuel IH]; intros self self' names;
    [discriminate|].
  cbn [_parse_SelListRest]. unfold pbind.
  destruct (_accept "," self) as [s1 [[comma|]| |]] eqn:Ea; try discriminate.
  - apply accept_inv in Ea as [(t & [= ->] & Hk & Hp)|[[=] _]].
    destruct (_expect "ID" s1) as [s2 [id| |]] eqn:Ee; try discriminate.
    apply expect_inv in Ee as [Hi Hp1].
    destruct (_parse_SelListRest fuel s2) as [s3 [more_names| |]] eqn:Er; try discriminate.
    apply IH in Er as (more & Hmore & -> & Hp2). intros [= <- <-].
    exists ((t, id) :: more). split; [constructor; auto|]. split; [reflexivity|].
    simpl. rewrite Hp, Hp1, Hp2. reflexivity.
  - apply accept_inv in Ea as [(t & [=] & _)|[_ ->]]. intros [= <- <-].
    exists []. split; [constructor|]. auto.
Qed.

Lemma parse_Cond_inv fuel self self' node :
  _parse_Cond fuel self = (self', Ok node) ->
  exists c links,
    comparison_ok c /\ Forall link_ok links /\
    pending self = (comparison_tokens c ++ chain_tokens links ++ pending self')%list.
Proof.
  revert self self' node. induction fuel as [|fuel IH]; intros self self' node;
    [discriminate|].
  cbn [_parse_Cond]. unfold pbind at 1.
  destruct (_parse_Expr self) as [s1 [left_| |]] eqn:E1; try discriminate.
  apply parse_Expr_inv in E1 as (tl & Hl & _ & Hp1).
  unfold pbind at 1.
  destruct (_parse_RelOp s1) as [s2 [op| |]] eqn:E2; try discriminate.
  apply parse_RelOp_loop_inv in E2 as (to & Ho & _ & Hp2).
  unfold pbind at 1.
  destruct (_parse_Expr s2) as [s3 [right_| |]] eqn:E3; try discriminate.
  apply parse_Expr_inv in E3 as (tr & Hr & _ & Hp3).
  assert (Hc : comparison_ok (mkComparison tl to tr)) by (repeat split; assumption).
  assert (Hp : pending self
               = (comparison_tokens (mkComparison tl to tr) ++ pending s3)%list).
  { rewrite Hp1, Hp2, Hp3. reflexivity. }
  clear Hp1 Hp2 Hp3.
  unfold pbind at 1, parse_CondTail_with. unfold pbind at 1.
  destruct (_accept "AND" s3) as [s4 [[a|]| |]] eqn:Ea; try discriminate.
  - apply accept_inv in Ea as [(t & [= ->] & Hk & Hpa)|[[=] _]].
    unfold pbind at 1.
    destruct (_parse_Cond fuel s4) as [s5 [rhs| |]] eqn:Er; try discriminate.
    apply IH in Er as (c' & links & Hc' & Hlinks & Hp5). intros [= <- _].
    exists (mkComparison tl to tr), ((t, c') :: links). split; [exact Hc|].
    split; [constructor; [|exact Hlinks]|].
    + split; [|exact Hc']. unfold is_combinator_token. simpl. rewrite Hk. left.
    + rewrite Hp, Hpa, Hp5. simpl. rewrite <- ?app_assoc. reflexivity.
  - apply accept_inv in Ea as [(t & [=] & _)|[_ ->]].
    unfold pbind at 1.
    destruct (_accept "OR" s3) as [s4 [[o|]| |]] eqn:Eo; try discriminate.
    + apply accept_inv in Eo as [(t & [= ->] & Hk & Hpa)|[[=] _]].
      unfold pbind at 1.
      destruct (_parse_Cond fuel s4) as [s5 [rhs| |]] eqn:Er; try discriminate.
      apply IH in Er as (c' & links & Hc' & Hlinks & Hp5). intros [= <- _].
      exists (mkComparison tl to tr), ((t, c') :: links). split; [exact Hc|].
      split; [constructor; [|exact Hlinks]|].
      * split; [|exact Hc']. unfold is_combinator_token. simpl. rewrite Hk.
        right. left.
      * rewrite Hp, Hpa, Hp5. simpl. rewrite <- ?app_assoc. reflexivity.
    + apply accept_inv in Eo as [(t & [=] & _)|[_ ->]]. intros [= <- _].
      exists (mkComparison tl to tr), []. split; [exact Hc|]. split; [constructor|].
      exact Hp.
Qed.

Lemma parse_SelList_inv fuel self self' node :
  _parse_SelList fuel self = (self', Ok node) ->
  exists l, select_list_ok l /\
            pending self = (select_list_tokens l ++ pending self')%list.
Proof.
  unfold _parse_SelList, pbind.
  destruct (_accept "*" self) as [s1 [[star|]| |]] eqn:Ea; try discriminate.
  - apply accept_inv in Ea as [(t & [= ->] & Hk & Hp)|[[=] _]]. intros [= <- _].
    exists (AllColumns t). split; [exact Hk|exact Hp].
  - apply accept_inv in Ea as [(t & [=] & _)|[_ ->]].
    destruct (_expect "ID" self) as [s2 [id| |]] eqn:Ee; try discriminate.
    apply expect_inv in Ee as [Hi Hp1].
    destruct (_parse_SelListRest fuel s2) as [s3 [names| |]] eqn:Er; try discriminate.
    apply parse_SelListRest_inv in Er as (more & Hmore & _ & Hp2). intros [= <- _].
    exists (NamedColumns id more). split; [split; assumption|].
    simpl. rewrite Hp1, Hp2. reflexivity.
Qed.

Lemma parse_WhereOpt_inv fuel self self' w :
  _parse_WhereOpt fuel self = (self', Ok w) ->
  exists wc, where_ok wc /\ pending self = (where_tokens wc ++ pending self')%list.
Proof.
  unfold _parse_WhereOpt, pbind.
  destruct (_accept "WHERE" self) as [s1 [[wh|]| |]] eqn:Ea; try discriminate.
  - apply accept_inv in Ea as [(t & [= ->] & Hk & Hp)|[[=] _]].
    destruct (_parse_Cond fuel s1) as [s2 [c| |]] eqn:Ec; try discriminate.
    apply parse_Cond_inv in Ec as (c0 & links & Hc & Hlinks & Hp1). intros [= <- _].
    exists (Some (mkWhere t c0 links)).
    split; [split; [exact Hk|split; [exact Hc|exact Hlinks]]|].
    simpl. rewrite Hp, Hp1. rewrite <- ?app_assoc. reflexivity.
  - apply accept_inv in Ea as [(t & [=] & _)|[_ ->]]. intros [= <- _].
    exists None. split; [exact I|reflexivity].
Qed.

(** When the builder returns a tree, its stream starts with a well-formed
    SELECT statement, followed by an end-of-input token. *)
Lemma build_ast_inv tokens self tree :
  (build_ast_from_tokens tokens self).2 = Ok tree ->
  exists s e rest,
    select_ok s /\ tok_kind e = "EOF" /\
    _map_tokens self tokens = (select_tokens s ++ e :: rest)%list.
Proof.
  unfold build_ast_from_tokens.
  set (self1 := set_stream (_map_tokens self tokens) (set_idx 0 self)).
  assert (Hp0 : pending self1 = _map_tokens self tokens) by reflexivity.
  generalize (length (_map_tokens self tokens)). intros fuel.
  unfold _parse_Prog, _parse_Query. unfold pbind at 1. unfold pbind at 1.
  unfold pbind at 1.
  destruct (_accept "SELECT" self1) as [s1 [[sel|]| |]] eqn:Ea; try discriminate.
  apply accept_inv in Ea as [(tsel & [= ->] & Hsel & Hp1)|[[=] _]].
  unfold pbind at 1.
  destruct (_parse_SelList fuel s1) as [s2 [cols| |]] eqn:El; try discriminate.
  apply parse_SelList_inv in El as (l & Hl & Hp2).
  unfold pbind at 1.
  destruct (_expect "FROM" s2) as [s3 [from| |]] eqn:Ef; try discriminate.
  apply expect_inv in Ef as [Hfrom Hp3].
  unfold pbind at 1, _parse_Tbl. unfold pbind at 1.
  destruct (_expect "ID" s3) as [s4 [tbl| |]] eqn:Et; try discriminate.
  apply expect_inv in Et as [Htbl Hp4].
  unfold pret at 1. unfold pbind at 1.
  destruct (_parse_WhereOpt fuel s4) as [s5 [w| |]] eqn:Ew; try discriminate.
  apply parse_WhereOpt_inv in Ew as (wc & Hwc & Hp5).
  unfold pret at 1. unfold pbind at 1.
  destruct (_expect ";" s5) as [s6 [semi| |]] eqn:Es; try discriminate.
  apply expect_inv in Es as [Hsemi Hp6].
  unfold pret at 1. unfold pbind at 1.
  destruct (_expect "EOF" s6) as [s7 [e| |]] eqn:Ee; try discriminate.
  apply expect_inv in Ee as [He Hp7]. intros _.
  exists (mkSelect tsel l from tbl wc semi), e, (pending s7).
  split; [split; [exact Hsel|]; split; [exact Hl|]; split; [exact Hfrom|];
          split; [exact Htbl|]; split; [exact Hwc|exact Hsemi]|].
  split; [exact He|].
  rewrite <- Hp0, Hp1, Hp2, Hp3, Hp4, Hp5, Hp6, Hp7. unfold select_tokens. simpl.
  rewrite <- ?app_assoc. simpl. rewrite <- ?app_assoc. reflexivity.
Qed.

(** ** Well-formed SELECT statements are the SELECT sentences *)









(** ** SELECT sentences are well-formed SELECT statements *)






(** ** The tree builder and the engine on SELECT statements *)

Lemma stream_ends_at_EOF (l s rest : list token) e :
  (l ++ [eof_token] = s ++ e :: rest)%list -> tok_kind e = "EOF" ->
  "EOF" ∉ tok_kind <$> l -> l = s /\ rest = [].
Proof.
  intros Heq He Hl.
  destruct (decide (rest = [])) as [->|Hrest].
  - apply app_inj_tail in Heq as [-> _]. auto.
  - destruct (exists_last Hrest) as (rest' & x & ->). exfalso.
    change (s ++ e :: rest' ++ [x])%list with (s ++ (e :: rest') ++ [x])%list in Heq.
    rewrite app_assoc in Heq. apply app_inj_tail in Heq as [-> _].
    apply Hl. rewrite <- He. apply list_elem_of_fmap. exists e. split; [reflexivity|].
    apply elem_of_app. right. left.
Qed.

Lemma build_ast_select tokens self tree :
  "EOF" ∉ terminal_word self tokens ->
  (build_ast_from_tokens tokens self).2 = Ok tree ->
  exists s, select_ok s /\ omap (convert_token self) tokens = select_tokens s /\
            tree = select_tree s.
Proof.
  intros Hword Hbuild.
  destruct (build_ast_inv _ _ _ Hbuild) as (s & e & rest & Hs & He & Hstream).
  rewrite map_tokens_converted in Hstream. unfold converted_tokens in Hstream.
  destruct (stream_ends_at_EOF _ _ _ _ Hstream He Hword) as [Hmap _].
  exists s. split; [exact Hs|]. split; [exact Hmap|].
  rewrite (build_select_tree tokens self s Hs Hmap) in Hbuild. congruence.
Qed.

(** X19: When the tree builder returns a tree for tokens none of which maps to
    the end marker [EOF], the mapped tokens are exactly one well-formed
    SELECT statement, with nothing before or after it, and the tree is the
    tree of that statement. *)
Theorem built_tree_is_select_tree tokens self tree :
  "EOF" ∉ terminal_word self tokens ->
  (build_ast_from_tokens tokens self).2 = Ok tree ->
  exists s, select_ok s /\ omap (convert_token self) tokens = select_tokens s /\
            tree = select_tree s.
Proof. apply build_ast_select. Qed.

Lemma select_where_no_EOF : "EOF" ∉ terminal_word sql_analyzer tokens_select_where.
Proof.
  unfold terminal_word. rewrite select_where_statement_tokens.
  apply (bool_decide_unpack _). vm_compute. exact I.
Qed.

Lemma built_tree_is_select_tree_witness :
  exists s, select_ok s /\
    omap (convert_token sql_analyzer) tokens_select_where = select_tokens s /\
    select_tree select_where_statement = select_tree s.
Proof.
  apply (built_tree_is_select_tree tokens_select_where sql_analyzer
           (select_tree select_where_statement)).
  - exact select_where_no_EOF.
  - exact (build_select_tree tokens_select_where sql_analyzer select_where_statement
             select_where_statement_ok select_where_statement_tokens).
Defined.




(** ** What the type of a token says about its text *)

Section LexerClasses.

Import Lexer.

Lemma classified_other ty v l c :
  ty <> "KEYWORD" -> ty <> "ID" -> ty <> "RANGE" -> ty <> "OP" ->
  classified (ty, v, l, c).
Proof.
  intros H1 H2 H3 H4. unfold classified, tok_kind. cbn [fst snd].
  split; [intros E; contradiction|]. split; [intros E; contradiction|].
  split; intros E; contradiction.
Qed.

Lemma scanner_classified cur0 t cur' :
  scanner cur0 = (Some t, cur') -> classified t.
Proof.
  unfold scanner. destruct (skip_space (prog cur0)) as [skipped rest0].
  destruct rest0 as [|c rest1]; [discriminate|].
  destruct (is_char c NUL); [discriminate|].
  set (cur := consume skipped (c :: rest1) cur0). clearbody cur.
  destruct (is_char c "/" && _).
  { destruct (block_comment_loop _) as [[tx cs] rm]. intros [= <- _].
    apply classified_other; discriminate. }
  destruct (is_char c "-" && _).
  { destruct (take_while _ _) as [tx rm]. intros [= <- _].
    apply classified_other; discriminate. }
  destruct (isalpha c || _).
  { destruct (take_while _ _) as [ident rm]. intros [= <- _].
    unfold classified, tok_kind, tok_value. cbn [fst snd].
    destruct (decide _) as [Hk|Hk].
    - split; [intros _; exact Hk|]. split; [discriminate|]. split; discriminate.
    - split; [discriminate|]. split; [intros _; exact Hk|]. split; discriminate. }
  destruct (isdigit c).
  { destruct (take_while isdigit _) as [digits rm].
    destruct rm as [|dot [|frac0 rm']];
      try (intros [= <- _]; apply classified_other; discriminate).
    destruct (is_char dot "." && isdigit frac0);
      [|intros [= <- _]; apply classified_other; discriminate].
    destruct (take_while isdigit _) as [frac rm2]. intros [= <- _].
    apply classified_other; discriminate. }
  destruct (is_char c "'").
  { destruct (string_loop rest1) as [[tx cs] rm]. intros [= <- _].
    apply classified_other; discriminate. }
  destruct (decide _) as [Htwo|Htwo].
  { intros [= <- _]. unfold classified, tok_kind, tok_value. cbn [fst snd].
    split; [discriminate|]. split; [discriminate|]. split; [discriminate|].
    intros _. unfold op_texts. apply elem_of_app. left. exact Htwo. }
  destruct (decide (c ∈ single_ops)) as [Hone|Hone];
    [|intros [= <- _]; apply classified_other; discriminate].
  destruct (decide (c ∈ range_chars)) as [Hr|Hr]; intros [= <- _];
    unfold classified, tok_kind, tok_value; cbn [fst snd].
  - split; [discriminate|]. split; [discriminate|]. split; [|discriminate].
    intros _. unfold range_chars in Hr. simpl in Hr.
    repeat (apply elem_of_cons in Hr as [->|Hr]; [solve_in_list|]). inversion Hr.
  - split; [discriminate|]. split; [discriminate|]. split; [discriminate|].
    intros _. unfold single_ops in Hone. simpl in Hone.
    repeat (apply elem_of_cons in Hone as [->|Hone];
            [first [solve_in_list | exfalso; apply Hr; solve_in_list]|]).
    inversion Hone.
Qed.

Lemma tokenize_loop_classified fuel cur acc r :
  tokenize_loop fuel cur acc = Ok r -> Forall classified acc -> Forall classified r.
Proof.
  revert cur acc. induction fuel as [|fuel IH]; intros cur acc H Hacc; [discriminate|].
  simpl in H. destruct (scanner cur) as [[t|] cur'] eqn:E.
  - apply (IH _ _ H). apply Forall_app. split; [exact Hacc|].
    constructor; [|constructor]. exact (scanner_classified _ _ _ E).
  - injection H as <-. exact Hacc.
Qed.

End LexerClasses.

(** X21: The lexer's classification: a KEYWORD token is a word whose upper-case
    form is in the keyword set and an ID token is one whose upper-case form
    is not; a RANGE token is one of [, ; ( )] and an OP token is one of the
    five two-character operators or of [+ - * / % < > ! = .]. *)
Theorem tokens_are_classified text tokens :
  Lexer.tokenize text = Ok tokens -> Forall classified tokens.
Proof. intros H. apply tokenize_loop_classified in H; [exact H|constructor]. Qed.

Lemma tokens_are_classified_witness : Forall classified tokens_select_where.
Proof.
  apply (tokens_are_classified "SELECT a, b FROM t WHERE a = 1 AND b <> 2;").
  vm_compute. reflexivity.
Defined.

(** ** The two entry points that take SQL text *)

Lemma sql_convert_kind self ty v l c t' :
  token_to_terminal self = sql_token_to_terminal ->
  convert_token self (ty, v, l, c) = Some t' ->
  (ty = "KEYWORD" /\ tok_kind t' = upper v) \/
  (ty ∈ ["ID"; "NUM"; "STRING"] /\ tok_kind t' = ty) \/
  (ty ∈ ["RANGE"; "OP"] /\ tok_kind t' = v) \/
  ty = "EOF".
Proof.
  intros Hm. unfold convert_token. rewrite Hm. unfold sql_token_to_terminal.
  rewrite !list_to_map_cons, list_to_map_nil.
  rewrite lookup_insert. case_decide; [subst ty; intros [= <-]; left; auto|].
  rewrite lookup_insert. case_decide;
    [subst ty; intros [= <-]; right; left; split; [solve_in_list|reflexivity]|].
  rewrite lookup_insert. case_decide;
    [subst ty; intros [= <-]; right; left; split; [solve_in_list|reflexivity]|].
  rewrite lookup_insert. case_decide;
    [subst ty; intros [= <-]; right; left; split; [solve_in_list|reflexivity]|].
  rewrite lookup_insert. case_decide;
    [subst ty; intros [= <-]; right; right; left; split; [solve_in_list|reflexivity]|].
  rewrite lookup_insert. case_decide;
    [subst ty; intros [= <-]; right; right; left; split; [solve_in_list|reflexivity]|].
  rewrite lookup_insert. case_decide; [discriminate|].
  rewrite lookup_insert. case_decide; [subst ty; intros _; right; right; right; reflexivity|].
  rewrite lookup_empty. discriminate.
Qed.

Lemma lexer_tokens_without_EOF self text tokens :
  token_to_terminal self = sql_token_to_terminal ->
  Lexer.tokenize text = Ok tokens -> "EOF" ∉ terminal_word self tokens.
Proof.
  intros Hm Hlex Hin. unfold terminal_word in Hin.
  apply list_elem_of_fmap in Hin as (t' & Hk & Hin).
  apply list_elem_of_omap in Hin as (t & Hin & Hconv).
  pose proof Hlex as Hcl. unfold Lexer.tokenize in Hcl.
  apply tokenize_loop_classified in Hcl; [|constructor].
  pose proof Hlex as Hkinds. unfold Lexer.tokenize in Hkinds.
  apply tokenize_loop_kinds in Hkinds; [|constructor].
  rewrite Forall_forall in Hcl, Hkinds.
  specialize (Hcl t Hin) as (Hkw & _ & Hrange & Hop).
  specialize (Hkinds t Hin) as [Hty _].
  destruct t as [[[ty v] l] c]. unfold tok_kind, tok_value in *. cbn [fst snd] in *.
  apply (sql_convert_kind self ty v l c t' Hm) in Hconv
    as [[-> Hk'] | [[Hty' Hk'] | [[Hty' Hk'] | ->]]].
  - specialize (Hkw eq_refl). unfold tok_kind in Hk'. rewrite <- Hk', <- Hk in Hkw.
    revert Hkw. apply (bool_decide_unpack _). vm_compute. exact I.
  - unfold tok_kind in Hk'. rewrite <- Hk in Hk'. subst ty. revert Hty'.
    apply (bool_decide_unpack _). vm_compute. exact I.
  - unfold tok_kind in Hk'. rewrite <- Hk in Hk'. subst v.
    apply elem_of_cons in Hty' as [->|Hty'];
      [|apply list_elem_of_singleton in Hty'; subst ty].
    + specialize (Hrange eq_refl). revert Hrange.
      apply (bool_decide_unpack _). vm_compute. exact I.
    + specialize (Hop eq_refl). revert Hop.
      apply (bool_decide_unpack _). vm_compute. exact I.
  - revert Hty. apply (bool_decide_unpack _). vm_compute. exact I.
Qed.

(** X22: The end marker is never a token of a text: whatever the text, none of
    the lexer's tokens is mapped to the terminal [EOF], so the one [EOF] of
    the parsers' stream is the one they append. *)
Theorem text_has_no_end_marker text tokens :
  Lexer.tokenize text = Ok tokens -> "EOF" ∉ terminal_word sql_analyzer tokens.
Proof. apply lexer_tokens_without_EOF, sql_token_to_terminal_eq. Qed.

Lemma text_has_no_end_marker_witness :
  "EOF" ∉ terminal_word sql_analyzer tokens_select_where.
Proof.
  apply (text_has_no_end_marker "SELECT a, b FROM t WHERE a = 1 AND b <> 2;").
  vm_compute. reflexivity.
Defined.

